(** * ZenRead PDF: a shallow embedding of the library shell, the sidebar tree,
      the storage service, the AI adapter, the chat panel and the reader.

    Part I translates the TypeScript sources into Rocq definitions, one module
    per source file.  Part II states and proves the properties.

    Conventions of the embedding:
    - a JavaScript string is the [string] of its UTF-8 encoding, which is
      what a string literal of this file denotes; the sources compare
      strings for equality, join them, test a prefix, cut them at "/" and
      trim them, and each of these reads the same on the encoding;
    - a page number is a [Z]; sizes, counts and timestamps are [N];
    - [undefined]/[null] is [None];
    - an IndexedDB object store is a [gmap] from its key path to its records;
    - an array is a [list]; [Array.prototype.sort] is the stable sort
      [sortBy];
    - where the source computes with fractions (the zoom factor, the read
      percentage) a number is a [Number.t], an IEEE 754 binary64 value;
    - an [async] function that can reject is a computation in the monad
      [Effect.M]: it ends in [Return] or in [Throw], and acts on a state. *)

From Stdlib Require Import ZArith NArith Ascii String List Sorted Permutation Lia.
From Stdlib Require Floats.SpecFloat.
From stdpp Require Import base option list sorting gmap strings.

Local Open Scope string_scope.
Local Open Scope list_scope.
#[local] Set Warnings "-clear-no-such-hyp".

(* ===================================================================== *)
(** * Part I: the model                                                   *)
(* ===================================================================== *)

(** ** Host functions used by the sources *)

(** [String.prototype.localeCompare] is provided by the host (its result
    depends on the collation of the user's locale), so the model takes it as
    an interface: any comparison that is a total preorder on strings. *)
Class Collator := {
  localeCompare : string -> string -> comparison;
  localeCompare_antisym : forall a b,
    localeCompare b a = CompOpp (localeCompare a b);
  localeCompare_trans : forall a b c,
    localeCompare a b <> Gt -> localeCompare b c <> Gt -> localeCompare a c <> Gt
}.

Module Js.

(** [xs.sort(cmp)]: the sort is stable, so for a consistent comparator its
    result is the one insertion builds: each element lands in front of the
    first later element that does not compare smaller. *)
Fixpoint insertBy {A} (cmp : A -> A -> comparison) (x : A) (l : list A) : list A :=
  match l with
  | [] => [x]
  | y :: l' =>
      match cmp x y with
      | Gt => y :: insertBy cmp x l'
      | _ => x :: l
      end
  end.

Definition sortBy {A} (cmp : A -> A -> comparison) (l : list A) : list A :=
  foldr (insertBy cmp) [] l.

(** [s.split(sep)] for a one-character separator: a string with k separators
    gives k+1 segments, empty ones included. *)
Fixpoint split (sep : ascii) (s : string) : list string :=
  match s with
  | EmptyString => [EmptyString]
  | String c s' =>
      if Ascii.eqb c sep then EmptyString :: split sep s'
      else match split sep s' with
           | seg :: segs => String c seg :: segs
           | [] => [String c EmptyString]
           end
  end.

(** [s.startsWith(p)] *)
Definition startsWith (s p : string) : bool := String.prefix p s.

(** [xs.findIndex(p)], with [None] for -1. *)
Fixpoint findIndex {A} (p : A -> bool) (l : list A) : option nat :=
  match l with
  | [] => None
  | x :: l' => if p x then Some 0 else S <$> findIndex p l'
  end.

(** A string is falsy exactly when it is empty. *)
Definition truthy (s : string) : bool :=
  match s with EmptyString => false | _ => true end.

(** [a || b] on strings. *)
Definition orElse (a b : string) : string := if truthy a then a else b.

(** The code points [String.prototype.trim] removes: the white space and
    the line terminators of ECMAScript, that is U+0009 to U+000D, U+0020,
    U+00A0, U+1680, U+2000 to U+200A, U+2028, U+2029, U+202F, U+205F,
    U+3000 and U+FEFF. *)
Definition whiteSpace : list N :=
  [9; 10; 11; 12; 13; 32; 160; 5760; 8192; 8193; 8194; 8195; 8196; 8197; 8198;
   8199; 8200; 8201; 8202; 8232; 8233; 8239; 8287; 12288; 65279]%N.

(** The UTF-8 encoding of a code point below U+10000: one, two or three
    bytes (U+00A0, the no-break space, is the two bytes C2 A0). *)
Definition utf8 (codePoint : N) : string :=
  let byte n := String (ascii_of_N n) EmptyString in
  if (codePoint <? 128)%N then byte codePoint
  else if (codePoint <? 2048)%N then
    byte (192 + codePoint / 64)%N +:+ byte (128 + codePoint mod 64)%N
  else
    byte (224 + codePoint / 4096)%N +:+ byte (128 + (codePoint / 64) mod 64)%N
    +:+ byte (128 + codePoint mod 64)%N.

(** [w] is the encoding of one white space character. *)
Definition isWhiteSpace (w : string) : bool :=
  existsb (String.eqb w) (map utf8 whiteSpace).

(** [s.trimStart()]: the white space characters at the start are removed
    one by one; such a character is one, two or three bytes long. *)
Fixpoint trimStart (s : string) : string :=
  match s with
  | EmptyString => EmptyString
  | String c1 s1 =>
      if isWhiteSpace (String c1 EmptyString) then trimStart s1
      else
        match s1 with
        | EmptyString => s
        | String c2 s2 =>
            if isWhiteSpace (String c1 (String c2 EmptyString)) then trimStart s2
            else
              match s2 with
              | EmptyString => s
              | String c3 s3 =>
                  if isWhiteSpace (String c1 (String c2 (String c3 EmptyString)))
                  then trimStart s3
                  else s
              end
        end
  end.

(** The string is empty or made of white space only. *)
Definition blank (s : string) : bool := negb (truthy (trimStart s)).

(** [s.trimEnd()]: the longest end of the string that is made of white
    space is cut off. *)
Fixpoint trimEnd (s : string) : string :=
  match s with
  | EmptyString => EmptyString
  | String c s' => if blank s then EmptyString else String c (trimEnd s')
  end.

(** [s.trim()] *)
Definition trim (s : string) : string := trimEnd (trimStart s).

End Js.

(** A JavaScript number where the sources compute with fractions: an IEEE 754
    binary64 value, with the operations of the standard library's
    specification of floating-point arithmetic (round to nearest, ties to
    even). *)
Module Number.

Definition t : Set := SpecFloat.spec_float.

Definition prec : Z := 53.
Definition emax : Z := 1024.

(** The number nearest to an integer (the integer itself up to 2^53). *)
Definition ofZ (z : Z) : t := SpecFloat.binary_normalize prec emax z 0 false.

Definition add : t -> t -> t := SpecFloat.SFadd prec emax.
Definition sub : t -> t -> t := SpecFloat.SFsub prec emax.
Definition mul : t -> t -> t := SpecFloat.SFmul prec emax.
Definition div : t -> t -> t := SpecFloat.SFdiv prec emax.

(** [a <= b] and [a < b]; both are false when an operand is NaN. *)
Definition leb (a b : t) : bool :=
  match SpecFloat.SFcompare a b with
  | Some Lt | Some Eq => true
  | _ => false
  end.

Definition ltb (a b : t) : bool :=
  match SpecFloat.SFcompare a b with
  | Some Lt => true
  | _ => false
  end.

(** [Math.max(a, b)] *)
Definition max (a b : t) : t :=
  match a, b with
  | SpecFloat.S754_zero sa, SpecFloat.S754_zero sb => SpecFloat.S754_zero (sa && sb)
  | _, _ =>
      match SpecFloat.SFcompare a b with
      | Some Lt => b
      | Some _ => a
      | None => SpecFloat.S754_nan
      end
  end.

(** [Math.min(a, b)] *)
Definition min (a b : t) : t :=
  match a, b with
  | SpecFloat.S754_zero sa, SpecFloat.S754_zero sb => SpecFloat.S754_zero (sa || sb)
  | _, _ =>
      match SpecFloat.SFcompare a b with
      | Some Gt => b
      | Some _ => a
      | None => SpecFloat.S754_nan
      end
  end.

(** [Math.round(x)]: the nearest integer, a tie going toward +infinity; the
    value [m * 2^e] with [e < 0] rounds to the floor of
    [(2m + 2^-e) / 2^(1-e)], and a zero result keeps the sign of [x]. *)
Definition round (x : t) : t :=
  match x with
  | SpecFloat.S754_finite s m e =>
      if (0 <=? e)%Z then x
      else
        let twice := ((if s then Z.neg m else Z.pos m) * 2 + 2 ^ (- e))%Z in
        SpecFloat.binary_normalize prec emax (twice / 2 ^ (1 - e)) 0 s
  | _ => x
  end.

End Number.

(** ** types.ts *)

Module StoredFile.
Record t := Build {
  id : string;
  name : string;
  type : string;
  size : N;
  data : list Byte.byte;
  createdAt : N;
  path : string
}.
End StoredFile.

Module ReadingHistory.
Record t := Build {
  fileId : string;
  lastPage : Z;
  lastReadAt : N;
  totalPages : option Z
}.
End ReadingHistory.

Module ChatMessage.
Inductive role_t := user | model.
Record t := Build {
  id : string;
  role : role_t;
  text : string;
  isLoading : option bool;
  timestamp : N
}.
End ChatMessage.

Module AIAnalysisRequest.
Record t := Build {
  text : option string;
  imageBase64 : option string;
  prompt : string
}.
End AIAnalysisRequest.

(** ** components/Sidebar.tsx: the tree built from the flat file list *)

Module TreeNode.
Inductive kind := file | folder.

#[warnings="-register-all"]
Inductive t := Build {
  id : string;
  name : string;
  path : string;
  type : kind;
  children : list t;
  fileId : option string;
  size : option N
}.

Definition kind_eqb (a b : kind) : bool :=
  match a, b with
  | file, file | folder, folder => true
  | _, _ => false
  end.

Definition withChildren (n : t) (c : list t) : t :=
  Build (id n) (name n) (path n) (type n) c (fileId n) (size n).

(** Every node of a tree, the root first. *)
Fixpoint flatten (n : t) : list t := n :: flat_map flatten (children n).

(** Every sequence of siblings below (and including) a level. *)
Fixpoint levelsBelow (n : t) : list (list t) :=
  children n :: flat_map levelsBelow (children n).
End TreeNode.

Module Sidebar.
Import TreeNode.

(** [xs] with [f] applied to the first element that satisfies [p]: the effect
    of mutating the node that [xs.find(p)] returned. *)
Fixpoint updateFirst {A} (p : A -> bool) (f : A -> A) (l : list A) : list A :=
  match l with
  | [] => []
  | x :: l' => if p x then f x :: l' else x :: updateFirst p f l'
  end.

(** [file.path.replace(/^\//, '')] *)
Definition cleanPath (p : string) : string :=
  match p with
  | String "/"%char rest => rest
  | _ => p
  end.

(** The segments of a record's path, as the projector reads them. *)
Definition parts (file : StoredFile.t) : list string :=
  Js.split "/"%char (cleanPath (StoredFile.path file)).

(** [currentPath ? `${currentPath}/${part}` : part] *)
Definition joinPath (currentPath part : string) : string :=
  if Js.truthy currentPath then currentPath +:+ "/" +:+ part else part.

(** [n.name === part && n.type === ty] *)
Definition isNode (part : string) (ty : kind) (n : t) : bool :=
  String.eqb (name n) part && kind_eqb (type n) ty.

(** The body of [parts.forEach] for one record.  [currentLevel] is the array
    the loop variable of the source points to; descending into
    [node.children] is the recursive call on the children of the node that
    [find] returned (or of the folder just pushed). *)
Fixpoint addParts (file : StoredFile.t) (currentPath : string)
    (ps : list string) (currentLevel : list t) : list t :=
  match ps with
  | [] => currentLevel
  | part :: rest =>
      let currentPath := joinPath currentPath part in
      match rest with
      | [] =>
          (* isFile *)
          match find (isNode part TreeNode.file) currentLevel with
          | Some _ => currentLevel
          | None =>
              currentLevel ++
              [Build (StoredFile.id file) part currentPath TreeNode.file []
                     (Some (StoredFile.id file)) (Some (StoredFile.size file))]
          end
      | _ :: _ =>
          match find (isNode part folder) currentLevel with
          | Some _ =>
              updateFirst (isNode part folder)
                (fun node => withChildren node (addParts file currentPath rest (children node)))
                currentLevel
          | None =>
              currentLevel ++
              [Build currentPath part currentPath folder
                     (addParts file currentPath rest []) None None]
          end
      end
  end.

Section WithCollator.
Context `{Collator}.

(** [(a, b) => a.path.localeCompare(b.path)] *)
Definition comparePaths (a b : StoredFile.t) : comparison :=
  localeCompare (StoredFile.path a) (StoredFile.path b).

(** [[...files].sort(...)] *)
Definition sortedFiles (files : list StoredFile.t) : list StoredFile.t :=
  Js.sortBy comparePaths files.

(** The comparator of [sortNodes]: folders first, then files; by name within
    a kind. *)
Definition compareNodes (a b : t) : comparison :=
  if kind_eqb (type a) (type b) then localeCompare (name a) (name b)
  else match type a with folder => Lt | file => Gt end.

(** [sortNodes].  The source sorts a level and then sorts the children of
    each of its nodes; the comparator reads only [type] and [name], which
    sorting the children leaves alone, so sorting the children first gives
    the same forest ([sortNodes_eq] below is the source's order). *)
Fixpoint sortNode (n : t) : t :=
  withChildren n (Js.sortBy compareNodes (map sortNode (children n))).

Definition sortNodes (nodes : list t) : list t :=
  Js.sortBy compareNodes (map sortNode nodes).

(** The forest before the final sort: [sortedFiles.forEach(file => ...)]. *)
Definition insertFile (root : list t) (file : StoredFile.t) : list t :=
  addParts file "" (parts file) root.

Definition unsortedTree (files : list StoredFile.t) : list t :=
  fold_left insertFile (sortedFiles files) [].

(** [treeData]: the memoised value of the component, a function of [files]
    (the spec calls it buildTree). *)
Definition treeData (files : list StoredFile.t) : list t :=
  sortNodes (unsortedTree files).

End WithCollator.

(** Observations of a forest used to state the properties. *)
Definition allNodes (forest : list t) : list t := flat_map flatten forest.

Definition fileNodes (forest : list t) : list t :=
  List.filter (fun n => kind_eqb (type n) file) (allNodes forest).

Definition levels (forest : list t) : list (list t) :=
  forest :: flat_map levelsBelow forest.

(** The order the final sort establishes among siblings: a folder stands
    before a file, and two nodes of one kind stand by name. *)
Definition foldersFirstByName `{Collator} (a b : t) : Prop :=
  match type a, type b with
  | folder, file => True
  | file, folder => False
  | _, _ => localeCompare (name a) (name b) <> Gt
  end.

(** What [find] tells two siblings apart by: the name and the kind. *)
Definition key (n : t) : string * kind := (name n, type n).

(** The value of [currentPath] after the segments [ps]. *)
Definition joinAll (ps : list string) : string := fold_left joinPath ps "".

(** The values [g] reads off the nodes of a forest, in traversal order. *)
Definition collect {B} (g : t -> list B) (forest : list t) : list B :=
  flat_map g (allNodes forest).

(** The [fileId] a node contributes: its own if it is a file. *)
Definition fileIdOf (n : t) : list (option string) :=
  if kind_eqb (type n) file then [fileId n] else [].

(** Whether the segments [ps] lead, through the folders [find] would
    pick, to a file node. *)
Fixpoint hasFile (ps : list string) (level : list t) : bool :=
  match ps with
  | [] => false
  | part :: rest =>
      match rest with
      | [] =>
          match find (isNode part file) level with
          | Some _ => true
          | None => false
          end
      | _ :: _ =>
          match find (isNode part folder) level with
          | Some node => hasFile rest (children node)
          | None => false
          end
      end
  end.

(** The records that create a file node when inserted in order: those whose
    segments no earlier record (nor [seen]) has. *)
Fixpoint firstOfEachPath (seen : list (list string)) (fs : list StoredFile.t)
    : list StoredFile.t :=
  match fs with
  | [] => []
  | f :: fs' =>
      if decide (parts f ∈ seen) then firstOfEachPath seen fs'
      else f :: firstOfEachPath (parts f :: seen) fs'
  end.

(** [toggleFolder]: the updater it passes to [setExpandedFolders]. *)
Definition toggleFolder (path : string) (prev : gset string) : gset string :=
  if decide (path ∈ prev) then prev ∖ {[path]} else prev ∪ {[path]}.

(** [getReadPercentage] *)
Definition getReadPercentage (history : list ReadingHistory.t) (fileId : string)
    : Number.t :=
  match find (fun h => String.eqb (ReadingHistory.fileId h) fileId) history with
  | None => Number.ofZ 0
  | Some h =>
      match ReadingHistory.totalPages h with
      | None | Some 0%Z => Number.ofZ 0
      | Some totalPages =>
          Number.round
            (Number.mul
               (Number.div (Number.ofZ (ReadingHistory.lastPage h))
                           (Number.ofZ totalPages))
               (Number.ofZ 100))
      end
  end.

(** A row of the rendered tree: the node and what [FileTreeItem] computes
    for it. *)
Record row := Row {
  node : t;
  paddingLeft : Z;
  isExpanded : bool;
  isActive : bool;
  percentage : Number.t
}.

Section FileTreeItem.
Variables (activeFileId : option string) (expandedFolders : gset string)
  (history : list ReadingHistory.t).

(** [FileTreeItem]: the row of the node, followed, for a folder that is
    expanded, by what its children render one level deeper. *)
Fixpoint FileTreeItem (depth : Z) (node : t) : list row :=
  let isExpanded := bool_decide (path node ∈ expandedFolders) in
  let isActive :=
    match fileId node, activeFileId with
    | Some a, Some b => String.eqb a b
    | _, _ => false
    end in
  let percentage :=
    match fileId node with
    | Some id => if Js.truthy id then getReadPercentage history id else Number.ofZ 0
    | None => Number.ofZ 0
    end in
  let paddingLeft := (depth * 12 + 12)%Z in
  Row node paddingLeft isExpanded isActive percentage ::
  match type node with
  | folder =>
      if isExpanded then flat_map (FileTreeItem (depth + 1)) (children node) else []
  | file => []
  end.

(** The rows of the sidebar: [treeData.map(node => <FileTreeItem depth={0} />)]. *)
Definition rendered (forest : list t) : list row := flat_map (FileTreeItem 0) forest.

End FileTreeItem.

End Sidebar.

(** ** Effects: promises that may reject, and the state they act on *)

Module Effect.

(** How an awaited call ends: it resolves with a value or rejects with an
    [Error] carrying a message. *)
Inductive Completion (A : Type) :=
| Return (a : A)
| Throw (message : string).
Arguments Return {A} a.
Arguments Throw {A} message.

(** A computation over a state of type [St]. *)
Definition M (St A : Type) : Type := St -> Completion A * St.

Definition ret {St A} (a : A) : M St A := fun s => (Return a, s).

Definition bind {St A B} (c : M St A) (k : A -> M St B) : M St B :=
  fun s =>
    match c s with
    | (Return a, s') => k a s'
    | (Throw e, s') => (Throw e, s')
    end.

(** [throw new Error(message)] *)
Definition throw {St A} (message : string) : M St A := fun s => (Throw message, s).

(** [try { body } catch (err) { handler(err) }] *)
Definition tryCatch {St A} (body : M St A) (handler : string -> M St A) : M St A :=
  fun s =>
    match body s with
    | (Return a, s') => (Return a, s')
    | (Throw e, s') => handler e s'
    end.

Definition gets {St A} (f : St -> A) : M St A := fun s => (Return (f s), s).

Definition modify {St} (f : St -> St) : M St unit := fun s => (Return tt, f s).

(** [for (const x of xs) { await body(x) }] *)
Fixpoint forOf {St A} (xs : list A) (body : A -> M St unit) : M St unit :=
  match xs with
  | [] => ret tt
  | x :: xs' => bind (body x) (fun _ => forOf xs' body)
  end.

(** [await p] for a promise of the outside world that settles as [p]. *)
Definition await {St A} (p : Completion A) : M St A := fun s => (p, s).

(** A computation run inside a component of a larger state. *)
Definition zoom {St W A} (get : St -> W) (set : W -> St -> St) (c : M W A) : M St A :=
  fun s => let '(r, w) := c (get s) in (r, set w s).

(** The state a computation leaves, and its completion. *)
Definition exec {St A} (c : M St A) (s : St) : St := snd (c s).
Definition completion {St A} (c : M St A) (s : St) : Completion A := fst (c s).


(** From a state satisfying [P], the computation [c] either returns [a] in a
    state satisfying [Q a] or throws in a state satisfying [E]. *)
Definition triple {St A} (P : St -> Prop) (c : M St A)
    (Q : A -> St -> Prop) (E : St -> Prop) : Prop :=
  forall s, P s ->
    match c s with
    | (Return a, s') => Q a s'
    | (Throw _, s') => E s'
    end.

(** [c] returns, whatever the state. *)
Definition resolves {St A} (c : M St A) : Prop :=
  triple (fun _ => True) c (fun _ _ => True) (fun _ => False).

End Effect.

Declare Scope effect_scope.
Delimit Scope effect_scope with effect.
Notation "'let!' x ':=' c 'in' k" :=
  (Effect.bind c (fun x => k))
  (at level 10, x pattern, c at level 100, k at level 200) : effect_scope.
Notation "c '>>>' k" :=
  (Effect.bind c (fun _ => k))
  (at level 100, k at level 200, right associativity) : effect_scope.

(** ** The browser: clock, UUID source and console *)

Module Host.
Import Effect.

Record t := Build {
  clock : nat -> N;      (* the successive readings of [Date.now()] *)
  ticks : nat;
  uuid : nat -> string;  (* the successive results of [crypto.randomUUID()] *)
  drawn : nat;
  console : list string  (* what [console.error] printed, oldest first *)
}.

(** [Date.now()] *)
Definition dateNow : M t N :=
  fun h => (Return (clock h (ticks h)),
            Build (clock h) (S (ticks h)) (uuid h) (drawn h) (console h)).

(** [crypto.randomUUID()] *)
Definition randomUUID : M t string :=
  fun h => (Return (uuid h (drawn h)),
            Build (clock h) (ticks h) (uuid h) (S (drawn h)) (console h)).

(** The browser after [console.error(label, ...)]. *)
Definition logged (label : string) (h : t) : t :=
  Build (clock h) (ticks h) (uuid h) (drawn h) (console h ++ [label]).

(** [console.error(label, err)] *)
Definition consoleError (label : string) : M t unit :=
  modify (fun h => Build (clock h) (ticks h) (uuid h) (drawn h) (console h ++ [label])).

End Host.

(** ** services/db.ts: the IndexedDB stores *)

Module Db.
Import Effect.
Local Open Scope effect_scope.

(** [STORE_FILES], [STORE_HISTORY] of constants.ts. *)
Inductive store := STORE_FILES | STORE_HISTORY.

(** The requests the service sends to the database. *)
Inductive request :=
| Open
| Put (s : store) (key : string)
| Get (s : store) (key : string)
| Delete (s : store) (key : string)
| GetAllFromIndex (s : store).

(** The two object stores; each is keyed by its key path ([id], [fileId]),
    so a store holds at most one record per key and [put] replaces. *)
Record stores := Stores {
  files : gmap string StoredFile.t;
  history : gmap string ReadingHistory.t
}.

(** The exported functions of the service. *)
Inductive call :=
| SaveFile (name : string)
| GetFiles
| GetFile (id : string)
| DeleteFile (id : string)
| UpdateHistory (fileId : string) (page : Z)
| GetHistory
| GetHistoryItem (fileId : string).

(** What the service runs in: the database, the outcome the host gives each
    request (by its position in the log and its content), the log of the
    requests sent, the browser, and a record of the calls made to the
    service (kept to state which calls were attempted). *)
Record world := World {
  contents : stores;
  fault : nat -> request -> bool;
  log : list request;
  host : Host.t;
  calls : list call
}.

Definition setContents (c : stores) (w : world) : world :=
  World c (fault w) (log w) (host w) (calls w).

Definition setHost (h : Host.t) (w : world) : world :=
  World (contents w) (fault w) (log w) h (calls w).

(** Entering a function of the service. *)
Definition called (c : call) : M world unit :=
  modify (fun w => World (contents w) (fault w) (log w) (host w) (calls w ++ [c])).

Definition onHost {A} (c : M Host.t A) : M world A := zoom host setHost c.

(** A browser [File]; [arrayBuffer] is how the promise of
    [file.arrayBuffer()] settles: with the bytes of the file, or rejected
    when the file cannot be read. *)
Record File := {
  fileName : string;
  fileType : string;
  fileSize : N;
  arrayBuffer : Completion (list Byte.byte);
  webkitRelativePath : string
}.

(** Sending a request records it; the host decides whether it is rejected. *)
Definition send (r : request) : M world unit :=
  fun w =>
    let w' := World (contents w) (fault w) (log w ++ [r]) (host w) (calls w) in
    if fault w (length (log w)) r then (Throw "request failed", w')
    else (Return tt, w').

(** [initDB()]: an open request.  The source keeps the promise of the first
    open and hands it to every later call, so all calls of one page load
    share one outcome; the model lets the host answer the open of each call,
    which includes both courses the source can take (every open accepted,
    every open rejected). *)
Definition initDB : M world unit := send Open.

(** [db.put(STORE_FILES, record)]: the key is the record's [id]. *)
Definition putFile (r : StoredFile.t) : M world unit :=
  send (Put STORE_FILES (StoredFile.id r)) >>>
  modify (fun w => setContents
    (Stores (<[StoredFile.id r := r]> (files (contents w))) (history (contents w))) w).

(** [db.put(STORE_HISTORY, record)]: the key is the record's [fileId]. *)
Definition putHistory (r : ReadingHistory.t) : M world unit :=
  send (Put STORE_HISTORY (ReadingHistory.fileId r)) >>>
  modify (fun w => setContents
    (Stores (files (contents w)) (<[ReadingHistory.fileId r := r]> (history (contents w)))) w).

(** [db.delete(store, key)] *)
Definition delete (s : store) (key : string) : M world unit :=
  send (Delete s key) >>>
  modify (fun w => setContents
    match s with
    | STORE_FILES => Stores (base.delete key (files (contents w))) (history (contents w))
    | STORE_HISTORY => Stores (files (contents w)) (base.delete key (history (contents w)))
    end w).

(** The records of a store in the order of a numeric index; records with
    the same index value come in the order of their keys. *)
Definition byIndex {A} (index : A -> N) (key : A -> string) (m : gmap string A)
    : list A :=
  Js.sortBy
    (fun a b =>
       match N.compare (index a) (index b) with
       | Eq => String.compare (key a) (key b)
       | c => c
       end)
    (map snd (map_to_list m)).

(** [db.getAllFromIndex(STORE_FILES, 'by-date')] *)
Definition getAllFilesByDate : M world (list StoredFile.t) :=
  send (GetAllFromIndex STORE_FILES) >>>
  gets (fun w => byIndex StoredFile.createdAt StoredFile.id (files (contents w))).

(** [db.getAllFromIndex(STORE_HISTORY, 'by-read')] *)
Definition getAllHistoryByRead : M world (list ReadingHistory.t) :=
  send (GetAllFromIndex STORE_HISTORY) >>>
  gets (fun w =>
    byIndex ReadingHistory.lastReadAt ReadingHistory.fileId (history (contents w))).

Definition saveFile (file : File) (path : option string) : M world StoredFile.t :=
  called (SaveFile (fileName file)) >>>
  initDB >>>
  let! arrayBuffer := await (arrayBuffer file) in
  let! id := onHost Host.randomUUID in
  let! now := onHost Host.dateNow in
  let storedFile :=
    StoredFile.Build id (fileName file) (fileType file) (fileSize file)
      arrayBuffer now
      (Js.orElse (default "" path) (fileName file)) in
  putFile storedFile >>>
  ret storedFile.

Definition getFiles : M world (list StoredFile.t) :=
  called GetFiles >>> initDB >>> getAllFilesByDate.

Definition getFile (id : string) : M world (option StoredFile.t) :=
  called (GetFile id) >>>
  initDB >>> send (Get STORE_FILES id) >>>
  gets (fun w => files (contents w) !! id).

Definition deleteFile (id : string) : M world unit :=
  called (DeleteFile id) >>>
  initDB >>>
  delete STORE_FILES id >>>
  delete STORE_HISTORY id.

Definition updateHistory (fileId : string) (page : Z) (totalPages : option Z)
    : M world unit :=
  called (UpdateHistory fileId page) >>>
  initDB >>>
  let! now := onHost Host.dateNow in
  let history := ReadingHistory.Build fileId page now totalPages in
  putHistory history.

Definition getHistory : M world (list ReadingHistory.t) :=
  called GetHistory >>> initDB >>> getAllHistoryByRead.

Definition getHistoryItem (fileId : string) : M world (option ReadingHistory.t) :=
  called (GetHistoryItem fileId) >>>
  initDB >>> send (Get STORE_HISTORY fileId) >>>
  gets (fun w => history (contents w) !! fileId).

(** The host accepts the requests [rs] if they are the next ones sent. *)
Definition accepts (w : world) (rs : list request) : Prop :=
  forall i r, rs !! i = Some r -> fault w (length (log w) + i) r = false.

(** Every record is stored under its key path. *)
Definition keyed (c : stores) : Prop :=
  (forall k r, files c !! k = Some r -> StoredFile.id r = k)
  /\ (forall k r, history c !! k = Some r -> ReadingHistory.fileId r = k).


Definition keyedWorld (w : world) : Prop := keyed (contents w).

(** The call rejects and leaves the stores, the clock and the UUID source as
    they were. *)
Definition rejectsUntouched {A} (c : M world A) (w : world) : Prop :=
  (exists message, completion c w = Throw message)
  /\ contents (exec c w) = contents w
  /\ host (exec c w) = host w.

(** The host rejects no request. *)
Definition reliable (w : world) : Prop := forall n r, fault w n r = false.

End Db.

(** ** App.tsx: the application shell *)

Module App.
Import Effect.
Local Open Scope effect_scope.

(** The component state ([useState]), with the world it acts on. *)
Record state := State {
  world : Db.world;
  innerWidth : Z;                      (* [window.innerWidth] *)
  files : list StoredFile.t;
  history : list ReadingHistory.t;
  activeFileId : option string;
  isSidebarOpen : bool
}.

Definition setWorld (w : Db.world) (s : state) : state :=
  State w (innerWidth s) (files s) (history s) (activeFileId s) (isSidebarOpen s).

(** A call into services/db.ts. *)
Definition db {A} (c : M Db.world A) : M state A := zoom world setWorld c.

Definition consoleError (label : string) : M state unit :=
  db (Db.onHost (Host.consoleError label)).

Definition dateNow : M state N := db (Db.onHost Host.dateNow).

(** [setFiles(prev => f(prev))] and its siblings. *)
Definition setFiles (f : list StoredFile.t -> list StoredFile.t) : M state unit :=
  modify (fun s => State (world s) (innerWidth s) (f (files s)) (history s)
                         (activeFileId s) (isSidebarOpen s)).

Definition setHistory (f : list ReadingHistory.t -> list ReadingHistory.t) : M state unit :=
  modify (fun s => State (world s) (innerWidth s) (files s) (f (history s))
                         (activeFileId s) (isSidebarOpen s)).

Definition setActiveFileId (v : option string) : M state unit :=
  modify (fun s => State (world s) (innerWidth s) (files s) (history s) v
                         (isSidebarOpen s)).

Definition setSidebarOpen (v : bool) : M state unit :=
  modify (fun s => State (world s) (innerWidth s) (files s) (history s)
                         (activeFileId s) v).

(** [loadData] of the first effect; [Promise.all] is run left to right. *)
Definition loadData : M state unit :=
  tryCatch
    (let! loadedFiles := db Db.getFiles in
     let! loadedHistory := db Db.getHistory in
     setFiles (fun _ => loadedFiles) >>>
     setHistory (fun _ => loadedHistory))
    (fun _ => consoleError "Failed to load data from DB").

(** [handleResize] *)
Definition handleResize (width : Z) : M state unit :=
  modify (fun s => State (world s) width (files s) (history s) (activeFileId s)
                         (isSidebarOpen s)) >>>
  if (768 <=? width)%Z then setSidebarOpen true else setSidebarOpen false.

(** The loop of [handleImport] and [handleFolderImport]: each file is saved
    inside its own [try]; [pathOf] is the path the handler passes. *)
Fixpoint saveEach (label : string) (pathOf : Db.File -> string)
    (selected : list Db.File) (newFiles : list StoredFile.t)
    : M state (list StoredFile.t) :=
  match selected with
  | [] => ret newFiles
  | file :: selected' =>
      let! newFiles :=
        tryCatch
          (let! storedFile := db (Db.saveFile file (Some (pathOf file))) in
           ret (newFiles ++ [storedFile]))
          (fun _ => consoleError label >>> ret newFiles) in
      saveEach label pathOf selected' newFiles
  end.

Definition handleImport (selected : list Db.File) : M state unit :=
  match selected with
  | [] => ret tt
  | _ =>
      let! newFiles := saveEach "Error saving file" Db.fileName selected [] in
      setFiles (fun prev => prev ++ newFiles)
  end.

Definition handleFolderImport (selected : list Db.File) : M state unit :=
  match selected with
  | [] => ret tt
  | _ =>
      let! newFiles :=
        saveEach "Error saving file from folder"
          (fun file => Js.orElse (Db.webkitRelativePath file) (Db.fileName file))
          selected [] in
      setFiles (fun prev => prev ++ newFiles)
  end.

Definition handleFileSelect (id : string) : M state unit :=
  setActiveFileId (Some id) >>>
  let! width := gets innerWidth in
  if (width <? 768)%Z then setSidebarOpen false else ret tt.

(** [handleFileDelete].  [activeFileId] is the value the closure captured at
    the render that created the handler. *)
Definition handleFileDelete (activeFileId : option string) (id : string) : M state unit :=
  tryCatch
    (db (Db.deleteFile id) >>>
     setFiles (fun prev => List.filter (fun f => negb (String.eqb (StoredFile.id f) id)) prev) >>>
     setHistory (fun prev =>
       List.filter (fun h => negb (String.eqb (ReadingHistory.fileId h) id)) prev) >>>
     if decide (activeFileId = Some id) then setActiveFileId None else ret tt)
    (fun _ => consoleError "Error deleting file").

(** The filter of [handleFolderDelete]. *)
Definition filesToDelete (files : list StoredFile.t) (folderPath : string)
    : list StoredFile.t :=
  List.filter
    (fun f =>
       let cleanPath := Sidebar.cleanPath (StoredFile.path f) in
       Js.startsWith cleanPath (folderPath +:+ "/"))
    files.

(** [handleFolderDelete]; [files] and [activeFileId] are the captured values. *)
Definition handleFolderDelete (files : list StoredFile.t)
    (activeFileId : option string) (folderPath : string) : M state unit :=
  forOf (filesToDelete files folderPath)
        (fun file => handleFileDelete activeFileId (StoredFile.id file)).

(** The updater passed to [setHistory] in [handlePageChange]. *)
Definition upsert (newItem : ReadingHistory.t) (prev : list ReadingHistory.t)
    : list ReadingHistory.t :=
  match Js.findIndex
          (fun h => String.eqb (ReadingHistory.fileId h) (ReadingHistory.fileId newItem))
          prev with
  | Some existingIndex => <[existingIndex := newItem]> prev
  | None => prev ++ [newItem]
  end.

(** [handlePageChange]; [activeFileId] is the captured value ([useCallback]). *)
Definition handlePageChange (activeFileId : option string) (page total : Z)
    : M state unit :=
  match activeFileId with
  | None => ret tt
  | Some fileId =>
      if negb (Js.truthy fileId) then ret tt
      else
        tryCatch
          (db (Db.updateHistory fileId page (Some total)) >>>
           let! now := dateNow in
           setHistory (upsert (ReadingHistory.Build fileId page now (Some total))))
          (fun _ => consoleError "Error updating history")
  end.

(** The values the render derives from the state: [activeFile],
    [fileHistory], [initialPage], and whether [main] carries the class
    [hidden]. *)
Definition isActiveId (activeFileId : option string) (id : string) : bool :=
  match activeFileId with
  | Some active => String.eqb id active
  | None => false
  end.

Definition activeFile (s : state) : option StoredFile.t :=
  find (fun f => isActiveId (activeFileId s) (StoredFile.id f)) (files s).

Definition fileHistory (s : state) : option ReadingHistory.t :=
  find (fun h => isActiveId (activeFileId s) (ReadingHistory.fileId h)) (history s).

Definition initialPage (s : state) : Z :=
  match fileHistory s with
  | Some h => ReadingHistory.lastPage h
  | None => 1
  end.

Definition mainHidden (s : state) : bool :=
  isSidebarOpen s && (innerWidth s <? 768)%Z.

(** The record [r] is what [saveFile(file, pathOf(file))] stores for the
    browser file [file]. *)
Definition savedFrom (pathOf : Db.File -> string) (file : Db.File)
    (r : StoredFile.t) : Prop :=
  StoredFile.name r = Db.fileName file
  /\ StoredFile.type r = Db.fileType file
  /\ StoredFile.size r = Db.fileSize file
  /\ Db.arrayBuffer file = Return (StoredFile.data r)
  /\ StoredFile.path r = Js.orElse (pathOf file) (Db.fileName file).

(** The state [s'] is what importing [selected] leaves of [s].  Each
    selected file has an outcome, [Some] record when its save resolved and
    [None] when it failed: [saveFile] was called for every file, in order;
    the file list has grown by the records of the outcomes, in order, each
    saved from its file; one line [label] was logged per failure; a file
    that cannot be read has failed, and with a host that rejects nothing no
    other file has; the progress and the selection are untouched. *)
Definition imports (label : string) (pathOf : Db.File -> string)
    (selected : list Db.File) (s s' : state) : Prop :=
  exists outcomes : list (option StoredFile.t),
    let new := omap id outcomes in
    Forall2 (fun file outcome =>
               match outcome with
               | Some r => savedFrom pathOf file r
               | None => True
               end) selected outcomes
    /\ files s' = files s ++ new
    /\ Host.console (Db.host (world s')) =
       Host.console (Db.host (world s))
       ++ replicate (length selected - length new) label
    /\ Db.calls (world s') =
       Db.calls (world s) ++ map (fun file => Db.SaveFile (Db.fileName file)) selected
    /\ (Db.reliable (world s) ->
        Forall2 (fun file outcome =>
                   outcome = None <-> exists message, Db.arrayBuffer file = Throw message)
                selected outcomes)
    /\ history s' = history s
    /\ activeFileId s' = activeFileId s
    /\ Db.history (Db.contents (world s')) = Db.history (Db.contents (world s)).

(** What the user and the environment can do to the shell. *)
Inductive event :=
| Mount                                   (* the first effect: [loadData()] *)
| Resize (width : Z)
| Import (selected : list Db.File)
| FolderImport (selected : list Db.File)
| FileSelect (id : string)
| FileDelete (id : string)
| FolderDelete (folderPath : string)
| PageChange (page total : Z).

(** An event runs its handler with the values of the current render. *)
Definition handle (e : event) : M state unit :=
  fun s =>
    match e with
    | Mount => loadData s
    | Resize width => handleResize width s
    | Import selected => handleImport selected s
    | FolderImport selected => handleFolderImport selected s
    | FileSelect id => handleFileSelect id s
    | FileDelete id => handleFileDelete (activeFileId s) id s
    | FolderDelete folderPath => handleFolderDelete (files s) (activeFileId s) folderPath s
    | PageChange page total => handlePageChange (activeFileId s) page total s
    end.

Definition run (events : list event) (s : state) : state :=
  fold_left (fun s e => exec (handle e) s) events s.

(** The state of the first render. *)
Definition initial (w : Db.world) (width : Z) : state :=
  State w width [] [] None (768 <=? width)%Z.


(** The states the shell can be in: the first render over a database whose
    records are under their keys, and whatever events lead to. *)
Inductive reachable : state -> Prop :=
| reachable_initial w width :
    Db.keyed (Db.contents w) -> reachable (initial w width)
| reachable_step s e :
    reachable s -> reachable (exec (handle e) s).

(** A progress record of the file [fileId]. *)
Definition hasFileId (fileId : string) (h : ReadingHistory.t) : bool :=
  String.eqb (ReadingHistory.fileId h) fileId.

(** The store keeps its records under their keys, and the in-memory list
    has no two records of one file. *)
Definition oneRecordPerFile (s : state) : Prop :=
  Db.keyed (Db.contents (world s))
  /\ NoDup (map ReadingHistory.fileId (history s)).

(** The host accepts every request about the file [id] (and every open). *)
Definition cooperative (w : Db.world) (id : string) : Prop :=
  (forall n, Db.fault w n Db.Open = false)
  /\ (forall n st, Db.fault w n (Db.Delete st id) = false).

(** No trace of the file [id] is left, in memory or in the database. *)
Definition gone (id : string) (s : state) : Prop :=
  (forall f, f ∈ files s -> StoredFile.id f <> id)
  /\ Db.files (Db.contents (world s)) !! id = None
  /\ Db.history (Db.contents (world s)) !! id = None.

End App.

(** ** The second shell: the [App] component that follows the AI adapter in
       services/geminiService.ts (it asks for confirmation and mounts the
       chat panel).  Only its delete handlers are modelled. *)

Module AppWithChat.
Import Effect.
Local Open Scope effect_scope.

(** [handleDelete]; [confirmed] is the answer of [window.confirm]. *)
Definition handleDelete (confirmed : bool) (activeFileId : option string)
    (id : string) : M App.state unit :=
  if confirmed then
    App.db (Db.deleteFile id) >>>
    App.setFiles (fun prev => List.filter (fun f => negb (String.eqb (StoredFile.id f) id)) prev) >>>
    if decide (activeFileId = Some id) then App.setActiveFileId None else ret tt
  else ret tt.

(** The filter of [handleFolderDelete]. *)
Definition filesToDelete (files : list StoredFile.t) (folderPath : string)
    : list StoredFile.t :=
  List.filter
    (fun f =>
       String.eqb (StoredFile.path f) folderPath
       || Js.startsWith (StoredFile.path f) (folderPath +:+ "/"))
    files.

Definition handleFolderDelete (confirmed : bool) (files : list StoredFile.t)
    (activeFileId : option string) (folderPath : string) : M App.state unit :=
  if confirmed then
    let filesToDelete := filesToDelete files folderPath in
    forOf filesToDelete (fun file => App.db (Db.deleteFile (StoredFile.id file))) >>>
    App.setFiles (fun prev =>
      List.filter
        (fun f => negb (existsb (fun del => String.eqb (StoredFile.id del) (StoredFile.id f))
                                filesToDelete))
        prev) >>>
    match activeFileId with
    | Some active =>
        if Js.truthy active
           && existsb (fun f => String.eqb (StoredFile.id f) active) filesToDelete
        then App.setActiveFileId None else ret tt
    | None => ret tt
    end
  else ret tt.

End AppWithChat.

(** ** services/geminiService.ts: the AI adapter *)

Module GeminiService.
Import Effect.
Local Open Scope effect_scope.

(** A part of the request's content. *)
Inductive part :=
| inlineData (mimeType data : string)
| textPart (text : string).

(** What the adapter gets from outside: the configured key and the hosted
    model.  [generateContent model parts systemInstruction] stands for
    creating the client and awaiting [ai.models.generateContent]: it resolves
    with [response.text] or rejects with an error. *)
Record sdk := {
  API_KEY : option string;
  generateContent : string -> list part -> string -> Completion (option string)
}.

(** [GEMINI_MODEL] of constants.ts. *)
Definition GEMINI_MODEL : string := "gemini-2.5-flash".

Definition systemInstruction : string :=
  "You are a helpful research assistant. You are analyzing a specific page of a PDF document provided by the user. Keep your answers concise, professional, and directly related to the content visible or provided.".

Definition newline : string := String (ascii_of_nat 10) EmptyString.

(** The value of an optional string when it is truthy. *)
Definition whenTruthy (o : option string) : option string :=
  match o with
  | Some s => if Js.truthy s then Some s else None
  | None => None
  end.

(** The [parts] array the adapter sends. *)
Definition requestParts (request : AIAnalysisRequest.t) : list part :=
  match whenTruthy (AIAnalysisRequest.imageBase64 request) with
  | Some image => [inlineData "image/png" image]
  | None => []
  end ++
  match whenTruthy (AIAnalysisRequest.text request) with
  | Some text =>
      [textPart ("Context text from PDF page: " +:+ newline +:+ text
                 +:+ newline +:+ newline)]
  | None => []
  end ++
  [textPart (AIAnalysisRequest.prompt request)].

Definition generateAIResponse (env : sdk) (request : AIAnalysisRequest.t)
    : M Host.t string :=
  tryCatch
    (match whenTruthy (API_KEY env) with
     | None => throw "API Key not found"
     | Some apiKey =>
         let parts := requestParts request in
         let! response := await (generateContent env GEMINI_MODEL parts systemInstruction) in
         ret (Js.orElse (default "" response) "No response generated.")
     end)
    (fun message =>
       Host.consoleError "Gemini API Error:" >>>
       ret ("Error: " +:+ Js.orElse message "Failed to generate response")).


(** The call fails: no key is configured, or the hosted model rejects. *)
Definition fails (env : sdk) (request : AIAnalysisRequest.t) : Prop :=
  whenTruthy (API_KEY env) = None
  \/ exists message,
       generateContent env GEMINI_MODEL (requestParts request) systemInstruction
       = Throw message.

End GeminiService.

(** ** components/ChatPanel.tsx: the transcript *)

Module ChatPanel.
Import Effect.
Local Open Scope effect_scope.

Record props := Props {
  pdfPageImage : option string;
  pdfPageText : option string
}.

Record state := State {
  messages : list ChatMessage.t;
  input : string;
  isLoading : bool;
  host : Host.t
}.

Definition setHost (h : Host.t) (s : state) : state :=
  State (messages s) (input s) (isLoading s) h.

Definition onHost {A} (c : M Host.t A) : M state A := zoom host setHost c.

Definition setMessages (f : list ChatMessage.t -> list ChatMessage.t) : M state unit :=
  modify (fun s => State (f (messages s)) (input s) (isLoading s) (host s)).

Definition setInput (v : string) : M state unit :=
  modify (fun s => State (messages s) v (isLoading s) (host s)).

Definition setIsLoading (v : bool) : M state unit :=
  modify (fun s => State (messages s) (input s) v (host s)).

(** The updater that fills the placeholder in. *)
Definition fillIn (modelMsgId responseText : string) (msg : ChatMessage.t) : ChatMessage.t :=
  if String.eqb (ChatMessage.id msg) modelMsgId
  then ChatMessage.Build (ChatMessage.id msg) (ChatMessage.role msg) responseText
                         (Some false) (ChatMessage.timestamp msg)
  else msg.

(** [handleSend]; [input] and [isLoading] are read from the current render. *)
Definition handleSend (env : GeminiService.sdk) (p : props) : M state unit :=
  fun s =>
    (if negb (Js.truthy (Js.trim (input s))) || isLoading s then ret tt
     else
       let! id := onHost Host.randomUUID in
       let! timestamp := onHost Host.dateNow in
       let userMsg := ChatMessage.Build id ChatMessage.user (input s) None timestamp in
       setMessages (fun prev => prev ++ [userMsg]) >>>
       setInput "" >>>
       setIsLoading true >>>
       let! modelMsgId := onHost Host.randomUUID in
       let! timestamp := onHost Host.dateNow in
       setMessages (fun prev =>
         prev ++ [ChatMessage.Build modelMsgId ChatMessage.model "" (Some true) timestamp]) >>>
       let! responseText :=
         onHost (GeminiService.generateAIResponse env
                   (AIAnalysisRequest.Build (pdfPageText p) (pdfPageImage p)
                                            (ChatMessage.text userMsg))) in
       setMessages (fun prev => map (fillIn modelMsgId responseText) prev) >>>
       setIsLoading false) s.

End ChatPanel.

(** ** components/PDFReader.tsx: the current page *)

Module PDFReader.

Inductive direction := left | right.

(** The page state, the touch refs and the calls made to [onPageChange]. *)
Record state := State {
  numPages : option N;
  pageNumber : Z;
  touchStart : option Z;
  touchEnd : option Z;
  touchYStart : option Z;
  touchYEnd : option Z;
  flash : option direction;
  reported : list (Z * Z)          (* [onPageChange(page, total)], oldest first *)
}.

Definition minSwipeDistance : Z := 50.

(** [numPages || 1] *)
Definition totalOr1 (numPages : option N) : Z :=
  match numPages with
  | Some 0%N | None => 1
  | Some n => Z.of_N n
  end.

(** [onDocumentLoadSuccess] *)
Definition onDocumentLoadSuccess (n : N) (s : state) : state :=
  State (Some n) (pageNumber s) (touchStart s) (touchEnd s) (touchYStart s)
        (touchYEnd s) (flash s) (reported s ++ [(pageNumber s, Z.of_N n)]).

Definition changePage (offset : Z) (s : state) : state :=
  let newPage := Z.min (Z.max 1 (pageNumber s + offset)) (totalOr1 (numPages s)) in
  State (numPages s) newPage (touchStart s) (touchEnd s) (touchYStart s)
        (touchYEnd s) (flash s) (reported s ++ [(newPage, totalOr1 (numPages s))]).

Definition onTouchStart (clientX clientY : Z) (s : state) : state :=
  State (numPages s) (pageNumber s) (Some clientX) None (Some clientY) None
        (flash s) (reported s).

Definition onTouchMove (clientX clientY : Z) (s : state) : state :=
  State (numPages s) (pageNumber s) (touchStart s) (Some clientX) (touchYStart s)
        (Some clientY) (flash s) (reported s).

(** A ref that is [null] or 0 is falsy; otherwise its number. *)
Definition current (ref : option Z) : option Z :=
  match ref with
  | Some 0%Z | None => None
  | Some v => Some v
  end.

(** [onTouchEnd]; the test [|x| > |y| * 1.5] is [2|x| > 3|y|]. *)
Definition onTouchEnd (s : state) : state :=
  match current (touchStart s), current (touchEnd s),
        current (touchYStart s), current (touchYEnd s) with
  | Some x0, Some x1, Some y0, Some y1 =>
      let xDistance := (x0 - x1)%Z in
      let yDistance := (y0 - y1)%Z in
      if (3 * Z.abs yDistance <? 2 * Z.abs xDistance)%Z then
        let isLeftSwipe := (minSwipeDistance <? xDistance)%Z in
        let isRightSwipe := (xDistance <? - minSwipeDistance)%Z in
        if isLeftSwipe && (pageNumber s <? totalOr1 (numPages s))%Z then changePage 1 s
        else if isRightSwipe && (1 <? pageNumber s)%Z then changePage (-1) s
        else s
      else s
  | _, _, _, _ => s
  end.

(** [handleZoneClick] (the timer that clears the flash is a later event). *)
Definition handleZoneClick (d : direction) (s : state) : state :=
  changePage (match d with left => -1 | right => 1 end)%Z
    (State (numPages s) (pageNumber s) (touchStart s) (touchEnd s) (touchYStart s)
           (touchYEnd s) (Some d) (reported s)).

(** The toolbar buttons; a disabled button does not fire. *)
Definition previousButton (s : state) : state :=
  if (pageNumber s <=? 1)%Z then s else changePage (-1) s.

Definition nextButton (s : state) : state :=
  if (totalOr1 (numPages s) <=? pageNumber s)%Z then s else changePage 1 s.

(** The requests that can turn the page. *)
Inductive request :=
| PreviousButton
| NextButton
| ZoneClick (d : direction)
| TouchStart (clientX clientY : Z)
| TouchMove (clientX clientY : Z)
| TouchEnd.

Definition handle (r : request) (s : state) : state :=
  match r with
  | PreviousButton => previousButton s
  | NextButton => nextButton s
  | ZoneClick d => handleZoneClick d s
  | TouchStart x y => onTouchStart x y s
  | TouchMove x y => onTouchMove x y s
  | TouchEnd => onTouchEnd s
  end.

Definition run (requests : list request) (s : state) : state :=
  fold_left (fun s r => handle r s) requests s.

(** The reader as first rendered for a file: [useState(initialPage)]. *)
Definition initial (numPages : option N) (initialPage : Z) : state :=
  State numPages initialPage None None None None None [].


(** The zoom buttons: [setScale(s => Math.max(0.5, s - 0.1))] and
    [setScale(s => Math.min(2.0, s + 0.1))].  The literal [0.1] is the
    number nearest to 1/10, which is what dividing 1 by 10 gives; 0.5, 1 and
    2 are exact. *)
Definition tenth : Number.t := Number.div (Number.ofZ 1) (Number.ofZ 10).
Definition half : Number.t := Number.div (Number.ofZ 1) (Number.ofZ 2).

Definition zoomOut (s : Number.t) : Number.t := Number.max half (Number.sub s tenth).
Definition zoomIn (s : Number.t) : Number.t := Number.min (Number.ofZ 2) (Number.add s tenth).

(** The label between the buttons: [Math.round(scale * 100)]. *)
Definition zoomLabel (scale : Number.t) : Number.t :=
  Number.round (Number.mul scale (Number.ofZ 100)).

(** [useState(1.0)], also the value the scale is reset to when the file
    changes. *)
Definition initialScale : Number.t := Number.ofZ 1.

Inductive zoom := ZoomOut | ZoomIn.

Definition zoomClick (scale : Number.t) (z : zoom) : Number.t :=
  match z with
  | ZoomOut => zoomOut scale
  | ZoomIn => zoomIn scale
  end.

(** [pdfRenderWidth]: the width handed to the page. *)
Definition isMobile (containerWidth : Z) : bool := (containerWidth <? 768)%Z.

Definition pdfRenderWidth (containerWidth : Z) : Z :=
  if isMobile containerWidth then containerWidth
  else Z.min (containerWidth - 64) 1000.

(** The page and the calls to [onPageChange] agree with a page count [n]. *)
Definition consistent (n : Z) (s : state) : Prop :=
  Forall (fun call => (1 <= call.1 <= n)%Z /\ call.2 = n) (reported s)
  /\ (reported s = [] \/ last (reported s) = Some (pageNumber s, n)).

End PDFReader.

(* ===================================================================== *)
(** * Part II: properties                                                 *)
(* ===================================================================== *)

(** ** The stable sort *)

Module SortFacts.
Import Js.

Section Sorting.
Context {A : Type} (cmp : A -> A -> comparison).

(** [a] may stand before [b]. *)
Definition leq (a b : A) : Prop := cmp a b <> Gt.

Lemma insertBy_Permutation x l : insertBy cmp x l ≡ₚ x :: l.
Proof.
  induction l as [|y l IH]; simpl; [done|].
  destruct (cmp x y); try done.
  rewrite IH. apply perm_swap.
Qed.

Lemma sortBy_Permutation l : sortBy cmp l ≡ₚ l.
Proof.
  induction l as [|x l IH]; simpl; [done|].
  unfold sortBy in *; simpl. by rewrite insertBy_Permutation, IH.
Qed.

Lemma sortBy_length l : length (sortBy cmp l) = length l.
Proof. apply Permutation_length, sortBy_Permutation. Qed.

Lemma elem_of_sortBy x l : x ∈ sortBy cmp l <-> x ∈ l.
Proof. by rewrite sortBy_Permutation. Qed.

(** The comparator is consistent: a total preorder. *)
Hypothesis cmp_antisym : forall a b, cmp b a = CompOpp (cmp a b).
Hypothesis cmp_trans : forall a b c, leq a b -> leq b c -> leq a c.

Lemma leq_total a b : leq a b \/ leq b a.
Proof.
  unfold leq. rewrite (cmp_antisym a b).
  destruct (cmp a b); simpl; auto; left; discriminate.
Qed.

Lemma leq_both_Eq a b : leq a b -> leq b a -> cmp a b = Eq.
Proof.
  unfold leq. rewrite (cmp_antisym a b).
  destruct (cmp a b); simpl; congruence.
Qed.

Lemma insertBy_HdRel x y l :
  leq y x -> HdRel leq y l -> HdRel leq y (insertBy cmp x l).
Proof.
  intros Hyx Hl. destruct l as [|z l]; simpl; [by constructor|].
  destruct (cmp x z); constructor; try done; by inversion Hl.
Qed.

Lemma insertBy_Sorted x l : Sorted leq l -> Sorted leq (insertBy cmp x l).
Proof.
  induction 1 as [|y l Hl IH Hy]; simpl; [by repeat constructor|].
  destruct (cmp x y) eqn:Hxy.
  - constructor; [by constructor|]. constructor. unfold leq. congruence.
  - constructor; [by constructor|]. constructor. unfold leq. congruence.
  - constructor; [done|]. apply insertBy_HdRel; [|done].
    unfold leq. rewrite (cmp_antisym x y), Hxy. discriminate.
Qed.

Lemma sortBy_Sorted l : Sorted leq (sortBy cmp l).
Proof.
  induction l as [|x l IH]; [constructor|].
  unfold sortBy in *; simpl. by apply insertBy_Sorted.
Qed.

Lemma sortBy_StronglySorted l : StronglySorted leq (sortBy cmp l).
Proof.
  apply Sorted_StronglySorted; [|apply sortBy_Sorted].
  intros a b c. apply cmp_trans.
Qed.

(** Two orderings of the same elements sort to the same list, provided
    elements that compare equal are equal. *)
Lemma sortBy_unique l1 l2 :
  l1 ≡ₚ l2 ->
  (forall a b, a ∈ l1 -> b ∈ l1 -> cmp a b = Eq -> a = b) ->
  sortBy cmp l1 = sortBy cmp l2.
Proof.
  intros Hperm Hties.
  assert (Transitive leq) as Htrans by (intros a b c; apply cmp_trans).
  apply (Sorted_unique_strong leq).
  - intros a b Ha Hb Hab Hba.
    rewrite elem_of_sortBy in Ha. rewrite elem_of_sortBy in Hb.
    apply Hties; [done| |by apply leq_both_Eq].
    by rewrite Hperm.
  - apply sortBy_Sorted.
  - apply sortBy_Sorted.
  - by rewrite !sortBy_Permutation.
Qed.

End Sorting.

(** Sorting commutes with a map that the comparator does not see. *)
Lemma insertBy_map {A} (cmp : A -> A -> comparison) (g : A -> A) x l :
  (forall a b, cmp (g a) (g b) = cmp a b) ->
  insertBy cmp (g x) (map g l) = map g (insertBy cmp x l).
Proof.
  intros Hg. induction l as [|y l IH]; simpl; [done|].
  rewrite Hg. destruct (cmp x y); simpl; [done..|]. by rewrite IH.
Qed.

Lemma sortBy_map {A} (cmp : A -> A -> comparison) (g : A -> A) l :
  (forall a b, cmp (g a) (g b) = cmp a b) ->
  sortBy cmp (map g l) = map g (sortBy cmp l).
Proof.
  intros Hg. induction l as [|x l IH]; simpl; [done|].
  unfold sortBy in *; simpl. rewrite IH. by apply insertBy_map.
Qed.

Lemma StronglySorted_weaken {A} (R1 R2 : A -> A -> Prop) l :
  (forall a b, R1 a b -> R2 a b) -> StronglySorted R1 l -> StronglySorted R2 l.
Proof.
  intros HR. induction 1 as [|x l Hl IH Hx]; constructor; [done|].
  eapply Forall_impl; [exact Hx|]. intros y. apply HR.
Qed.

End SortFacts.

(** ** Lists *)

Module ListFacts.

Lemma elem_of_flat_map {A B} (f : A -> list B) (l : list A) (y : B) :
  y ∈ flat_map f l <-> exists x, x ∈ l /\ y ∈ f x.
Proof.
  rewrite list_elem_of_In, in_flat_map. split.
  - intros (x & Hx & Hy). exists x. by rewrite !list_elem_of_In.
  - intros (x & Hx & Hy). exists x. by rewrite <-!list_elem_of_In.
Qed.

End ListFacts.

(** ** The sidebar tree *)

Module SidebarFacts.
Import Js TreeNode Sidebar SortFacts ListFacts.

(** Induction on a tree, with the property available for every child. *)
Fixpoint tree_ind' (P : t -> Prop)
    (step : forall n, Forall P (children n) -> P n) (n : t) : P n :=
  step n
    ((fix all (l : list t) : Forall P l :=
        match l with
        | [] => @List.Forall_nil _ P
        | c :: l' => @List.Forall_cons _ P c l' (tree_ind' P step c) (all l')
        end) (children n)).

Lemma kind_eqb_eq a b : kind_eqb a b = true <-> a = b.
Proof. destruct a, b; simpl; split; congruence. Qed.

Section WithCollator.
Context `{Collator}.

Lemma comparePaths_antisym a b : comparePaths b a = CompOpp (comparePaths a b).
Proof. apply localeCompare_antisym. Qed.

Lemma comparePaths_trans a b c :
  leq comparePaths a b -> leq comparePaths b c -> leq comparePaths a c.
Proof. apply localeCompare_trans. Qed.

Lemma compareNodes_antisym a b : compareNodes b a = CompOpp (compareNodes a b).
Proof.
  unfold compareNodes.
  destruct (type a), (type b); simpl; auto using localeCompare_antisym.
Qed.

Lemma compareNodes_trans a b c :
  leq compareNodes a b -> leq compareNodes b c -> leq compareNodes a c.
Proof.
  unfold leq, compareNodes.
  destruct (type a), (type b), (type c); simpl;
    eauto using localeCompare_trans; congruence.
Qed.

Lemma leq_compareNodes a b : leq compareNodes a b <-> foldersFirstByName a b.
Proof.
  unfold leq, compareNodes, foldersFirstByName.
  destruct (type a), (type b); simpl; intuition congruence.
Qed.

(** *** The final sort *)

Lemma sortNode_name n : name (sortNode n) = name n.
Proof. by destruct n. Qed.

Lemma sortNode_type n : type (sortNode n) = type n.
Proof. by destruct n. Qed.

Lemma sortNode_fileId n : fileId (sortNode n) = fileId n.
Proof. by destruct n. Qed.

Lemma sortNode_children n : children (sortNode n) = sortNodes (children n).
Proof. by destruct n. Qed.

Lemma compareNodes_sortNode a b :
  compareNodes (sortNode a) (sortNode b) = compareNodes a b.
Proof. unfold compareNodes. by rewrite !sortNode_name, !sortNode_type. Qed.

(** [sortNodes] in the order of the source: sort the level, then sort the
    children of each of its nodes. *)
Lemma sortNodes_eq nodes :
  sortNodes nodes =
  map (fun node => withChildren node (sortNodes (children node)))
      (sortBy compareNodes nodes).
Proof.
  unfold sortNodes at 1.
  rewrite sortBy_map by apply compareNodes_sortNode.
  apply map_ext. by intros [].
Qed.

Lemma sortNodes_Permutation nodes : sortNodes nodes ≡ₚ map sortNode nodes.
Proof. apply sortBy_Permutation. Qed.

Lemma sortNodes_StronglySorted nodes :
  StronglySorted foldersFirstByName (sortNodes nodes).
Proof.
  eapply StronglySorted_weaken;
    [|apply (sortBy_StronglySorted compareNodes);
      [apply compareNodes_antisym|apply compareNodes_trans]].
  intros a b. apply leq_compareNodes.
Qed.

Lemma levelsBelow_sortNode n :
  levelsBelow (sortNode n) = levels (sortNodes (children n)).
Proof. destruct n; reflexivity. Qed.

Lemma levels_sortNodes_sorted nodes :
  Forall (StronglySorted foldersFirstByName) (levels (sortNodes nodes)).
Proof.
  revert nodes.
  assert (forall n, Forall (StronglySorted foldersFirstByName) (levelsBelow (sortNode n)))
    as Hnode.
  { induction n as [n IH] using tree_ind'.
    rewrite levelsBelow_sortNode. unfold levels.
    constructor; [apply sortNodes_StronglySorted|].
    apply Forall_forall. intros lvl Hlvl.
    apply elem_of_flat_map in Hlvl as (m & Hm & Hlvl).
    rewrite sortNodes_Permutation in Hm.
    apply list_elem_of_fmap in Hm as (c & -> & Hc).
    rewrite Forall_forall in IH. specialize (IH c Hc).
    rewrite Forall_forall in IH. by apply IH. }
  intros nodes. unfold levels.
  constructor; [apply sortNodes_StronglySorted|].
  apply Forall_forall. intros lvl Hlvl.
  apply elem_of_flat_map in Hlvl as (m & Hm & Hlvl).
  rewrite sortNodes_Permutation in Hm.
  apply list_elem_of_fmap in Hm as (c & -> & Hc).
  specialize (Hnode c). rewrite Forall_forall in Hnode.
  by apply Hnode.
Qed.

End WithCollator.

(** *** Finding and updating the first match *)

Lemma find_snoc {A} (p : A -> bool) l x :
  find p (l ++ [x]) =
  match find p l with
  | Some y => Some y
  | None => if p x then Some x else None
  end.
Proof. induction l as [|y l IH]; simpl; [done|]. by destruct (p y). Qed.

(** The first match splits the list around itself. *)
Lemma find_Some_split {A} (p : A -> bool) (f : A -> A) l n :
  find p l = Some n ->
  exists l1 l2, l = l1 ++ n :: l2 /\ updateFirst p f l = l1 ++ f n :: l2.
Proof.
  induction l as [|x l IH]; simpl; [done|].
  destruct (p x) eqn:Hx.
  - intros [= ->]. by exists [], l.
  - intros Hn. destruct (IH Hn) as (l1 & l2 & -> & ->). by exists (x :: l1), l2.
Qed.

Lemma find_Some_true {A} (p : A -> bool) l n : find p l = Some n -> p n = true.
Proof. intros Hn. by apply find_some in Hn as [_ ?]. Qed.

Lemma find_updateFirst_same {A} (p : A -> bool) (f : A -> A) l :
  (forall n, p (f n) = p n) ->
  find p (updateFirst p f l) = f <$> find p l.
Proof.
  intros Hf. induction l as [|x l IH]; simpl; [done|].
  destruct (p x) eqn:Hx; simpl.
  - by rewrite Hf, Hx.
  - by rewrite Hx.
Qed.

Lemma find_updateFirst_other {A} (p q : A -> bool) (f : A -> A) l :
  (forall n, p n = true -> q n = false) ->
  (forall n, q (f n) = q n) ->
  find q (updateFirst p f l) = find q l.
Proof.
  intros Hpq Hf. induction l as [|x l IH]; simpl; [done|].
  destruct (p x) eqn:Hx; simpl.
  - by rewrite Hf, (Hpq x Hx).
  - by rewrite IH.
Qed.

Lemma isNode_inv part ty n : isNode part ty n = true -> name n = part /\ type n = ty.
Proof.
  unfold isNode. intros [Hn Ht]%andb_prop.
  apply String.eqb_eq in Hn. by apply kind_eqb_eq in Ht.
Qed.

Lemma isNode_withChildren part ty n c :
  isNode part ty (withChildren n c) = isNode part ty n.
Proof. by destruct n. Qed.

Lemma isNode_other part part' ty ty' n :
  (part, ty) <> (part', ty') -> isNode part ty n = true -> isNode part' ty' n = false.
Proof.
  intros Hne [<- <-]%isNode_inv. unfold isNode.
  destruct (String.eqb_spec (name n) part') as [Heq|]; [|done].
  destruct (type n), ty'; simpl; congruence.
Qed.

(** *** What a forest is made of *)

Section Collect.
Context {B : Type} (g : t -> list B).

Lemma collect_nil : collect g [] = [].
Proof. done. Qed.

Lemma collect_cons n l :
  collect g (n :: l) = g n ++ collect g (children n) ++ collect g l.
Proof.
  unfold collect, allNodes. simpl.
  destruct n; simpl. by rewrite flat_map_app, app_assoc.
Qed.

Lemma collect_app l1 l2 : collect g (l1 ++ l2) = collect g l1 ++ collect g l2.
Proof. unfold collect, allNodes. by rewrite !flat_map_app. Qed.

Lemma collect_Permutation l1 l2 : l1 ≡ₚ l2 -> collect g l1 ≡ₚ collect g l2.
Proof.
  induction 1 as [|n l1 l2 _ IH|n m l|l1 l2 l3 _ IH1 _ IH2].
  - done.
  - rewrite !collect_cons. by rewrite IH.
  - rewrite !collect_cons.
    rewrite !app_assoc. f_equiv.
    rewrite <-!app_assoc.
    rewrite (app_assoc (g m)), (app_assoc (g n)).
    apply Permutation_app_comm.
  - by rewrite IH1.
Qed.

(** Replacing a node's children replaces their contribution. *)
Lemma collect_withChildren l1 n c l2 :
  (forall c', g (withChildren n c') = g n) ->
  collect g (l1 ++ withChildren n c :: l2) ≡ₚ
  collect g l1 ++ g n ++ collect g c ++ collect g l2.
Proof.
  intros Hg. rewrite collect_app, collect_cons, Hg. by destruct n.
Qed.

End Collect.

Lemma fileIds_collect forest :
  map fileId (fileNodes forest) = collect fileIdOf forest.
Proof.
  unfold fileNodes, collect, fileIdOf.
  induction (allNodes forest) as [|n l IH]; simpl; [done|].
  destruct (kind_eqb (type n) file); simpl; by rewrite IH.
Qed.

Lemma names_collect forest :
  map name (allNodes forest) = collect (fun n => [name n]) forest.
Proof.
  unfold collect. induction (allNodes forest) as [|n l IH]; simpl; [done|].
  by rewrite IH.
Qed.

(** *** Inserting one record *)

Lemma addParts_folder f cp part r rest level :
  addParts f cp (part :: r :: rest) level =
  match find (isNode part folder) level with
  | Some _ =>
      updateFirst (isNode part folder)
        (fun node => withChildren node
                       (addParts f (joinPath cp part) (r :: rest) (children node)))
        level
  | None =>
      level ++ [Build (joinPath cp part) part (joinPath cp part) folder
                      (addParts f (joinPath cp part) (r :: rest) []) None None]
  end.
Proof. reflexivity. Qed.

Lemma addParts_file f cp part level :
  addParts f cp [part] level =
  match find (isNode part file) level with
  | Some _ => level
  | None =>
      level ++ [Build (StoredFile.id f) part (joinPath cp part) file []
                      (Some (StoredFile.id f)) (Some (StoredFile.size f))]
  end.
Proof. reflexivity. Qed.

Lemma hasFile_folder part r rest level :
  hasFile (part :: r :: rest) level =
  match find (isNode part folder) level with
  | Some node => hasFile (r :: rest) (children node)
  | None => false
  end.
Proof. reflexivity. Qed.

Lemma hasFile_file part level :
  hasFile [part] level =
  match find (isNode part file) level with Some _ => true | None => false end.
Proof. reflexivity. Qed.

Lemma hasFile_nil ps : hasFile ps [] = false.
Proof. by destruct ps as [|? [|]]. Qed.

Lemma isNode_new_file part i p fi sz :
  isNode part file (Build i part p file [] fi sz) = true.
Proof. unfold isNode; simpl. by rewrite String.eqb_refl. Qed.

Lemma isNode_new_folder part i p c :
  isNode part folder (Build i part p folder c None None) = true.
Proof. unfold isNode; simpl. by rewrite String.eqb_refl. Qed.

Lemma withChildren_id n : withChildren n (children n) = n.
Proof. by destruct n. Qed.

Lemma children_withChildren n c : children (withChildren n c) = c.
Proof. by destruct n. Qed.

(** A record whose segments already lead to a file node changes nothing. *)
Lemma addParts_present f cp ps level :
  hasFile ps level = true -> addParts f cp ps level = level.
Proof.
  revert cp level. induction ps as [|part rest IH]; intros cp level; [done|].
  destruct rest as [|r rest].
  - rewrite hasFile_file, addParts_file. by destruct (find _ level).
  - rewrite hasFile_folder, addParts_folder.
    destruct (find _ level) as [node|] eqn:Hfind; [|done]. intros Hrest.
    destruct (find_Some_split _
      (fun node => withChildren node
         (addParts f (joinPath cp part) (r :: rest) (children node))) _ _ Hfind)
      as (l1 & l2 & -> & ->).
    by rewrite IH, withChildren_id.
Qed.

Lemma hasFile_addParts_same f cp ps level :
  ps <> [] -> hasFile ps (addParts f cp ps level) = true.
Proof.
  revert cp level. induction ps as [|part rest IH]; intros cp level Hne; [done|].
  destruct rest as [|r rest].
  - rewrite addParts_file.
    destruct (find _ level) eqn:Hfind; rewrite hasFile_file.
    + by rewrite Hfind.
    + by rewrite find_snoc, Hfind, isNode_new_file.
  - rewrite addParts_folder.
    destruct (find _ level) as [node|] eqn:Hfind; rewrite hasFile_folder.
    + rewrite find_updateFirst_same, Hfind by (intros; apply isNode_withChildren).
      cbn [fmap option_fmap option_map]. rewrite children_withChildren. by apply IH.
    + rewrite find_snoc, Hfind, isNode_new_folder. cbn [children]. by apply IH.
Qed.

Lemma hasFile_addParts_other f cp ps qs level :
  qs <> ps -> hasFile qs (addParts f cp ps level) = hasFile qs level.
Proof.
  revert cp qs level. induction ps as [|part rest IH]; intros cp qs level Hne; [done|].
  destruct qs as [|x qrest]; [done|].
  destruct rest as [|r rest], qrest as [|q qrest].
  - rewrite addParts_file, !hasFile_file.
    destruct (find (isNode part file) level); [done|].
    rewrite find_snoc. destruct (find (isNode x file) level); [done|].
    unfold isNode; simpl.
    destruct (String.eqb_spec part x); [congruence|done].
  - rewrite addParts_file, !hasFile_folder.
    destruct (find (isNode part file) level); [done|].
    rewrite find_snoc. destruct (find (isNode x folder) level); [done|].
    unfold isNode; simpl. by rewrite andb_false_r.
  - rewrite addParts_folder, !hasFile_file.
    destruct (find (isNode part folder) level).
    + rewrite find_updateFirst_other; [done| |intros; apply isNode_withChildren].
      intros n. by apply isNode_other.
    + rewrite find_snoc. destruct (find (isNode x file) level); [done|].
      unfold isNode; simpl. by rewrite andb_false_r.
  - rewrite addParts_folder, !hasFile_folder.
    destruct (decide (x = part)) as [->|Hx].
    + assert (q :: qrest <> r :: rest) as Hne' by congruence.
      destruct (find (isNode part folder) level) as [node|] eqn:Hfind.
      * rewrite find_updateFirst_same, Hfind by (intros; apply isNode_withChildren).
        cbn [fmap option_fmap option_map]. rewrite children_withChildren. by apply IH.
      * rewrite find_snoc, Hfind, isNode_new_folder. cbn [children].
        rewrite IH by done. apply hasFile_nil.
    + destruct (find (isNode part folder) level) as [node|] eqn:Hfind.
      * rewrite find_updateFirst_other; [done| |intros; apply isNode_withChildren].
        intros n. apply isNode_other. congruence.
      * rewrite find_snoc. destruct (find (isNode x folder) level); [done|].
        unfold isNode; simpl.
        destruct (String.eqb_spec part x); [congruence|done].
Qed.

(** A record whose segments lead to no file node yet adds one file node,
    carrying the record's id, and leaves every other file node in place. *)
Lemma addParts_absent f cp ps level :
  ps <> [] -> hasFile ps level = false ->
  collect fileIdOf (addParts f cp ps level) ≡ₚ
  collect fileIdOf level ++ [Some (StoredFile.id f)].
Proof.
  revert cp level. induction ps as [|part rest IH]; intros cp level Hne; [done|].
  destruct rest as [|r rest].
  - rewrite hasFile_file, addParts_file.
    destruct (find _ level); [done|]. intros ?.
    by rewrite collect_app, collect_cons.
  - rewrite hasFile_folder, addParts_folder.
    destruct (find _ level) as [node|] eqn:Hfind.
    + intros Hrest.
      destruct (find_Some_split _
        (fun node => withChildren node
           (addParts f (joinPath cp part) (r :: rest) (children node))) _ _ Hfind)
        as (l1 & l2 & -> & ->).
      rewrite collect_withChildren by (by intros; destruct node).
      rewrite IH by done.
      rewrite collect_app, collect_cons, <-!app_assoc.
      do 3 f_equiv. apply Permutation_app_comm.
    + intros _. rewrite collect_app, collect_cons. cbn [children].
      rewrite IH by (done || apply hasFile_nil).
      by rewrite !collect_nil, !app_nil_r.
Qed.

(** The names of the nodes after an insertion: the old ones and the
    record's segments. *)
Lemma addParts_names f cp ps level x :
  x ∈ collect (fun n => [name n]) (addParts f cp ps level) <->
  x ∈ collect (fun n => [name n]) level \/ x ∈ ps.
Proof.
  revert cp level. induction ps as [|part rest IH]; intros cp level.
  { simpl. rewrite elem_of_nil. tauto. }
  destruct rest as [|r rest].
  - clear IH. rewrite addParts_file.
    destruct (find _ level) as [node|] eqn:Hfind.
    + rewrite list_elem_of_singleton. split; [tauto|]. intros [?| ->]; [done|].
      apply find_some in Hfind as [Hin [<- _]%isNode_inv].
      unfold collect. apply elem_of_flat_map. exists node. split; [|set_solver].
      unfold allNodes. apply elem_of_flat_map. exists node.
      split; [by apply list_elem_of_In|]. destruct node; set_solver.
    + rewrite collect_app, collect_cons. simpl. set_solver.
  - rewrite addParts_folder.
    destruct (find _ level) as [node|] eqn:Hfind.
    + destruct (find_Some_split _
        (fun node => withChildren node
           (addParts f (joinPath cp part) (r :: rest) (children node))) _ _ Hfind)
        as (l1 & l2 & -> & ->).
      apply find_Some_true, isNode_inv in Hfind as [Hname _].
      rewrite collect_withChildren by (by intros; destruct node).
      rewrite collect_app, collect_cons. rewrite !elem_of_app, IH.
      rewrite (elem_of_cons (r :: rest)), !list_elem_of_singleton. subst part.
      tauto.
    + rewrite collect_app, collect_cons. cbn [children name].
      rewrite !elem_of_app, IH, collect_nil.
      rewrite (elem_of_cons (r :: rest)), list_elem_of_singleton, !elem_of_nil.
      tauto.
Qed.

Section SortKeeps.
Context `{Collator} {B : Type} (g : t -> list B).
Hypothesis g_sortNode : forall n, g (sortNode n) = g n.

(** The final sort moves nodes; it neither adds, drops nor alters them. *)
Lemma collect_sortNodes forest : collect g (sortNodes forest) ≡ₚ collect g forest.
Proof.
  assert (forall l,
    Forall (fun n => collect g (sortNodes (children n)) ≡ₚ collect g (children n)) l ->
    collect g (sortNodes l) ≡ₚ collect g l) as Hlist.
  { intros l Hl. rewrite (collect_Permutation g _ _ (sortNodes_Permutation l)).
    induction Hl as [|n l Hn _ IH]; [done|].
    simpl. rewrite !collect_cons, g_sortNode, sortNode_children.
    by rewrite Hn, IH. }
  apply Hlist, Forall_forall. intros n _.
  induction n as [n IH] using tree_ind'. by apply Hlist.
Qed.

End SortKeeps.

(** *** Inserting a sequence of records *)

Lemma split_nonempty sep s : split sep s <> [].
Proof.
  destruct s as [|c s]; simpl; [done|].
  destruct (Ascii.eqb c sep); [done|]. by destruct (split sep s).
Qed.

Lemma parts_nonempty f : parts f <> [].
Proof. apply split_nonempty. Qed.

Lemma fold_insertFile_fileIds fs forest seen :
  (forall qs, hasFile qs forest = true <-> qs ∈ seen) ->
  collect fileIdOf (fold_left insertFile fs forest) ≡ₚ
  collect fileIdOf forest ++
  map (fun f => Some (StoredFile.id f)) (firstOfEachPath seen fs).
Proof.
  revert forest seen. induction fs as [|f fs IH]; intros forest seen Hseen; simpl.
  { by rewrite app_nil_r. }
  unfold insertFile at 2. destruct (decide (parts f ∈ seen)) as [Hin|Hin].
  - rewrite addParts_present by (by apply Hseen). by apply IH.
  - rewrite (IH _ (parts f :: seen)).
    + rewrite addParts_absent.
      * by rewrite <-app_assoc.
      * apply parts_nonempty.
      * destruct (hasFile (parts f) forest) eqn:Hhas; [|done].
        by apply Hseen in Hhas.
    + intros qs. rewrite elem_of_cons. destruct (decide (qs = parts f)) as [->|Hne].
      * rewrite hasFile_addParts_same by apply parts_nonempty. tauto.
      * rewrite hasFile_addParts_other by done. rewrite Hseen. tauto.
Qed.

Lemma fold_insertFile_names fs forest x :
  x ∈ collect (fun n => [name n]) (fold_left insertFile fs forest) <->
  x ∈ collect (fun n => [name n]) forest \/ exists f, f ∈ fs /\ x ∈ parts f.
Proof.
  revert forest. induction fs as [|f fs IH]; intros forest; simpl.
  { split; [tauto|]. intros [?|(f & Hf & _)]; [done|]. by apply elem_of_nil in Hf. }
  rewrite IH. unfold insertFile at 1. rewrite addParts_names. split.
  - intros [[?|?]|(g & Hg & ?)]; [tauto| |].
    + right. exists f. split; [left|done].
    + right. exists g. split; [by right|done].
  - intros [?|(g & Hg & ?)]; [tauto|].
    apply elem_of_cons in Hg as [->|Hg]; [tauto|]. right. by exists g.
Qed.

Lemma firstOfEachPath_subseteq seen fs f :
  f ∈ firstOfEachPath seen fs -> f ∈ fs.
Proof.
  revert seen. induction fs as [|g fs IH]; intros seen; simpl; [done|].
  destruct (decide (parts g ∈ seen)).
  - intros ?%IH. by right.
  - intros [->|?%IH]%elem_of_cons; [left|by right].
Qed.

Lemma firstOfEachPath_length seen fs :
  length (firstOfEachPath seen fs) =
  base.size (list_to_set (map parts fs) ∖ list_to_set seen : gset (list string)).
Proof.
  revert seen. induction fs as [|f fs IH]; intros seen; simpl.
  { by rewrite difference_disjoint_L, size_empty by set_solver. }
  destruct (decide (parts f ∈ seen)) as [Hin|Hin].
  - rewrite IH. f_equal. clear IH. set_solver.
  - simpl. rewrite IH, list_to_set_cons. clear IH.
    replace (({[parts f]} ∪ list_to_set (map parts fs)) ∖ list_to_set seen
             : gset (list string))
      with ({[parts f]} ∪
            (list_to_set (map parts fs) ∖ ({[parts f]} ∪ list_to_set seen))
            : gset (list string)).
    + rewrite (size_union {[parts f]}) by set_solver. by rewrite size_singleton.
    + apply set_eq. intros qs. destruct (decide (qs = parts f)); set_solver.
Qed.

Lemma firstOfEachPath_NoDup seen fs :
  NoDup (map parts fs) -> (forall f, f ∈ fs -> parts f ∉ seen) ->
  firstOfEachPath seen fs = fs.
Proof.
  revert seen. induction fs as [|f fs IH]; intros seen Hnd Hseen; simpl; [done|].
  simpl in Hnd. apply NoDup_cons in Hnd as [Hf Hnd].
  destruct (decide (parts f ∈ seen)) as [Hin|_].
  { by destruct (Hseen f); [left|]. }
  f_equal. apply IH; [done|].
  intros g Hg [Heq|?]%elem_of_cons.
  - apply Hf. rewrite <-Heq. by apply list_elem_of_fmap_2.
  - by apply (Hseen g); [right|].
Qed.

End SidebarFacts.

(** ** Two concrete collations *)

Module CodeUnit.

Lemma compare_refl (a : string) : String.compare a a = Eq.
Proof.
  pose proof (String.compare_antisym a a) as Hanti.
  by destruct (String.compare a a).
Qed.

Lemma compare_trans (a b c : string) :
  String.compare a b <> Gt -> String.compare b c <> Gt -> String.compare a c <> Gt.
Proof.
  revert b c. induction a as [|x a IH]; intros [|y b] [|z c]; simpl; try congruence.
  unfold Ascii.compare.
  destruct (N.compare_spec (N_of_ascii x) (N_of_ascii y)),
           (N.compare_spec (N_of_ascii y) (N_of_ascii z)),
           (N.compare_spec (N_of_ascii x) (N_of_ascii z));
    try congruence; try lia; eauto.
Qed.

(** The case-sensitive lexicographic order: strings are compared character
    by character, by code point (the order of [String.compare] on the
    encodings).  It is one comparison a host could provide; the examples
    whose outcome does not depend on the collation are evaluated with it. *)
Definition collator : Collator := {|
  localeCompare := String.compare;
  localeCompare_antisym := fun a b => String.compare_antisym b a;
  localeCompare_trans := compare_trans
|}.

End CodeUnit.

Module Locale.

(** The lower-case form of an ASCII letter. *)
Definition lower (c : ascii) : ascii :=
  let n := nat_of_ascii c in
  if (65 <=? n)%nat && (n <=? 90)%nat then ascii_of_nat (n + 32) else c.

Fixpoint fold (s : string) : string :=
  match s with
  | EmptyString => EmptyString
  | String c s' => String (lower c) (fold s')
  end.

(** The comparison [localeCompare] makes in the browsers and in Node, on
    names written in ASCII letters: the letters are compared without regard
    to case first, and between two names that differ in case only the one in
    lower case comes first (["a".localeCompare("B")] and
    ["a".localeCompare("A")] are negative, ["B".localeCompare("a")] is
    positive). *)
Definition compare (a b : string) : comparison :=
  match String.compare (fold a) (fold b) with
  | Eq => String.compare b a
  | c => c
  end.

Lemma locale_antisym (a b : string) : compare b a = CompOpp (compare a b).
Proof.
  unfold compare. rewrite (String.compare_antisym (fold b) (fold a)).
  destruct (String.compare (fold a) (fold b)); simpl; try done.
  apply String.compare_antisym.
Qed.

Lemma locale_trans (a b c : string) :
  compare a b <> Gt -> compare b c <> Gt -> compare a c <> Gt.
Proof.
  unfold compare. intros Hab Hbc.
  assert (String.compare (fold a) (fold b) <> Gt) as Hab1
    by (destruct (String.compare (fold a) (fold b)); congruence).
  assert (String.compare (fold b) (fold c) <> Gt) as Hbc1
    by (destruct (String.compare (fold b) (fold c)); congruence).
  pose proof (CodeUnit.compare_trans _ _ _ Hab1 Hbc1) as Hac1.
  destruct (String.compare (fold a) (fold c)) eqn:Hac; [|done|done].
  apply String.compare_eq_iff in Hac.
  assert (String.compare (fold a) (fold b) = Eq) as Eab.
  { destruct (String.compare (fold a) (fold b)) eqn:E; [done| |done].
    rewrite <-Hac, String.compare_antisym, E in Hbc1. by destruct Hbc1. }
  rewrite Eab in Hab. apply String.compare_eq_iff in Eab.
  rewrite <-Eab, Hac, CodeUnit.compare_refl in Hbc.
  apply (CodeUnit.compare_trans c b a); done.
Qed.

Definition collator : Collator := {|
  localeCompare := compare;
  localeCompare_antisym := locale_antisym;
  localeCompare_trans := locale_trans
|}.

End Locale.

(** ** The tree projector: what [treeData] guarantees *)

Module SidebarSpec.
Import Js TreeNode Sidebar SortFacts ListFacts SidebarFacts.

(** A stored PDF with the given id and path. *)
Definition pdf (id path : string) : StoredFile.t :=
  StoredFile.Build id path "application/pdf" 1024 [] 0 path.

Section WithCollator.
Context `{Collator}.

Lemma fileIdOf_sortNode n : fileIdOf (sortNode n) = fileIdOf n.
Proof. by destruct n. Qed.

Lemma treeData_fileIds files :
  map fileId (fileNodes (treeData files)) ≡ₚ
  map (fun f => Some (StoredFile.id f)) (firstOfEachPath [] (sortedFiles files)).
Proof.
  unfold treeData, unsortedTree.
  rewrite fileIds_collect, (collect_sortNodes _ fileIdOf_sortNode).
  rewrite (fold_insertFile_fileIds _ [] []); [done|].
  intros qs. rewrite hasFile_nil, elem_of_nil. split; [done|tauto].
Qed.

Lemma sortedFiles_Permutation files : sortedFiles files ≡ₚ files.
Proof. apply sortBy_Permutation. Qed.

(** The records are inserted in the order of their paths: [sortedFiles] is a
    rearrangement of the input in which no record stands before one with a
    smaller path. *)
Theorem sortedFiles_sorted (files : list StoredFile.t) :
  sortedFiles files ≡ₚ files
  /\ StronglySorted
       (fun a b => localeCompare (StoredFile.path a) (StoredFile.path b) <> Gt)
       (sortedFiles files).
Proof.
  split; [apply sortedFiles_Permutation|].
  apply (sortBy_StronglySorted comparePaths comparePaths_antisym comparePaths_trans).
Qed.

(** C1 (amended).  The forest has as many file nodes as the records have
    distinct paths (as the projector reads them: one leading slash removed,
    split on "/"); the file nodes carry the ids of the records that come
    first, one per path, in the path-sorted order, so every file node
    carries the id of one input record; and when no two records share a
    path, the file nodes carry exactly the ids of the records, one node per
    record. *)
Theorem treeData_file_nodes (files : list StoredFile.t) :
  length (fileNodes (treeData files)) =
    base.size (list_to_set (map parts files) : gset (list string))
  /\ map fileId (fileNodes (treeData files)) ≡ₚ
     map (fun f => Some (StoredFile.id f)) (firstOfEachPath [] (sortedFiles files))
  /\ (forall n, n ∈ fileNodes (treeData files) ->
        exists f, f ∈ files /\ fileId n = Some (StoredFile.id f))
  /\ (NoDup (map parts files) ->
        map fileId (fileNodes (treeData files)) ≡ₚ
        map (fun f => Some (StoredFile.id f)) files).
Proof.
  pose proof (treeData_fileIds files) as Hids.
  pose proof (sortedFiles_Permutation files) as Hsorted.
  split; [|split; [exact Hids|split]].
  - rewrite <-(length_map fileId), Hids, length_map, firstOfEachPath_length.
    f_equal. rewrite Hsorted. set_solver.
  - intros n Hn.
    assert (fileId n ∈ map fileId (fileNodes (treeData files))) as Hin
      by (by apply list_elem_of_fmap_2).
    rewrite Hids in Hin. apply list_elem_of_fmap in Hin as (f & -> & Hf).
    exists f. split; [|done].
    apply firstOfEachPath_subseteq in Hf. by rewrite Hsorted in Hf.
  - intros Hnd. rewrite Hids, firstOfEachPath_NoDup.
    + by rewrite Hsorted.
    + by rewrite Hsorted.
    + intros f _. apply not_elem_of_nil.
Qed.

(** C3 (amended).  Reordering the input does not change the forest, provided
    any two records whose paths [localeCompare] reports as equal are one and
    the same record. *)
Theorem treeData_reorder (files files' : list StoredFile.t) :
  files ≡ₚ files' ->
  (forall a b, a ∈ files -> b ∈ files ->
     localeCompare (StoredFile.path a) (StoredFile.path b) = Eq -> a = b) ->
  treeData files' = treeData files.
Proof.
  intros Hperm Hties. unfold treeData, unsortedTree, sortedFiles.
  f_equal. f_equal. symmetry.
  apply (sortBy_unique comparePaths comparePaths_antisym comparePaths_trans);
    [done|]. exact Hties.
Qed.

Lemma treeData_node_names files x :
  x ∈ map name (allNodes (treeData files)) <->
  exists f, f ∈ files /\ x ∈ parts f.
Proof.
  unfold treeData, unsortedTree.
  rewrite names_collect, (collect_sortNodes (fun n => [name n])) by (by intros []).
  rewrite fold_insertFile_names, collect_nil, elem_of_nil.
  split.
  - intros [[]|(f & Hf & Hx)]. exists f. by rewrite <-sortedFiles_Permutation.
  - intros (f & Hf & Hx). right. exists f. by rewrite sortedFiles_Permutation.
Qed.

(** C4 (amended).  The projector removes one leading slash and nothing else:
    the names of the nodes are exactly the segments of the records' paths
    after that removal.  So the forest has no node with an empty name when
    no such segment is empty. *)
Theorem treeData_names_are_segments (files : list StoredFile.t) :
  (forall f p, StoredFile.path f = String "/" p -> parts f = split "/" p)
  /\ (forall x, x ∈ map name (allNodes (treeData files)) <->
                exists f, f ∈ files /\ x ∈ parts f)
  /\ ((forall f, f ∈ files -> "" ∉ parts f) ->
      forall n, n ∈ allNodes (treeData files) -> name n <> "").
Proof.
  split; [|split].
  - intros f p Hp. unfold parts. by rewrite Hp.
  - apply treeData_node_names.
  - intros Hsegs n Hn Hname.
    assert ("" ∈ map name (allNodes (treeData files))) as Hin.
    { rewrite <-Hname. by apply list_elem_of_fmap_2. }
    apply treeData_node_names in Hin as (f & Hf & Hx). by apply (Hsegs f).
Qed.

(** C5 (amended).  Among the roots and among the children of every node,
    folders stand before files, and nodes of one kind stand in the order of
    [localeCompare] on their names, whatever comparison the host provides
    under that name. *)
Theorem treeData_levels_sorted (files : list StoredFile.t) :
  Forall (StronglySorted foldersFirstByName) (levels (treeData files)).
Proof.
  unfold treeData. generalize (unsortedTree files). intros forest.
  apply levels_sortNodes_sorted.
Qed.

End WithCollator.

(** *** Examples, evaluated with the case-sensitive collation *)

Definition a_pdf : StoredFile.t := pdf "1" "a.pdf".
Definition docs_b : StoredFile.t := pdf "2" "Docs/b.pdf".
Definition docs_sub_c : StoredFile.t := pdf "3" "Docs/Sub/c.pdf".
Definition docs2_d : StoredFile.t := pdf "4" "Docs2/d.pdf".
Definition x_first : StoredFile.t := pdf "first" "x.pdf".
Definition x_second : StoredFile.t := pdf "second" "x.pdf".
Definition doubled_slash : StoredFile.t := pdf "5" "Docs//b.pdf".

(** The scenario of the spec: folders [Docs], [Docs2], then [a.pdf]; [Docs]
    holds the folder [Sub] and then the file [b.pdf]. *)
Example treeData_scenario :
  map (fun n => (name n, type n, map name (children n)))
      (treeData (H:=CodeUnit.collator) [a_pdf; docs_b; docs_sub_c; docs2_d]) =
  [("Docs", folder, ["Sub"; "b.pdf"]); ("Docs2", folder, ["d.pdf"]);
   ("a.pdf", file, [])].
Proof. reflexivity. Qed.

(** C1 as stated fails: two records with the same path give one file node,
    which carries the id of the first; the second record has no node. *)
Lemma treeData_collapses_same_path :
  map fileId (fileNodes (treeData (H:=CodeUnit.collator) [x_first; x_second])) =
  [Some "first"].
Proof. reflexivity. Qed.

Lemma treeData_file_nodes_witness :
  map fileId (fileNodes (treeData (H:=CodeUnit.collator) [a_pdf; docs_b; docs_sub_c])) ≡ₚ
  [Some "1"; Some "2"; Some "3"].
Proof.
  apply (proj2 (proj2 (proj2 (treeData_file_nodes (H:=CodeUnit.collator)
                                [a_pdf; docs_b; docs_sub_c])))).
  apply (bool_decide_unpack _). vm_compute. exact I.
Defined.

(** C3 as stated fails: with two records of one path, the node carries the
    id of whichever comes first in the input. *)
Lemma treeData_order_dependent :
  [x_first; x_second] ≡ₚ [x_second; x_first]
  /\ map fileId (treeData (H:=CodeUnit.collator) [x_first; x_second]) = [Some "first"]
  /\ map fileId (treeData (H:=CodeUnit.collator) [x_second; x_first]) = [Some "second"]
  /\ treeData (H:=CodeUnit.collator) [x_second; x_first] <>
     treeData (H:=CodeUnit.collator) [x_first; x_second].
Proof.
  split; [apply perm_swap|]. split; [reflexivity|]. split; [reflexivity|].
  intros Heq. apply (f_equal (map fileId)) in Heq. discriminate Heq.
Qed.

Lemma treeData_reorder_witness :
  treeData (H:=CodeUnit.collator) [docs_sub_c; a_pdf; docs_b] =
  treeData (H:=CodeUnit.collator) [a_pdf; docs_b; docs_sub_c].
Proof.
  apply (treeData_reorder (H:=CodeUnit.collator)).
  - apply Permutation_sym, (Permutation_cons_append [a_pdf; docs_b] docs_sub_c).
  - intros a b Ha Hb Hab. apply String.compare_eq_iff in Hab.
    repeat (apply elem_of_cons in Ha as [->|Ha]);
      repeat (apply elem_of_cons in Hb as [->|Hb]);
      try reflexivity; try discriminate Hab;
      try (by apply elem_of_nil in Ha); by apply elem_of_nil in Hb.
Defined.

(** C4 as stated fails: a doubled slash is not collapsed and leaves a folder
    with the empty name. *)
Lemma treeData_keeps_empty_segment :
  map name (allNodes (treeData (H:=CodeUnit.collator) [doubled_slash])) =
  ["Docs"; ""; "b.pdf"].
Proof. reflexivity. Qed.

(** C5 as stated fails: the names are not compared case-sensitively.  With
    the comparison the hosts make, in which letters are compared without
    regard to case first, [a.pdf] stands before [B.pdf]; in case-sensitive
    lexicographic order [B.pdf] comes before [a.pdf]. *)
Lemma treeData_not_case_sensitive :
  map name (treeData (H:=Locale.collator) [pdf "1" "B.pdf"; pdf "2" "a.pdf"])
  = ["a.pdf"; "B.pdf"]
  /\ String.compare "B.pdf" "a.pdf" = Lt.
Proof. split; reflexivity. Qed.

Lemma treeData_names_witness :
  forallb (fun n => negb (String.eqb (name n) ""))
    (allNodes (treeData (H:=CodeUnit.collator) [pdf "6" "/Docs/b.pdf"])) = true.
Proof.
  apply forallb_forall. intros n Hn. apply negb_true_iff, String.eqb_neq.
  apply (proj2 (proj2 (treeData_names_are_segments (H:=CodeUnit.collator)
                         [pdf "6" "/Docs/b.pdf"]))).
  - intros f ->%list_elem_of_singleton. vm_compute.
    intros Hin. repeat (apply elem_of_cons in Hin as [Hin|Hin]; [discriminate Hin|]).
    by apply elem_of_nil in Hin.
  - by apply list_elem_of_In.
Defined.

End SidebarSpec.

(** ** A logic for effects *)

Module EffectFacts.
Import Effect.

Section Rules.
Context {St : Type}.
Implicit Types P E : St -> Prop.

Lemma triple_ret {A} P E (a : A) : triple P (ret a) (fun b s => P s /\ b = a) E.
Proof. by intros s Hs. Qed.

Lemma triple_throw {A} P (Q : A -> St -> Prop) message :
  triple P (throw message) Q P.
Proof. by intros s Hs. Qed.

Lemma triple_gets {A} P E (f : St -> A) :
  triple P (gets f) (fun a s => P s /\ a = f s) E.
Proof. by intros s Hs. Qed.

Lemma triple_modify P (Q : unit -> St -> Prop) E (f : St -> St) :
  (forall s, P s -> Q tt (f s)) -> triple P (modify f) Q E.
Proof. intros Hf s Hs. by apply Hf. Qed.

Lemma triple_await {A} P (p : Completion A) : triple P (await p) (fun _ => P) P.
Proof. intros s Hs. unfold await. by destruct p. Qed.

Lemma triple_bind {A B} P (Q : A -> St -> Prop) (R : B -> St -> Prop) E
    (c : M St A) (k : A -> M St B) :
  triple P c Q E -> (forall a, triple (Q a) (k a) R E) ->
  triple P (bind c k) R E.
Proof.
  intros Hc Hk s Hs. unfold bind. specialize (Hc s Hs).
  destruct (c s) as [[a|msg] s']; [by apply Hk|done].
Qed.

Lemma triple_tryCatch {A} P (Q : A -> St -> Prop) E E'
    (body : M St A) (handler : string -> M St A) :
  triple P body Q E' -> (forall message, triple E' (handler message) Q E) ->
  triple P (tryCatch body handler) Q E.
Proof.
  intros Hb Hh s Hs. unfold tryCatch. specialize (Hb s Hs).
  destruct (body s) as [[a|msg] s']; [done|by apply Hh].
Qed.

Lemma triple_forOf {A} P E (xs : list A) (body : A -> M St unit) :
  (forall x, triple P (body x) (fun _ => P) E) ->
  triple P (forOf xs body) (fun _ => P) E.
Proof.
  intros Hbody. induction xs as [|x xs IH]; simpl.
  - by intros s Hs.
  - eapply triple_bind; [apply Hbody|]. intros u. apply IH.
Qed.

Lemma triple_weaken {A} P P' (Q Q' : A -> St -> Prop) E E' (c : M St A) :
  triple P' c Q' E' ->
  (forall s, P s -> P' s) -> (forall a s, Q' a s -> Q a s) ->
  (forall s, E' s -> E s) ->
  triple P c Q E.
Proof.
  intros Hc HP HQ HE s Hs. specialize (Hc s (HP s Hs)).
  destruct (c s) as [[a|msg] s']; auto.
Qed.

End Rules.

(** A computation on a component, seen from the whole state. *)
Lemma triple_zoom {St W A} (get : St -> W) (set : W -> St -> St)
    (P : St -> Prop) (Q : A -> St -> Prop) (E : St -> Prop)
    (Pw : W -> Prop) (Qw : A -> W -> Prop) (Ew : W -> Prop) (c : M W A) :
  triple Pw c Qw Ew ->
  (forall s, P s -> Pw (get s)) ->
  (forall s a w, P s -> Qw a w -> Q a (set w s)) ->
  (forall s w, P s -> Ew w -> E (set w s)) ->
  triple P (zoom get set c) Q E.
Proof.
  intros Hc Hget HQ HE s Hs. unfold zoom. specialize (Hc (get s) (Hget s Hs)).
  destruct (c (get s)) as [[a|msg] w]; eauto.
Qed.

(** *** Computations that cannot reject *)

Lemma resolves_ret {St A} (a : A) : resolves (ret (St:=St) a).
Proof. by intros s _. Qed.

Lemma resolves_gets {St A} (f : St -> A) : resolves (gets f).
Proof. by intros s _. Qed.

Lemma resolves_modify {St} (f : St -> St) : resolves (modify f).
Proof. by intros s _. Qed.

Lemma resolves_bind {St A B} (c : M St A) (k : A -> M St B) :
  resolves c -> (forall a, resolves (k a)) -> resolves (bind c k).
Proof. intros Hc Hk. eapply triple_bind; [exact Hc|]. intros a. apply Hk. Qed.

(** A [try] whose handler cannot reject cannot reject. *)
Lemma resolves_tryCatch {St A} (body : M St A) (handler : string -> M St A) :
  (forall message, resolves (handler message)) -> resolves (tryCatch body handler).
Proof.
  intros Hh. eapply (triple_tryCatch _ _ _ (fun _ => True)); [|exact Hh].
  intros s _. by destruct (body s) as [[a|msg] s'].
Qed.

Lemma resolves_forOf {St A} (xs : list A) (body : A -> M St unit) :
  (forall x, resolves (body x)) -> resolves (forOf xs body).
Proof.
  intros Hbody. induction xs as [|x xs IH]; simpl; [apply resolves_ret|].
  apply resolves_bind; [apply Hbody|]. intros _. exact IH.
Qed.

Lemma resolves_zoom {St W A} (get : St -> W) (set : W -> St -> St) (c : M W A) :
  resolves c -> resolves (zoom get set c).
Proof. intros Hc. eapply triple_zoom; [exact Hc|..]; done. Qed.

Lemma resolves_completion {St} (c : M St unit) s :
  resolves c -> completion c s = Return tt.
Proof.
  intros Hc. unfold completion. specialize (Hc s I).
  by destruct (c s) as [[[]|msg] s'].
Qed.

(** What an invariant gives about the state a computation leaves. *)
Lemma triple_exec {St A} (P : St -> Prop) (c : M St A) s :
  triple P c (fun _ => P) P -> P s -> P (exec c s).
Proof.
  intros Hc Hs. unfold exec. specialize (Hc s Hs).
  by destruct (c s) as [[a|msg] s'].
Qed.

End EffectFacts.

(** ** The storage service *)

Module DbFacts.
Import Effect EffectFacts Db.

Lemma accepts_0 w r rs :
  accepts w (r :: rs) -> fault w (length (log w)) r = false.
Proof.
  intros Hacc. rewrite <-(Nat.add_0_r (length (log w))). by apply Hacc.
Qed.

Lemma accepts_1 w r0 r rs :
  accepts w (r0 :: r :: rs) -> fault w (length (log w ++ [r0])) r = false.
Proof. intros Hacc. rewrite length_app. by apply Hacc. Qed.

Lemma accepts_2 w r0 r1 r rs :
  accepts w (r0 :: r1 :: r :: rs) ->
  fault w (length ((log w ++ [r0]) ++ [r1])) r = false.
Proof.
  intros Hacc. rewrite !length_app, <-Nat.add_assoc. by apply Hacc.
Qed.

(** [deleteFile] when the host accepts its three requests. *)
Lemma deleteFile_accepted w id :
  accepts w [Open; Delete STORE_FILES id; Delete STORE_HISTORY id] ->
  deleteFile id w =
  (Return tt,
   World (Stores (base.delete id (files (contents w)))
                 (base.delete id (history (contents w))))
         (fault w)
         (log w ++ [Open; Delete STORE_FILES id; Delete STORE_HISTORY id])
         (host w) (calls w ++ [DeleteFile id])).
Proof.
  intros Hacc.
  pose proof (accepts_0 _ _ _ Hacc) as H0.
  pose proof (accepts_1 _ _ _ _ Hacc) as H1.
  pose proof (accepts_2 _ _ _ _ _ Hacc) as H2.
  unfold deleteFile, initDB, delete, called, bind, modify, send, setContents.
  simpl. rewrite H0. simpl. rewrite H1. simpl. rewrite H2. simpl.
  by rewrite <-!app_assoc.
Qed.

(** Whatever the host answers, [deleteFile] records its call once and leaves
    the host's answers as they were. *)
Lemma deleteFile_calls w id :
  calls (exec (deleteFile id) w) = calls w ++ [DeleteFile id]
  /\ fault (exec (deleteFile id) w) = fault w.
Proof.
  unfold exec, deleteFile, initDB, delete, called, bind, modify, send. simpl.
  repeat (match goal with
          | |- context [if ?b then _ else _] => destruct b; simpl
          end); done.
Qed.

(** [updateHistory] when the host accepts its two requests. *)
Lemma updateHistory_accepted w fileId page total :
  accepts w [Open; Put STORE_HISTORY fileId] ->
  updateHistory fileId page total w =
  (Return tt,
   World (Stores (files (contents w))
                 (<[fileId := ReadingHistory.Build fileId page
                                 (Host.clock (host w) (Host.ticks (host w))) total]>
                    (history (contents w))))
         (fault w)
         (log w ++ [Open; Put STORE_HISTORY fileId])
         (Host.Build (Host.clock (host w)) (S (Host.ticks (host w)))
                     (Host.uuid (host w)) (Host.drawn (host w))
                     (Host.console (host w)))
         (calls w ++ [UpdateHistory fileId page])).
Proof.
  intros Hacc.
  pose proof (accepts_0 _ _ _ Hacc) as H0.
  pose proof (accepts_1 _ _ _ _ Hacc) as H1.
  unfold updateHistory, initDB, putHistory, called, onHost, zoom, bind, modify,
    send, setContents, setHost, Host.dateNow.
  simpl. rewrite H0. simpl. rewrite H1. simpl.
  by rewrite <-!app_assoc.
Qed.

(** *** Records stay under their keys *)

Lemma send_keyed r : triple keyedWorld (send r) (fun _ => keyedWorld) keyedWorld.
Proof. intros w Hw. unfold send. by destruct (fault w _ r). Qed.

Lemma called_keyed c : triple keyedWorld (called c) (fun _ => keyedWorld) keyedWorld.
Proof. by intros w Hw. Qed.

Lemma onHost_keyed {A} (c : M Host.t A) :
  triple keyedWorld (onHost c) (fun _ => keyedWorld) keyedWorld.
Proof.
  intros w Hw. unfold onHost, zoom. by destruct (c (host w)) as [[a|msg] h].
Qed.

Lemma initDB_keyed : triple keyedWorld initDB (fun _ => keyedWorld) keyedWorld.
Proof. apply send_keyed. Qed.

Lemma putFile_keyed r : triple keyedWorld (putFile r) (fun _ => keyedWorld) keyedWorld.
Proof.
  eapply triple_bind; [apply send_keyed|]. intros ?.
  apply triple_modify. intros w [Hf Hh]. split; simpl; [|done].
  intros k r' [[<- <-]|[_ Hk]]%lookup_insert_Some; [done|by apply Hf].
Qed.

Lemma putHistory_keyed r :
  triple keyedWorld (putHistory r) (fun _ => keyedWorld) keyedWorld.
Proof.
  eapply triple_bind; [apply send_keyed|]. intros ?.
  apply triple_modify. intros w [Hf Hh]. split; simpl; [done|].
  intros k r' [[<- <-]|[_ Hk]]%lookup_insert_Some; [done|by apply Hh].
Qed.

Lemma delete_keyed st key :
  triple keyedWorld (delete st key) (fun _ => keyedWorld) keyedWorld.
Proof.
  eapply triple_bind; [apply send_keyed|]. intros ?.
  apply triple_modify. intros w [Hf Hh].
  destruct st; split; simpl; try done.
  - intros k r' [_ Hk]%lookup_delete_Some. by apply Hf.
  - intros k r' [_ Hk]%lookup_delete_Some. by apply Hh.
Qed.

Lemma deleteFile_keyed id :
  triple keyedWorld (deleteFile id) (fun _ => keyedWorld) keyedWorld.
Proof.
  eapply triple_bind; [apply called_keyed|]. intros ?.
  eapply triple_bind; [apply initDB_keyed|]. intros ?.
  eapply triple_bind; [apply delete_keyed|]. intros ?. apply delete_keyed.
Qed.

Lemma updateHistory_keyed fileId page total :
  triple keyedWorld (updateHistory fileId page total) (fun _ => keyedWorld) keyedWorld.
Proof.
  eapply triple_bind; [apply called_keyed|]. intros ?.
  eapply triple_bind; [apply initDB_keyed|]. intros ?.
  eapply triple_bind; [apply onHost_keyed|]. intros now. apply putHistory_keyed.
Qed.

Lemma saveFile_keyed file path :
  triple keyedWorld (saveFile file path) (fun _ => keyedWorld) keyedWorld.
Proof.
  eapply triple_bind; [apply called_keyed|]. intros ?.
  eapply triple_bind; [apply initDB_keyed|]. intros ?.
  eapply triple_bind; [apply triple_await|]. intros data.
  eapply triple_bind; [apply onHost_keyed|]. intros id.
  eapply triple_bind; [apply onHost_keyed|]. intros now.
  eapply triple_bind; [apply putFile_keyed|]. intros ?.
  eapply triple_weaken; [apply triple_ret|done|by intros ? ? []|done].
Qed.

Lemma getFiles_keyed :
  triple keyedWorld getFiles (fun _ => keyedWorld) keyedWorld.
Proof.
  eapply triple_bind; [apply called_keyed|]. intros ?.
  eapply triple_bind; [apply initDB_keyed|]. intros ?.
  eapply triple_bind; [apply send_keyed|]. intros ?.
  eapply triple_weaken; [apply triple_gets|done|by intros ? ? []|done].
Qed.

(** The records of a keyed history store have pairwise distinct [fileId]s. *)
Lemma byIndex_history_NoDup index key (m : gmap string ReadingHistory.t) :
  (forall k r, m !! k = Some r -> ReadingHistory.fileId r = k) ->
  NoDup (map ReadingHistory.fileId (byIndex index key m)).
Proof.
  intros Hkeyed. unfold byIndex.
  rewrite (SortFacts.sortBy_Permutation _ (map snd (map_to_list m))).
  assert (map ReadingHistory.fileId (map snd (map_to_list m)) =
          map fst (map_to_list m)) as ->.
  { rewrite map_map. apply map_ext_in. intros [k r] Hin. simpl.
    apply Hkeyed. by apply elem_of_map_to_list, list_elem_of_In. }
  apply NoDup_fst_map_to_list.
Qed.

Lemma getHistory_keyed :
  triple keyedWorld getHistory
    (fun l w => keyedWorld w /\ NoDup (map ReadingHistory.fileId l)) keyedWorld.
Proof.
  eapply triple_bind; [apply called_keyed|]. intros ?.
  eapply triple_bind; [apply initDB_keyed|]. intros ?.
  eapply triple_bind; [apply send_keyed|]. intros ?.
  eapply triple_weaken; [apply triple_gets|done| |done].
  intros l w [Hw ->]. split; [done|]. apply byIndex_history_NoDup, Hw.
Qed.

End DbFacts.

(** ** The application shell *)

Module AppFacts.
Import Effect EffectFacts.

Lemma startsWith_spec s p :
  Js.startsWith s p = true <-> exists rest, s = p +:+ rest.
Proof.
  unfold Js.startsWith. revert s. induction p as [|a p IH]; intros [|b s]; simpl.
  { split; [intros _; by exists ""|done]. }
  { split; [intros _; by exists (String b s)|done]. }
  { split; [done|]. by intros (rest & ?). }
  destruct (ascii_dec a b) as [->|Hne].
  - rewrite IH. split; intros (rest & Hrest); exists rest;
      [by rewrite Hrest|by injection Hrest].
  - split; [done|]. intros (rest & Hrest). injection Hrest. congruence.
Qed.

Lemma append_assoc (a b c : string) : (a +:+ b) +:+ c = a +:+ b +:+ c.
Proof.
  induction a as [|x a IH]; [done|].
  change (String x ((a +:+ b) +:+ c) = String x (a +:+ b +:+ c)). by f_equal.
Qed.

Lemma elem_of_List_filter {A} (p : A -> bool) l x :
  x ∈ List.filter p l <-> x ∈ l /\ p x = true.
Proof. by rewrite !list_elem_of_In, filter_In. Qed.

(** [handleFileDelete] when the host accepts the three requests. *)
Lemma handleFileDelete_accepted active id s :
  Db.accepts (App.world s)
    [Db.Open; Db.Delete Db.STORE_FILES id; Db.Delete Db.STORE_HISTORY id] ->
  App.handleFileDelete active id s =
  (Return tt,
   App.State (exec (Db.deleteFile id) (App.world s)) (App.innerWidth s)
     (List.filter (fun f => negb (String.eqb (StoredFile.id f) id)) (App.files s))
     (List.filter (fun h => negb (String.eqb (ReadingHistory.fileId h) id))
                  (App.history s))
     (if decide (active = Some id) then None else App.activeFileId s)
     (App.isSidebarOpen s)).
Proof.
  intros Hacc.
  unfold App.handleFileDelete, tryCatch, bind, App.db, zoom, exec.
  rewrite (DbFacts.deleteFile_accepted _ _ Hacc). simpl.
  by destruct (decide (active = Some id)).
Qed.

(** Whatever the host answers, [handleFileDelete] returns normally, calls
    [deleteFile] once and leaves the host's answers as they were. *)
Lemma handleFileDelete_calls active id s :
  completion (App.handleFileDelete active id) s = Return tt
  /\ Db.calls (App.world (exec (App.handleFileDelete active id) s)) =
     Db.calls (App.world s) ++ [Db.DeleteFile id]
  /\ Db.fault (App.world (exec (App.handleFileDelete active id) s)) =
     Db.fault (App.world s).
Proof.
  destruct (DbFacts.deleteFile_calls (App.world s) id) as [Hcalls Hfault].
  unfold completion, exec in *.
  unfold App.handleFileDelete, tryCatch, bind, App.db, zoom.
  destruct (Db.deleteFile id (App.world s)) as [[[]|msg] w'] eqn:Hdel; simpl in *.
  - by destruct (decide (active = Some id)).
  - done.
Qed.

(** *** No handler of the shell rejects *)

Lemma consoleError_resolves label : Effect.resolves (App.consoleError label).
Proof. do 2 apply EffectFacts.resolves_zoom. apply EffectFacts.resolves_modify. Qed.

Lemma saveEach_resolves label pathOf selected newFiles :
  Effect.resolves (App.saveEach label pathOf selected newFiles).
Proof.
  revert newFiles. induction selected as [|file selected IH]; intros newFiles; simpl.
  { apply EffectFacts.resolves_ret. }
  apply EffectFacts.resolves_bind; [|intros ?; apply IH].
  apply EffectFacts.resolves_tryCatch. intros ?.
  apply EffectFacts.resolves_bind; [apply consoleError_resolves|].
  intros ?. apply EffectFacts.resolves_ret.
Qed.

Lemma handleFileDelete_resolves active id :
  Effect.resolves (App.handleFileDelete active id).
Proof. apply EffectFacts.resolves_tryCatch. intros ?. apply consoleError_resolves. Qed.

Lemma handle_resolves e : Effect.resolves (App.handle e).
Proof.
  intros s _. unfold App.handle.
  destruct e as [|width|selected|selected|id|id|folderPath|page total].
  - by apply (EffectFacts.resolves_tryCatch _ _
                (fun _ => consoleError_resolves _)).
  - apply EffectFacts.resolves_bind; [apply EffectFacts.resolves_modify| |done].
    intros ?. destruct (768 <=? width)%Z; apply EffectFacts.resolves_modify.
  - destruct selected; [by apply EffectFacts.resolves_ret|].
    apply EffectFacts.resolves_bind; [apply saveEach_resolves| |done].
    intros ?. apply EffectFacts.resolves_modify.
  - destruct selected; [by apply EffectFacts.resolves_ret|].
    apply EffectFacts.resolves_bind; [apply saveEach_resolves| |done].
    intros ?. apply EffectFacts.resolves_modify.
  - apply EffectFacts.resolves_bind; [apply EffectFacts.resolves_modify| |done].
    intros ?. apply EffectFacts.resolves_bind; [apply EffectFacts.resolves_gets|].
    intros width. destruct (width <? 768)%Z;
      [apply EffectFacts.resolves_modify|apply EffectFacts.resolves_ret].
  - by apply handleFileDelete_resolves.
  - apply EffectFacts.resolves_forOf; [|done].
    intros file. apply handleFileDelete_resolves.
  - unfold App.handlePageChange.
    destruct (App.activeFileId s) as [fileId|]; [|by apply EffectFacts.resolves_ret].
    destruct (negb (Js.truthy fileId)); [by apply EffectFacts.resolves_ret|].
    by apply (EffectFacts.resolves_tryCatch _ _
                (fun _ => consoleError_resolves _)).
Qed.

(** *** Deleting the files of a folder *)

Lemma exec_bind {St A B} (c : M St A) (k : A -> M St B) s a :
  completion c s = Return a ->
  exec (bind c k) s = exec (k a) (exec c s)
  /\ completion (bind c k) s = completion (k a) (exec c s).
Proof.
  unfold completion, exec, bind. destruct (c s) as [r s']. simpl.
  by intros ->.
Qed.

Lemma bind_throw {St A B} (c : M St A) (k : A -> M St B) s message s' :
  c s = (Throw message, s') -> bind c k s = (Throw message, s').
Proof. unfold bind. by intros ->. Qed.

(** The loop of [handleFolderDelete] runs to its end whatever the host
    answers, and calls [deleteFile] for each file in turn. *)
Lemma deleteEach_calls active fs s :
  let loop := forOf fs (fun file => App.handleFileDelete active (StoredFile.id file)) in
  completion loop s = Return tt
  /\ Db.calls (App.world (exec loop s)) =
     Db.calls (App.world s) ++ map (fun f => Db.DeleteFile (StoredFile.id f)) fs
  /\ Db.fault (App.world (exec loop s)) = Db.fault (App.world s).
Proof.
  simpl. revert s. induction fs as [|f fs IH]; intros s; simpl.
  { by rewrite app_nil_r. }
  destruct (handleFileDelete_calls active (StoredFile.id f) s) as (Hret & Hcalls & Hfault).
  destruct (exec_bind _
    (fun _ => forOf fs (fun file => App.handleFileDelete active (StoredFile.id file)))
    s tt Hret) as [-> ->].
  destruct (IH (exec (App.handleFileDelete active (StoredFile.id f)) s))
    as (Hret' & Hcalls' & Hfault').
  rewrite Hret', Hcalls', Hfault', Hcalls, Hfault, <-app_assoc. done.
Qed.

Lemma handleFileDelete_gone active id s :
  App.cooperative (App.world s) id ->
  App.gone id (exec (App.handleFileDelete active id) s).
Proof.
  intros [Hopen Hdel]. unfold exec.
  assert (Db.accepts (App.world s)
    [Db.Open; Db.Delete Db.STORE_FILES id; Db.Delete Db.STORE_HISTORY id]) as Hacc.
  { intros [|[|[|i]]] r [= <-]; auto. }
  rewrite (handleFileDelete_accepted _ _ _ Hacc). unfold exec.
  rewrite (DbFacts.deleteFile_accepted _ _ Hacc). simpl.
  split; [|split; apply lookup_delete_eq].
  intros f [_ Hf]%elem_of_List_filter.
  by apply negb_true_iff, String.eqb_neq in Hf.
Qed.

Lemma deleteFile_removes_only id :
  forall k,
  triple (fun w => Db.files (Db.contents w) !! k = None
                   /\ Db.history (Db.contents w) !! k = None)
    (Db.deleteFile id)
    (fun _ w => Db.files (Db.contents w) !! k = None
                /\ Db.history (Db.contents w) !! k = None)
    (fun w => Db.files (Db.contents w) !! k = None
              /\ Db.history (Db.contents w) !! k = None).
Proof.
  intros k w [Hf Hh].
  unfold Db.deleteFile, Db.initDB, Db.delete, Db.called, bind, modify, Db.send. simpl.
  repeat (match goal with
          | |- context [if ?b then _ else _] => destruct b; simpl
          end); rewrite ?lookup_delete_None; auto.
Qed.

Lemma handleFileDelete_keeps_gone active id k :
  triple (App.gone k) (App.handleFileDelete active id) (fun _ => App.gone k) (App.gone k).
Proof.
  eapply triple_tryCatch.
  - eapply triple_bind.
    + eapply (triple_zoom _ _ (App.gone k) (fun _ => App.gone k) (App.gone k));
        [apply (deleteFile_removes_only id k)|..].
      * by intros s (_ & ? & ?).
      * intros s a w (Hm & _ & _) [Hf Hh]. by repeat split.
      * intros s w (Hm & _ & _) [Hf Hh]. by repeat split.
    + intros ?. eapply triple_bind.
      * apply triple_modify. intros s (Hm & Hf & Hh).
        instantiate (1 := fun _ => App.gone k). repeat split; [|done..].
        intros f [Hin _]%elem_of_List_filter. by apply Hm.
      * intros ?. eapply triple_bind.
        -- apply triple_modify. intros s Hs.
           instantiate (1 := fun _ => App.gone k). exact Hs.
        -- intros ?. destruct (decide (active = Some id)).
           ++ apply triple_modify. by intros s Hs.
           ++ by intros s Hs.
  - intros ?. eapply (triple_zoom _ _ (App.gone k) (fun _ => App.gone k) (App.gone k)).
    + apply (triple_zoom _ _
               (fun w => Db.files (Db.contents w) !! k = None
                         /\ Db.history (Db.contents w) !! k = None)
               (fun _ w => Db.files (Db.contents w) !! k = None
                           /\ Db.history (Db.contents w) !! k = None)
               (fun w => Db.files (Db.contents w) !! k = None
                         /\ Db.history (Db.contents w) !! k = None)
               (fun _ => True) (fun _ _ => True) (fun _ => True)
               (Host.consoleError "Error deleting file")); try done.
    + by intros s (_ & ? & ?).
    + intros s a w (Hm & _ & _) [Hf Hh]. by repeat split.
    + intros s w (Hm & _ & _) [Hf Hh]. by repeat split.
Qed.

(** Each matched file whose own requests the host accepts is deleted,
    whatever happens to the requests about the other files. *)
Lemma deleteEach_independent active fs f s :
  f ∈ fs -> App.cooperative (App.world s) (StoredFile.id f) ->
  App.gone (StoredFile.id f)
    (exec (forOf fs (fun file => App.handleFileDelete active (StoredFile.id file))) s).
Proof.
  revert s. induction fs as [|g fs IH]; intros s Hin Hcoop.
  { by apply elem_of_nil in Hin. }
  simpl.
  destruct (handleFileDelete_calls active (StoredFile.id g) s) as (Hret & _ & Hfault).
  destruct (exec_bind _
    (fun _ => forOf fs (fun file => App.handleFileDelete active (StoredFile.id file)))
    s tt Hret) as [-> _].
  apply elem_of_cons in Hin as [->|Hin].
  - apply triple_exec.
    + apply triple_forOf. intros file. apply handleFileDelete_keeps_gone.
    + by apply handleFileDelete_gone.
  - apply IH; [done|]. unfold App.cooperative. by rewrite Hfault.
Qed.

(** The loop of the second shell's [handleFolderDelete] awaits [deleteFile]
    outside any [try].  When the host opens the database, accepts the
    deletions of the files [deleted] and rejects a deletion of [f], the loop
    rejects at [f]: [deleteFile] was called for [deleted] and [f] only, the
    records of [deleted] are gone, and no record of another file is
    touched. *)
Lemma deleteEach_aborts (deleted : list StoredFile.t) (f : StoredFile.t)
    (rest : list StoredFile.t) (st : Db.store) (s : App.state) :
  (forall n, Db.fault (App.world s) n Db.Open = false) ->
  (forall g n st', g ∈ deleted ->
     Db.fault (App.world s) n (Db.Delete st' (StoredFile.id g)) = false) ->
  (forall n, Db.fault (App.world s) n (Db.Delete st (StoredFile.id f)) = true) ->
  exists w',
    forOf (deleted ++ f :: rest) (fun file => App.db (Db.deleteFile (StoredFile.id file))) s
    = (Throw "request failed", App.setWorld w' s)
    /\ Db.calls w' =
       Db.calls (App.world s)
       ++ map (fun g => Db.DeleteFile (StoredFile.id g)) (deleted ++ [f])
    /\ Db.host w' = Db.host (App.world s)
    /\ (forall g, g ∈ deleted ->
          Db.files (Db.contents w') !! StoredFile.id g = None
          /\ Db.history (Db.contents w') !! StoredFile.id g = None)
    /\ (forall k, Db.files (Db.contents (App.world s)) !! k = None ->
          Db.files (Db.contents w') !! k = None)
    /\ (forall k, Db.history (Db.contents (App.world s)) !! k = None ->
          Db.history (Db.contents w') !! k = None)
    /\ (forall k, k ∉ map StoredFile.id (deleted ++ [f]) ->
          Db.files (Db.contents w') !! k = Db.files (Db.contents (App.world s)) !! k
          /\ Db.history (Db.contents w') !! k =
             Db.history (Db.contents (App.world s)) !! k).
Proof.
  revert s. induction deleted as [|g deleted IH]; intros s Hopen Hacc Hrej.
  - cbn [app forOf]. unfold bind at 1.
    unfold App.db, zoom, Db.deleteFile, Db.initDB, Db.delete, Db.called, Db.send, bind,
      modify, Db.setContents.
    simpl. rewrite Hopen. simpl.
    assert (forall k, k ∉ map StoredFile.id [f] -> k <> StoredFile.id f) as Hne.
    { intros k Hk ->. apply Hk. left. }
    destruct st.
    + rewrite Hrej. eexists. split; [reflexivity|]. simpl.
      split; [done|]. split; [done|]. split; [by intros g ?%elem_of_nil|].
      by repeat split.
    + destruct (Db.fault _ _ (Db.Delete Db.STORE_FILES _)) eqn:Hfiles.
      * eexists. split; [reflexivity|]. simpl.
        split; [done|]. split; [done|]. split; [by intros g ?%elem_of_nil|].
        by repeat split.
      * simpl. rewrite Hrej.
        eexists. split; [reflexivity|]. simpl.
        split; [done|]. split; [done|]. split; [by intros g ?%elem_of_nil|].
        split; [|split; [done|]].
        -- intros k Hk. by apply lookup_delete_None; right.
        -- intros k Hk%Hne. by rewrite lookup_delete_ne.
  - cbn [app forOf]. unfold bind at 1.
    assert (Db.accepts (App.world s)
      [Db.Open; Db.Delete Db.STORE_FILES (StoredFile.id g);
       Db.Delete Db.STORE_HISTORY (StoredFile.id g)]) as Hg.
    { intros [|[|[|i]]] r [= <-]; [apply Hopen|apply Hacc; left..]. }
    unfold App.db at 1, zoom at 1.
    rewrite (DbFacts.deleteFile_accepted _ _ Hg).
    match goal with
    | |- context [App.setWorld ?w1 s] =>
        destruct (IH (App.setWorld w1 s)) as (w' & Hrun & Hcalls & Hhost & Hgone & Hf & Hh & Hframe)
    end.
    { exact Hopen. }
    { intros g' n st' Hg'. apply Hacc. by right. }
    { exact Hrej. }
    exists w'. cbn [App.world App.setWorld Db.calls Db.host Db.contents Db.files Db.history]
      in Hcalls, Hhost, Hf, Hh, Hframe.
    split; [by rewrite Hrun|].
    split; [by rewrite Hcalls, <-app_assoc|]. split; [done|].
    split; [|split; [|split]].
    + intros g' [->|Hg']%elem_of_cons; [|by apply Hgone].
      split; [apply Hf|apply Hh]; apply lookup_delete_eq.
    + intros k Hk. apply Hf. by apply lookup_delete_None; right.
    + intros k Hk. apply Hh. by apply lookup_delete_None; right.
    + intros k Hk. cbn [app map] in Hk. apply not_elem_of_cons in Hk as [Hkg Hk].
      destruct (Hframe k Hk) as [-> ->]. by rewrite !lookup_delete_ne.
Qed.

(** *** The in-memory progress list *)

Lemma findIndex_Some {A} (p : A -> bool) l i :
  Js.findIndex p l = Some i ->
  exists l1 x l2, l = l1 ++ x :: l2 /\ length l1 = i /\ p x = true
                  /\ Forall (fun y => p y = false) l1.
Proof.
  revert i. induction l as [|y l IH]; intros i; simpl; [done|].
  destruct (p y) eqn:Hy.
  - intros [= <-]. by exists [], y, l.
  - destruct (Js.findIndex p l) as [j|]; [|done]. simpl. intros [= <-].
    destruct (IH j eq_refl) as (l1 & x & l2 & -> & <- & Hx & Hl1).
    exists (y :: l1), x, l2. repeat split; try done. by constructor.
Qed.

Lemma findIndex_None {A} (p : A -> bool) l :
  Js.findIndex p l = None -> Forall (fun y => p y = false) l.
Proof.
  induction l as [|y l IH]; simpl; [by constructor|].
  destruct (p y) eqn:Hy; [done|].
  destruct (Js.findIndex p l); [done|]. intros _. constructor; auto.
Qed.

Lemma filter_none {A} (p : A -> bool) l :
  Forall (fun y => p y = false) l -> List.filter p l = [].
Proof. induction 1 as [|y l Hy _ IH]; simpl; [done|]. by rewrite Hy. Qed.

Lemma existsb_none {A} (p : A -> bool) l :
  Forall (fun y => p y = false) l -> existsb p l = false.
Proof. induction 1 as [|y l Hy _ IH]; simpl; [done|]. by rewrite Hy. Qed.

Lemma sublist_List_filter {A} (p : A -> bool) l : sublist (List.filter p l) l.
Proof.
  induction l as [|x l IH]; simpl; [done|].
  destruct (p x); by constructor.
Qed.

Lemma filter_keeps_NoDup {A B} (f : A -> B) (p : A -> bool) l :
  NoDup (map f l) -> NoDup (map f (List.filter p l)).
Proof.
  intros Hnd. eapply sublist_NoDup; [exact Hnd|].
  apply (fmap_sublist f), sublist_List_filter.
Qed.

(** Elements of a list with pairwise distinct ids, around one of them. *)
Lemma NoDup_fileId_split l1 (x : ReadingHistory.t) l2 :
  NoDup (map ReadingHistory.fileId (l1 ++ x :: l2)) ->
  Forall (fun y => App.hasFileId (ReadingHistory.fileId x) y = false) l1
  /\ Forall (fun y => App.hasFileId (ReadingHistory.fileId x) y = false) l2.
Proof.
  rewrite map_app. simpl. intros (Hl1 & Hdisj & [Hx Hl2]%NoDup_cons)%NoDup_app.
  split; apply Forall_forall; intros y Hy; unfold App.hasFileId;
    apply String.eqb_neq; intros Heq.
  - apply (Hdisj (ReadingHistory.fileId y)); [by apply list_elem_of_fmap_2|].
    rewrite Heq. left.
  - apply Hx. rewrite <-Heq. by apply list_elem_of_fmap_2.
Qed.

(** The updater of [handlePageChange] keeps one record per file. *)
Lemma upsert_spec newItem prev :
  NoDup (map ReadingHistory.fileId prev) ->
  NoDup (map ReadingHistory.fileId (App.upsert newItem prev))
  /\ List.filter (App.hasFileId (ReadingHistory.fileId newItem)) (App.upsert newItem prev)
     = [newItem]
  /\ length (App.upsert newItem prev) =
     (if existsb (App.hasFileId (ReadingHistory.fileId newItem)) prev
      then length prev else S (length prev))
  /\ (forall h, ReadingHistory.fileId h <> ReadingHistory.fileId newItem ->
        h ∈ App.upsert newItem prev <-> h ∈ prev).
Proof.
  intros Hnd. unfold App.upsert. fold (App.hasFileId (ReadingHistory.fileId newItem)).
  assert (App.hasFileId (ReadingHistory.fileId newItem) newItem = true) as Hnew
    by apply String.eqb_refl.
  destruct (Js.findIndex _ prev) as [i|] eqn:Hfind.
  - apply findIndex_Some in Hfind as (l1 & x & l2 & -> & <- & Hx & _).
    apply String.eqb_eq in Hx.
    replace (<[length l1 := newItem]> (l1 ++ x :: l2)) with (l1 ++ newItem :: l2)
      by (by rewrite insert_app_r_alt, Nat.sub_diag by lia).
    destruct (NoDup_fileId_split _ _ _ Hnd) as [Hl1 Hl2]. rewrite Hx in Hl1, Hl2.
    repeat split.
    + rewrite map_app in *. simpl in *. by rewrite <-Hx.
    + rewrite List.filter_app. simpl. by rewrite Hnew, !filter_none.
    + rewrite existsb_app. simpl. unfold App.hasFileId at 2. rewrite Hx, String.eqb_refl.
      rewrite orb_true_r, !length_app. done.
    + rewrite !elem_of_app, !elem_of_cons. intros [?|[->|?]]; [tauto|done|tauto].
    + rewrite !elem_of_app, !elem_of_cons. intros [?|[->|?]]; [tauto| |tauto].
      by rewrite Hx in H.
  - apply findIndex_None in Hfind.
    repeat split.
    + rewrite map_app. apply NoDup_app. split; [done|].
      split; [|apply NoDup_singleton].
      intros k Hk ->%list_elem_of_singleton.
      apply list_elem_of_fmap in Hk as (y & Hy & Hin).
      rewrite Forall_forall in Hfind. specialize (Hfind y Hin).
      apply String.eqb_neq in Hfind. congruence.
    + rewrite List.filter_app. simpl. by rewrite Hnew, filter_none.
    + rewrite existsb_none by done. rewrite length_app. simpl. lia.
    + rewrite elem_of_app, list_elem_of_singleton. intros [?| ->]; [done|].
      congruence.
    + intros ?. apply elem_of_app. by left.
Qed.

(** [handlePageChange] when the host accepts the two requests. *)
Lemma handlePageChange_accepted fileId page total s :
  Js.truthy fileId = true ->
  Db.accepts (App.world s) [Db.Open; Db.Put Db.STORE_HISTORY fileId] ->
  exists now w',
    App.handlePageChange (Some fileId) page total s =
    (Return tt,
     App.State w' (App.innerWidth s) (App.files s)
       (App.upsert (ReadingHistory.Build fileId page now (Some total)) (App.history s))
       (App.activeFileId s) (App.isSidebarOpen s))
    /\ Db.history (Db.contents w') =
       <[fileId := ReadingHistory.Build fileId page
                     (Host.clock (Db.host (App.world s)) (Host.ticks (Db.host (App.world s))))
                     (Some total)]>
         (Db.history (Db.contents (App.world s)))
    /\ Db.files (Db.contents w') = Db.files (Db.contents (App.world s)).
Proof.
  intros Htruthy Hacc. unfold App.handlePageChange. rewrite Htruthy. simpl.
  unfold tryCatch, bind, App.db, zoom.
  rewrite (DbFacts.updateHistory_accepted _ _ _ _ Hacc). simpl.
  eexists _, _. split; [reflexivity|]. by split.
Qed.

(** *** Keeping one progress record per file *)

Lemma keeps_db {A} (c : M Db.world A) (R : A -> Prop) :
  triple Db.keyedWorld c (fun a w => Db.keyedWorld w /\ R a) Db.keyedWorld ->
  triple App.oneRecordPerFile (App.db c) (fun a s => App.oneRecordPerFile s /\ R a)
         App.oneRecordPerFile.
Proof.
  intros Hc. eapply triple_zoom; [exact Hc|..].
  - by intros s [Hk _].
  - intros s a w [_ Hn] [Hk Ha]. split; [split; [exact Hk|exact Hn]|exact Ha].
  - intros s w [_ Hn] Hk. split; [exact Hk|exact Hn].
Qed.

Lemma keeps_db_inv {A} (c : M Db.world A) :
  triple Db.keyedWorld c (fun _ => Db.keyedWorld) Db.keyedWorld ->
  triple App.oneRecordPerFile (App.db c) (fun _ => App.oneRecordPerFile) App.oneRecordPerFile.
Proof.
  intros Hc. eapply triple_zoom; [exact Hc|..].
  - by intros s [Hk _].
  - intros s a w [_ Hn] Hk. split; [exact Hk|exact Hn].
  - intros s w [_ Hn] Hk. split; [exact Hk|exact Hn].
Qed.

Lemma keeps_consoleError label :
  triple App.oneRecordPerFile (App.consoleError label) (fun _ => App.oneRecordPerFile)
         App.oneRecordPerFile.
Proof. apply keeps_db_inv, DbFacts.onHost_keyed. Qed.

Lemma keeps_setFiles P f :
  (forall s, P s -> App.oneRecordPerFile s) ->
  triple P (App.setFiles f) (fun _ => App.oneRecordPerFile) App.oneRecordPerFile.
Proof.
  intros HP. apply triple_modify. intros s Hs.
  destruct (HP s Hs) as [Hk Hn]. split; [exact Hk|exact Hn].
Qed.

Lemma keeps_setActiveFileId v :
  triple App.oneRecordPerFile (App.setActiveFileId v) (fun _ => App.oneRecordPerFile)
         App.oneRecordPerFile.
Proof. apply triple_modify. intros s [Hk Hn]. split; [exact Hk|exact Hn]. Qed.

Lemma keeps_setSidebarOpen v :
  triple App.oneRecordPerFile (App.setSidebarOpen v) (fun _ => App.oneRecordPerFile)
         App.oneRecordPerFile.
Proof. apply triple_modify. intros s [Hk Hn]. split; [exact Hk|exact Hn]. Qed.

Lemma keeps_setHistory P f :
  (forall s, P s -> Db.keyed (Db.contents (App.world s))
                    /\ NoDup (map ReadingHistory.fileId (f (App.history s)))) ->
  triple P (App.setHistory f) (fun _ => App.oneRecordPerFile) App.oneRecordPerFile.
Proof.
  intros HP. apply triple_modify. intros s Hs.
  destruct (HP s Hs) as [Hk Hn]. split; [exact Hk|exact Hn].
Qed.

Lemma keeps_ret {A} (a : A) :
  triple App.oneRecordPerFile (ret a) (fun _ => App.oneRecordPerFile) App.oneRecordPerFile.
Proof. by intros s Hs. Qed.

Lemma keeps_loadData :
  triple App.oneRecordPerFile App.loadData (fun _ => App.oneRecordPerFile) App.oneRecordPerFile.
Proof.
  eapply triple_tryCatch; [|intros; apply keeps_consoleError].
  eapply triple_bind; [apply keeps_db_inv, DbFacts.getFiles_keyed|]. intros loadedFiles.
  eapply triple_bind; [apply keeps_db, DbFacts.getHistory_keyed|]. intros loadedHistory.
  apply (triple_bind _
    (fun _ s => App.oneRecordPerFile s /\ NoDup (map ReadingHistory.fileId loadedHistory))).
  - apply triple_modify. intros s [[Hk Hn] Hl]. split; [split|]; assumption.
  - intros ?. apply keeps_setHistory. by intros s [[Hk _] Hn].
Qed.

Lemma keeps_handleResize width :
  triple App.oneRecordPerFile (App.handleResize width) (fun _ => App.oneRecordPerFile)
         App.oneRecordPerFile.
Proof.
  eapply triple_bind; [|intros ?; destruct (768 <=? width)%Z; apply keeps_setSidebarOpen].
  apply triple_modify. intros s [Hk Hn]. split; [exact Hk|exact Hn].
Qed.

Lemma keeps_saveEach label pathOf selected newFiles :
  triple App.oneRecordPerFile (App.saveEach label pathOf selected newFiles)
         (fun _ => App.oneRecordPerFile) App.oneRecordPerFile.
Proof.
  revert newFiles. induction selected as [|file selected IH]; intros newFiles; simpl.
  { apply keeps_ret. }
  eapply triple_bind; [|intros ?; apply IH].
  eapply triple_tryCatch.
  - eapply triple_bind; [apply keeps_db_inv, DbFacts.saveFile_keyed|].
    intros ?. apply keeps_ret.
  - intros ?. eapply triple_bind; [apply keeps_consoleError|].
    intros ?. apply keeps_ret.
Qed.

Lemma keeps_handleImport selected :
  triple App.oneRecordPerFile (App.handleImport selected) (fun _ => App.oneRecordPerFile)
         App.oneRecordPerFile.
Proof.
  destruct selected; [apply keeps_ret|].
  eapply triple_bind; [apply keeps_saveEach|]. intros ?. by apply keeps_setFiles.
Qed.

Lemma keeps_handleFolderImport selected :
  triple App.oneRecordPerFile (App.handleFolderImport selected)
         (fun _ => App.oneRecordPerFile) App.oneRecordPerFile.
Proof.
  destruct selected; [apply keeps_ret|].
  eapply triple_bind; [apply keeps_saveEach|]. intros ?. by apply keeps_setFiles.
Qed.

Lemma keeps_handleFileSelect id :
  triple App.oneRecordPerFile (App.handleFileSelect id) (fun _ => App.oneRecordPerFile)
         App.oneRecordPerFile.
Proof.
  eapply triple_bind; [apply keeps_setActiveFileId|]. intros ?.
  eapply triple_bind; [apply triple_gets|]. intros width.
  destruct (width <? 768)%Z.
  - apply triple_modify. intros s [[Hk Hn] _]. split; [exact Hk|exact Hn].
  - by intros s [Hs _].
Qed.

Lemma keeps_handleFileDelete active id :
  triple App.oneRecordPerFile (App.handleFileDelete active id)
         (fun _ => App.oneRecordPerFile) App.oneRecordPerFile.
Proof.
  eapply triple_tryCatch; [|intros; apply keeps_consoleError].
  eapply triple_bind; [apply keeps_db_inv, DbFacts.deleteFile_keyed|]. intros ?.
  eapply triple_bind; [by apply keeps_setFiles|]. intros ?.
  eapply triple_bind.
  - apply keeps_setHistory. intros s [Hk Hn]. split; [done|].
    by apply filter_keeps_NoDup.
  - intros ?. destruct (decide (active = Some id));
      [apply keeps_setActiveFileId|apply keeps_ret].
Qed.

Lemma keeps_handleFolderDelete files active folderPath :
  triple App.oneRecordPerFile (App.handleFolderDelete files active folderPath)
         (fun _ => App.oneRecordPerFile) App.oneRecordPerFile.
Proof. apply triple_forOf. intros file. apply keeps_handleFileDelete. Qed.

Lemma keeps_handlePageChange active page total :
  triple App.oneRecordPerFile (App.handlePageChange active page total)
         (fun _ => App.oneRecordPerFile) App.oneRecordPerFile.
Proof.
  unfold App.handlePageChange. destruct active as [fileId|]; [|apply keeps_ret].
  destruct (negb (Js.truthy fileId)); [apply keeps_ret|].
  eapply triple_tryCatch; [|intros; apply keeps_consoleError].
  eapply triple_bind; [apply keeps_db_inv, DbFacts.updateHistory_keyed|]. intros ?.
  eapply triple_bind; [apply keeps_db_inv, DbFacts.onHost_keyed|]. intros now.
  apply keeps_setHistory. intros s [Hk Hn]. split; [done|].
  by apply upsert_spec.
Qed.

Lemma keeps_handle e :
  triple App.oneRecordPerFile (App.handle e) (fun _ => App.oneRecordPerFile) App.oneRecordPerFile.
Proof.
  intros s Hs. unfold App.handle.
  destruct e;
    [ apply keeps_loadData | apply keeps_handleResize | apply keeps_handleImport
    | apply keeps_handleFolderImport | apply keeps_handleFileSelect
    | apply keeps_handleFileDelete | apply keeps_handleFolderDelete
    | apply keeps_handlePageChange ]; exact Hs.
Qed.

Lemma reachable_oneRecordPerFile s : App.reachable s -> App.oneRecordPerFile s.
Proof.
  induction 1 as [w width Hk|s e _ IH].
  - split; [done|]. simpl. constructor.
  - by apply triple_exec; [apply keeps_handle|].
Qed.

End AppFacts.

(** ** The shell: folder query, deletion and progress *)

Module AppSpec.
Import Effect AppFacts.

(** C2 (amended).  The folder query of the shell selects a file exactly when
    its path, with one leading slash removed, starts with the folder path
    followed by "/"; a file whose path is the folder path itself is not
    selected.  The query of the second shell selects a file exactly when its
    path is the folder path or starts with the folder path followed by "/". *)
Theorem filesToDelete_spec (files : list StoredFile.t) (folderPath : string)
    (f : StoredFile.t) :
  (f ∈ App.filesToDelete files folderPath <->
     f ∈ files /\
     exists rest, Sidebar.cleanPath (StoredFile.path f) = folderPath +:+ "/" +:+ rest)
  /\ (f ∈ AppWithChat.filesToDelete files folderPath <->
        f ∈ files /\
        (StoredFile.path f = folderPath \/
         exists rest, StoredFile.path f = folderPath +:+ "/" +:+ rest)).
Proof.
  split.
  - unfold App.filesToDelete. rewrite elem_of_List_filter, startsWith_spec.
    split; intros [Hin (rest & Hrest)]; (split; [done|]); exists rest.
    + by rewrite <-append_assoc.
    + by rewrite append_assoc.
  - unfold AppWithChat.filesToDelete.
    rewrite elem_of_List_filter, orb_true_iff, String.eqb_eq, startsWith_spec.
    split; (intros [Hin [Heq|(rest & Hrest)]]; (split; [done|])).
    + by left.
    + right. exists rest. by rewrite <-append_assoc.
    + by left.
    + right. exists rest. by rewrite append_assoc.
Qed.

(** The query on the paths of the spec's example. *)
Example filesToDelete_Foo :
  map StoredFile.path
    (App.filesToDelete
       [SidebarSpec.pdf "1" "Foobar/x.pdf"; SidebarSpec.pdf "2" "Foo/x.pdf";
        SidebarSpec.pdf "3" "Foo/Sub/y.pdf"] "Foo")
  = ["Foo/x.pdf"; "Foo/Sub/y.pdf"].
Proof. reflexivity. Qed.

(** C2 as stated fails on the shell: a file whose path is the folder path is
    not selected, and a file under the folder whose path has a leading slash
    is selected although its path neither equals the folder path nor starts
    with it. *)
Lemma filesToDelete_not_on_equal_path :
  App.filesToDelete [SidebarSpec.pdf "1" "Foo"] "Foo" = []
  /\ App.filesToDelete [SidebarSpec.pdf "2" "/Foo/x.pdf"] "Foo"
     = [SidebarSpec.pdf "2" "/Foo/x.pdf"].
Proof. split; reflexivity. Qed.

(** C7.  When the host accepts the requests of the deletion, deleting the
    file [x] removes the records with id [x] from the file list and leaves
    the others in place and in order; removes the progress of [x] from the
    progress list and from both stores and leaves every other record; and
    clears the selection exactly when [x] was selected. *)
Theorem handleFileDelete_spec (s : App.state) (x : string) :
  Db.accepts (App.world s)
    [Db.Open; Db.Delete Db.STORE_FILES x; Db.Delete Db.STORE_HISTORY x] ->
  let s' := exec (App.handle (App.FileDelete x)) s in
  App.files s' =
    List.filter (fun f => negb (String.eqb (StoredFile.id f) x)) (App.files s)
  /\ App.history s' =
       List.filter (fun h => negb (String.eqb (ReadingHistory.fileId h) x))
                   (App.history s)
  /\ App.activeFileId s' =
       (if decide (App.activeFileId s = Some x) then None else App.activeFileId s)
  /\ Db.files (Db.contents (App.world s')) =
       delete x (Db.files (Db.contents (App.world s)))
  /\ Db.history (Db.contents (App.world s')) =
       delete x (Db.history (Db.contents (App.world s))).
Proof.
  intros Hacc s'. subst s'. unfold exec, App.handle.
  rewrite (handleFileDelete_accepted _ _ _ Hacc). unfold exec.
  rewrite (DbFacts.deleteFile_accepted _ _ Hacc). simpl. done.
Qed.

(** C8 (amended).  In the shell, deleting a folder never rejects; it calls
    [deleteFile] once for every matched file, in order, whatever the host
    answers to any of the requests; and every matched file whose own
    requests the host accepts is gone afterwards (nothing is rolled back,
    nothing is skipped).  In the second shell the loop is not protected:
    when the host opens the database, accepts the deletions of the matched
    files [deleted] and rejects a deletion of the next matched file [f], the
    handler rejects at [f], and [deleteFile] has been called for [deleted]
    and [f] but for none of the files matched after [f]. *)
Theorem handleFolderDelete_attempts_every_file (s : App.state) (folderPath : string) :
  (let matched := App.filesToDelete (App.files s) folderPath in
   let s' := exec (App.handle (App.FolderDelete folderPath)) s in
   completion (App.handle (App.FolderDelete folderPath)) s = Return tt
   /\ Db.calls (App.world s') =
      Db.calls (App.world s) ++ map (fun f => Db.DeleteFile (StoredFile.id f)) matched
   /\ (forall f, f ∈ matched -> App.cooperative (App.world s) (StoredFile.id f) ->
         App.gone (StoredFile.id f) s'))
  /\ (forall (deleted : list StoredFile.t) (f : StoredFile.t)
             (rest : list StoredFile.t) (st : Db.store),
        AppWithChat.filesToDelete (App.files s) folderPath = deleted ++ f :: rest ->
        (forall n, Db.fault (App.world s) n Db.Open = false) ->
        (forall g n st', g ∈ deleted ->
           Db.fault (App.world s) n (Db.Delete st' (StoredFile.id g)) = false) ->
        (forall n, Db.fault (App.world s) n (Db.Delete st (StoredFile.id f)) = true) ->
        let handler :=
          AppWithChat.handleFolderDelete true (App.files s) (App.activeFileId s)
            folderPath in
        completion handler s = Throw "request failed"
        /\ Db.calls (App.world (exec handler s)) =
           Db.calls (App.world s)
           ++ map (fun g => Db.DeleteFile (StoredFile.id g)) (deleted ++ [f])).
Proof.
  split.
  - intros matched s'. subst matched s'. unfold App.handle, App.handleFolderDelete.
    destruct (deleteEach_calls (App.activeFileId s)
                (App.filesToDelete (App.files s) folderPath) s) as (Hret & Hcalls & _).
    split; [exact Hret|]. split; [exact Hcalls|].
    intros f Hf Hcoop. by apply deleteEach_independent.
  - intros deleted f rest st Hmatched Hopen Hacc Hrej handler. subst handler.
    destruct (deleteEach_aborts deleted f rest st s Hopen Hacc Hrej)
      as (w' & Hrun & Hcalls & _).
    unfold completion, exec, AppWithChat.handleFolderDelete. rewrite Hmatched.
    rewrite (bind_throw _ _ _ _ _ Hrun). simpl. by split.
Qed.

(** C6.  In every state the shell can reach, the progress list has no two
    records of one file.  When the host accepts the requests, a page change
    for the open file [fileId] leaves, in the store, one record under
    [fileId] with the new page and every other record as it was; and, in the
    progress list, exactly one record of [fileId], with the new page: the
    list grows by one if the file had no record and keeps its length if it
    had one. *)
Theorem one_progress_record_per_file (s : App.state) (fileId : string)
    (page total : Z) :
  App.reachable s ->
  App.activeFileId s = Some fileId -> Js.truthy fileId = true ->
  Db.accepts (App.world s) [Db.Open; Db.Put Db.STORE_HISTORY fileId] ->
  let s' := exec (App.handle (App.PageChange page total)) s in
  let stored := Db.history (Db.contents (App.world s')) in
  NoDup (map ReadingHistory.fileId (App.history s))
  /\ NoDup (map ReadingHistory.fileId (App.history s'))
  /\ (exists r, stored !! fileId = Some r
                /\ ReadingHistory.lastPage r = page
                /\ ReadingHistory.totalPages r = Some total)
  /\ (forall k, k <> fileId ->
        stored !! k = Db.history (Db.contents (App.world s)) !! k)
  /\ (exists r, List.filter (App.hasFileId fileId) (App.history s') = [r]
                /\ ReadingHistory.lastPage r = page
                /\ ReadingHistory.totalPages r = Some total)
  /\ length (App.history s') =
     (if existsb (App.hasFileId fileId) (App.history s)
      then length (App.history s) else S (length (App.history s)))
  /\ (forall h, ReadingHistory.fileId h <> fileId ->
        h ∈ App.history s' <-> h ∈ App.history s).
Proof.
  intros Hreach Hactive Htruthy Hacc s' stored.
  destruct (reachable_oneRecordPerFile s Hreach) as [_ Hnd].
  destruct (handlePageChange_accepted fileId page total s Htruthy Hacc)
    as (now & w' & Hrun & Hstored & _).
  assert (s' = App.State w' (App.innerWidth s) (App.files s)
            (App.upsert (ReadingHistory.Build fileId page now (Some total))
                        (App.history s))
            (App.activeFileId s) (App.isSidebarOpen s)) as Hs'.
  { subst s'. unfold exec, App.handle. rewrite Hactive, Hrun. simpl.
    by rewrite Hactive. }
  assert (stored = <[fileId := ReadingHistory.Build fileId page
                       (Host.clock (Db.host (App.world s))
                                   (Host.ticks (Db.host (App.world s))))
                       (Some total)]>
                     (Db.history (Db.contents (App.world s)))) as Hst.
  { subst stored. by rewrite Hs'. }
  destruct (upsert_spec (ReadingHistory.Build fileId page now (Some total))
              (App.history s) Hnd) as (Hnd' & Hone & Hlen & Hothers).
  rewrite Hs'. simpl in *.
  split; [exact Hnd|]. split; [exact Hnd'|]. split; [|split; [|split; [|split]]].
  - eexists. rewrite Hst, lookup_insert_eq. by repeat split.
  - intros k Hk. by rewrite Hst, lookup_insert_ne.
  - eexists. split; [exact Hone|]. by split.
  - exact Hlen.
  - exact Hothers.
Qed.

(** *** A run of the shell, for the examples *)

Definition host0 : Host.t :=
  Host.Build (fun n => N.of_nat n) 0
             (fun n => "uuid-" +:+ String (ascii_of_nat (48 + n)) "") 0 [].

(** An empty database whose host rejects the requests in [rejected]. *)
Definition world0 (rejected : Db.request -> bool) : Db.world :=
  Db.World (Db.Stores ∅ ∅) (fun _ r => rejected r) [] host0 [].

Definition noFault (r : Db.request) : bool := false.

(** The library of the spec's scenarios, as loaded. *)
Definition library (rejected : Db.request -> bool) : App.state :=
  App.State (world0 rejected) 1024
    [SidebarSpec.a_pdf; SidebarSpec.docs_b; SidebarSpec.docs_sub_c; SidebarSpec.docs2_d]
    [] (Some "2") true.

(** The scenario of the spec: deleting folder [Docs] removes [b.pdf] and
    [c.pdf] and leaves [a.pdf] and [d.pdf]. *)
Example handleFolderDelete_scenario :
  map StoredFile.path
    (App.files (exec (App.handle (App.FolderDelete "Docs")) (library noFault)))
  = ["a.pdf"; "Docs2/d.pdf"].
Proof. reflexivity. Qed.

Definition rejectsFile2 (r : Db.request) : bool :=
  match r with
  | Db.Delete Db.STORE_FILES "2" => true
  | _ => false
  end.

(** A failed deletion does not stop the loop: the deletion of file 3 is
    called and takes effect after the deletion of file 2 failed. *)
Example handleFolderDelete_continues :
  let s' := exec (App.handle (App.FolderDelete "Docs")) (library rejectsFile2) in
  Db.calls (App.world s') = [Db.DeleteFile "2"; Db.DeleteFile "3"]
  /\ map StoredFile.id (App.files s') = ["1"; "2"; "4"]
  /\ Host.console (Db.host (App.world s')) = ["Error deleting file"].
Proof. repeat split. Qed.

(** C8 as stated fails on the second shell, which awaits [deleteFile]
    outside any [try]: the folder [Docs] matches the files 2 and 3; the
    deletion of file 2 fails, and that ends the handler: the deletion of
    file 3 is not attempted and the file list is not updated. *)
Lemma second_shell_stops_at_failure :
  let s := library rejectsFile2 in
  let handler :=
    AppWithChat.handleFolderDelete true (App.files s) (App.activeFileId s) "Docs" in
  map StoredFile.id (AppWithChat.filesToDelete (App.files s) "Docs") = ["2"; "3"]
  /\ completion handler s = Throw "request failed"
  /\ Db.calls (App.world (exec handler s)) = [Db.DeleteFile "2"]
  /\ map StoredFile.id (App.files (exec handler s)) = ["1"; "2"; "3"; "4"].
Proof. repeat split. Qed.

Lemma handleFileDelete_witness :
  map StoredFile.id
    (App.files (exec (App.handle (App.FileDelete "2")) (library noFault)))
  = ["1"; "3"; "4"]
  /\ App.activeFileId (exec (App.handle (App.FileDelete "2")) (library noFault)) = None.
Proof.
  assert (Db.accepts (App.world (library noFault))
            [Db.Open; Db.Delete Db.STORE_FILES "2"; Db.Delete Db.STORE_HISTORY "2"])
    as Hacc by (intros i r _; reflexivity).
  destruct (handleFileDelete_spec (library noFault) "2" Hacc)
    as (Hfiles & _ & Hactive & _).
  split; [by rewrite Hfiles|by rewrite Hactive].
Defined.

Lemma handleFolderDelete_witness :
  App.gone "3" (exec (App.handle (App.FolderDelete "Docs")) (library rejectsFile2))
  /\ Db.calls (App.world
        (exec (AppWithChat.handleFolderDelete true (App.files (library rejectsFile2))
                 (Some "2") "Docs") (library rejectsFile2)))
     = [Db.DeleteFile "2"].
Proof.
  destruct (handleFolderDelete_attempts_every_file (library rejectsFile2) "Docs")
    as ((_ & _ & Hgone) & Hstops).
  split.
  - apply (Hgone SidebarSpec.docs_sub_c).
    + right. left.
    + split; [intros n|intros n []]; reflexivity.
  - apply (Hstops [] SidebarSpec.docs_b [SidebarSpec.docs_sub_c] Db.STORE_FILES).
    + reflexivity.
    + intros n. reflexivity.
    + intros g n st' Hg. by apply elem_of_nil in Hg.
    + intros n. reflexivity.
Defined.

(** No handler of the shell rejects: every failure of the storage service
    is caught where it is awaited. *)
Theorem shell_never_rejects (e : App.event) (s : App.state) :
  completion (App.handle e) s = Return tt.
Proof. apply EffectFacts.resolves_completion, handle_resolves. Qed.

(** In the second shell a folder deletion that fails half-way leaves the
    file list out of step with the database.  When the host opens the
    database, accepts the deletions of the matched files [deleted] and
    rejects a deletion of the next matched file [f], the handler rejects;
    the file list, the progress list and the selection are as before, so
    the files of [deleted] are still listed, while their records are gone
    from both stores; the records of the files other than [deleted] and [f]
    are untouched. *)
Theorem second_shell_stops (s : App.state) (folderPath : string)
    (deleted : list StoredFile.t) (f : StoredFile.t) (rest : list StoredFile.t)
    (st : Db.store) :
  AppWithChat.filesToDelete (App.files s) folderPath = deleted ++ f :: rest ->
  (forall n, Db.fault (App.world s) n Db.Open = false) ->
  (forall g n st', g ∈ deleted ->
     Db.fault (App.world s) n (Db.Delete st' (StoredFile.id g)) = false) ->
  (forall n, Db.fault (App.world s) n (Db.Delete st (StoredFile.id f)) = true) ->
  let handler :=
    AppWithChat.handleFolderDelete true (App.files s) (App.activeFileId s) folderPath in
  let s' := exec handler s in
  completion handler s = Throw "request failed"
  /\ App.files s' = App.files s
  /\ App.history s' = App.history s
  /\ App.activeFileId s' = App.activeFileId s
  /\ (forall g, g ∈ deleted ->
        g ∈ App.files s'
        /\ Db.files (Db.contents (App.world s')) !! StoredFile.id g = None
        /\ Db.history (Db.contents (App.world s')) !! StoredFile.id g = None)
  /\ (forall k, k ∉ map StoredFile.id (deleted ++ [f]) ->
        Db.files (Db.contents (App.world s')) !! k =
          Db.files (Db.contents (App.world s)) !! k
        /\ Db.history (Db.contents (App.world s')) !! k =
           Db.history (Db.contents (App.world s)) !! k).
Proof.
  intros Hmatched Hopen Hacc Hrej handler s'. subst handler s'.
  destruct (deleteEach_aborts deleted f rest st s Hopen Hacc Hrej)
    as (w' & Hrun & _ & _ & Hgone & _ & _ & Hframe).
  unfold completion, exec, AppWithChat.handleFolderDelete. rewrite Hmatched.
  rewrite (bind_throw _ _ _ _ _ Hrun). simpl.
  do 4 (split; [done|]). split; [|exact Hframe].
  intros g Hg. split; [|by apply Hgone].
  assert (g ∈ AppWithChat.filesToDelete (App.files s) folderPath) as Hin.
  { rewrite Hmatched. apply elem_of_app. by left. }
  unfold AppWithChat.filesToDelete in Hin. by apply elem_of_List_filter in Hin as [? _].
Qed.

(** The stored library of the scenarios: the four files are in the file
    store as well as in the list. *)
Definition storedLibrary (rejected : Db.request -> bool) : App.state :=
  App.State
    (Db.World
       (Db.Stores
          (list_to_map
             (map (fun f => (StoredFile.id f, f))
                  [SidebarSpec.a_pdf; SidebarSpec.docs_b; SidebarSpec.docs_sub_c;
                   SidebarSpec.docs2_d]))
          ∅)
       (fun _ r => rejected r) [] host0 [])
    1024
    [SidebarSpec.a_pdf; SidebarSpec.docs_b; SidebarSpec.docs_sub_c; SidebarSpec.docs2_d]
    [] (Some "2") true.

Definition rejectsFile3 (r : Db.request) : bool :=
  match r with
  | Db.Delete Db.STORE_FILES "3" => true
  | _ => false
  end.

Definition rejectsOpen (r : Db.request) : bool :=
  match r with
  | Db.Open => true
  | _ => false
  end.

Lemma second_shell_stops_witness :
  let s := storedLibrary rejectsFile3 in
  let s' :=
    exec (AppWithChat.handleFolderDelete true (App.files s) (App.activeFileId s) "Docs")
         s in
  SidebarSpec.docs_b ∈ App.files s'
  /\ Db.files (Db.contents (App.world s')) !! "2" = None
  /\ Db.history (Db.contents (App.world s')) !! "2" = None.
Proof.
  intros s s'.
  destruct (second_shell_stops s "Docs" [SidebarSpec.docs_b] SidebarSpec.docs_sub_c []
              Db.STORE_FILES) as (_ & _ & _ & _ & Hgone & _).
  - reflexivity.
  - intros n. reflexivity.
  - intros g n st' ->%list_elem_of_singleton. by destruct st'.
  - intros n. reflexivity.
  - apply (Hgone SidebarSpec.docs_b). left.
Defined.

(** The scenario of the spec: a first page change creates the record, a
    second one replaces it. *)
Example upsert_scenario :
  let s1 := App.run [App.FileSelect "2"; App.PageChange 3 10] (library noFault) in
  let s2 := App.run [App.PageChange 4 10] s1 in
  map (fun h => (ReadingHistory.fileId h, ReadingHistory.lastPage h)) (App.history s1)
    = [("2", 3%Z)]
  /\ map (fun h => (ReadingHistory.fileId h, ReadingHistory.lastPage h)) (App.history s2)
    = [("2", 4%Z)]
  /\ (ReadingHistory.lastPage <$> Db.history (Db.contents (App.world s2)) !! "2")
    = Some 4%Z.
Proof. repeat split. Qed.

Lemma one_progress_record_witness :
  let s1 :=
    exec (App.handle (App.PageChange 3 10))
      (exec (App.handle (App.FileSelect "2")) (App.initial (world0 noFault) 1024)) in
  let s2 := exec (App.handle (App.PageChange 4 10)) s1 in
  length (App.history s1) = 1 /\ length (App.history s2) = 1.
Proof.
  intros s1 s2.
  assert (App.reachable s1) as Hreach.
  { do 2 apply App.reachable_step. apply App.reachable_initial. by split. }
  assert (Db.accepts (App.world s1) [Db.Open; Db.Put Db.STORE_HISTORY "2"]) as Hacc
    by (intros i r _; reflexivity).
  destruct (one_progress_record_per_file s1 "2" 4 10 Hreach eq_refl eq_refl Hacc)
    as (_ & _ & _ & _ & _ & Hlen & _).
  split; [reflexivity|]. exact Hlen.
Defined.

End AppSpec.

(** ** The AI adapter and the chat transcript *)

Module ChatSpec.
Import Effect.

(** The adapter resolves, with a text that does not depend on the state of
    the browser; when the call fails the text starts with "Error: ". *)
Lemma generateAIResponse_run env request :
  exists reply,
    (forall h, completion (GeminiService.generateAIResponse env request) h = Return reply)
    /\ (forall h, exists h', GeminiService.generateAIResponse env request h = (Return reply, h'))
    /\ (GeminiService.fails env request -> exists detail, reply = "Error: " +:+ detail).
Proof.
  unfold GeminiService.fails, completion, GeminiService.generateAIResponse, tryCatch, bind,
    await, throw, ret, Host.consoleError, modify.
  destruct (GeminiService.whenTruthy (GeminiService.API_KEY env)) as [apiKey|].
  - destruct (GeminiService.generateContent env _ _ _) as [response|message] eqn:Hcall.
    + eexists. split; [done|]. split; [by eexists|].
      intros [?|(message & ?)]; congruence.
    + eexists. split; [done|]. split; [by eexists|]. by eexists.
  - eexists. split; [done|]. split; [by eexists|]. by eexists.
Qed.

Lemma last_map_snoc {A B} (g : A -> B) l x : last (map g (l ++ [x])) = Some (g x).
Proof. rewrite map_app. simpl. apply last_snoc. Qed.

(** C9.  The adapter never rejects: it resolves with a text, and when the
    call fails the text starts with "Error: ".  A send that passes the guard
    of the chat panel never rejects either; it adds two messages to the
    transcript, and the last one is the model's message carrying the text
    the adapter returned, no longer loading. *)
Theorem ai_failure_is_shown (env : GeminiService.sdk) (p : ChatPanel.props)
    (s : ChatPanel.state) :
  let request :=
    AIAnalysisRequest.Build (ChatPanel.pdfPageText p) (ChatPanel.pdfPageImage p)
                            (ChatPanel.input s) in
  let s' := exec (ChatPanel.handleSend env p) s in
  exists reply,
    (forall h, completion (GeminiService.generateAIResponse env request) h = Return reply)
    /\ (GeminiService.fails env request -> exists detail, reply = "Error: " +:+ detail)
    /\ (Js.truthy (Js.trim (ChatPanel.input s)) = true ->
        ChatPanel.isLoading s = false ->
        completion (ChatPanel.handleSend env p) s = Return tt
        /\ length (ChatPanel.messages s') = length (ChatPanel.messages s) + 2
        /\ ChatPanel.isLoading s' = false
        /\ exists m, last (ChatPanel.messages s') = Some m
                     /\ ChatMessage.role m = ChatMessage.model
                     /\ ChatMessage.text m = reply
                     /\ ChatMessage.isLoading m = Some false).
Proof.
  intros request s'.
  destruct (generateAIResponse_run env request) as (reply & Hreply & Hrun & Hfails).
  exists reply. split; [exact Hreply|]. split; [exact Hfails|].
  intros Hinput Hloading. subst s'.
  unfold completion, exec, ChatPanel.handleSend.
  rewrite Hinput, Hloading. simpl.
  unfold bind, ChatPanel.onHost, zoom, Host.randomUUID, Host.dateNow,
    ChatPanel.setMessages, ChatPanel.setInput, ChatPanel.setIsLoading, modify.
  simpl. fold request.
  match goal with
  | |- context [GeminiService.generateAIResponse env request ?h] =>
      destruct (Hrun h) as (h' & ->)
  end.
  simpl. split; [done|]. split; [|split; [done|]].
  - rewrite length_map, !length_app. simpl. lia.
  - eexists. rewrite last_map_snoc. split; [reflexivity|].
    unfold ChatPanel.fillIn. simpl. by rewrite String.eqb_refl.
Qed.

(** *** Examples *)

Definition noKey : GeminiService.sdk :=
  {| GeminiService.API_KEY := None;
     GeminiService.generateContent := fun _ _ _ => Return (Some "unused") |}.

Definition offline : GeminiService.sdk :=
  {| GeminiService.API_KEY := Some "key";
     GeminiService.generateContent := fun _ _ _ => Throw "Failed to fetch" |}.

Definition asking : ChatPanel.state :=
  ChatPanel.State [] "What is on this page?" false AppSpec.host0.

Example missing_key_reply :
  map (fun m => (ChatMessage.role m, ChatMessage.text m))
    (ChatPanel.messages
       (exec (ChatPanel.handleSend noKey (ChatPanel.Props None None)) asking))
  = [(ChatMessage.user, "What is on this page?");
     (ChatMessage.model, "Error: API Key not found")].
Proof. reflexivity. Qed.

Lemma ai_failure_is_shown_witness :
  exists m,
    last (ChatPanel.messages
            (exec (ChatPanel.handleSend offline (ChatPanel.Props None None)) asking))
    = Some m
    /\ ChatMessage.role m = ChatMessage.model
    /\ ChatMessage.text m = "Error: Failed to fetch".
Proof.
  destruct (ai_failure_is_shown offline (ChatPanel.Props None None) asking)
    as (reply & Hreply & _ & Hsend).
  destruct (Hsend eq_refl eq_refl) as (_ & _ & _ & m & Hlast & Hrole & Htext & _).
  exists m. split; [exact Hlast|]. split; [exact Hrole|].
  rewrite Htext. specialize (Hreply AppSpec.host0). by injection Hreply.
Defined.

End ChatSpec.

(** ** The reader's page *)

Module ReaderSpec.
Import PDFReader.

Lemma totalOr1_pos numPages : (1 <= totalOr1 numPages)%Z.
Proof. destruct numPages as [[|n]|]; simpl; lia. Qed.

Lemma changePage_spec offset s :
  let n := totalOr1 (numPages s) in
  let s' := changePage offset s in
  numPages s' = numPages s
  /\ (1 <= pageNumber s' <= n)%Z
  /\ reported s' = reported s ++ [(pageNumber s', n)].
Proof.
  simpl. pose proof (totalOr1_pos (numPages s)). repeat split; lia.
Qed.

Lemma changePage_consistent offset s :
  consistent (totalOr1 (numPages s)) s ->
  consistent (totalOr1 (numPages s)) (changePage offset s).
Proof.
  intros [Hall _].
  destruct (changePage_spec offset s) as (Hn & Hrange & Hrep).
  split.
  - rewrite Hrep. apply Forall_app. split; [done|].
    apply Forall_singleton. split; [exact Hrange|done].
  - right. by rewrite Hrep, last_snoc.
Qed.

Lemma handle_numPages r s : numPages (handle r s) = numPages s.
Proof.
  destruct r; simpl; try done.
  - unfold previousButton. by destruct (pageNumber s <=? 1)%Z.
  - unfold nextButton. by destruct (totalOr1 (numPages s) <=? pageNumber s)%Z.
  - unfold onTouchEnd.
    repeat (match goal with
            | |- context [match ?x with _ => _ end] => destruct x; simpl; try done
            end).
Qed.

Lemma handle_keeps r s :
  let n := totalOr1 (numPages s) in
  (consistent n s -> consistent n (handle r s))
  /\ ((1 <= pageNumber s <= n)%Z -> (1 <= pageNumber (handle r s) <= n)%Z).
Proof.
  simpl. pose proof (totalOr1_pos (numPages s)) as Hpos.
  assert (forall offset,
    (consistent (totalOr1 (numPages s)) s ->
     consistent (totalOr1 (numPages s)) (changePage offset s))
    /\ ((1 <= pageNumber s <= totalOr1 (numPages s))%Z ->
        (1 <= pageNumber (changePage offset s) <= totalOr1 (numPages s))%Z)) as Hchange.
  { intros offset. split; [apply changePage_consistent|].
    intros _. apply (changePage_spec offset s). }
  destruct r; simpl; try done.
  - unfold previousButton. destruct (pageNumber s <=? 1)%Z; [done|apply Hchange].
  - unfold nextButton.
    destruct (totalOr1 (numPages s) <=? pageNumber s)%Z; [done|apply Hchange].
  - unfold handleZoneClick. split.
    + intros Hs. apply (changePage_consistent _
        (State (numPages s) (pageNumber s) (touchStart s) (touchEnd s)
               (touchYStart s) (touchYEnd s) (Some d) (reported s))). exact Hs.
    + intros _. simpl. lia.
  - unfold onTouchEnd.
    repeat (match goal with
            | |- context [match ?x with _ => _ end] =>
                destruct x; simpl; try done; try apply Hchange
            end).
Qed.

Lemma run_keeps requests s :
  let n := totalOr1 (numPages s) in
  (consistent n s -> consistent n (run requests s))
  /\ ((1 <= pageNumber s <= n)%Z -> (1 <= pageNumber (run requests s) <= n)%Z).
Proof.
  simpl. revert s. induction requests as [|r requests IH]; intros s; [done|].
  simpl. destruct (handle_keeps r s) as [Hc Hp]. simpl in Hc, Hp.
  destruct (IH (handle r s)) as [IHc IHp]. rewrite handle_numPages in IHc, IHp.
  split; auto.
Qed.

(** C10 (amended).  Whatever the page-turning requests, and with the page
    count [n] (1 while unknown): a page that starts within 1..n stays within
    1..n;
    every call to [onPageChange] reports a page within 1..n together with
    [n]; the last call reports the current page; and asking for the next
    page at page [n], or for the previous page at page 1, changes nothing. *)
Theorem page_stays_in_range (numPages : option N) (initialPage : Z)
    (requests : list request) :
  let n := totalOr1 numPages in
  let s := run requests (initial numPages initialPage) in
  ((1 <= initialPage <= n)%Z -> (1 <= pageNumber s <= n)%Z)
  /\ Forall (fun call => (1 <= call.1 <= n)%Z /\ call.2 = n) (reported s)
  /\ (reported s = [] \/ last (reported s) = Some (pageNumber s, n))
  /\ (forall s0, PDFReader.numPages s0 = numPages ->
        (pageNumber s0 = n -> pageNumber (changePage 1 s0) = n)
        /\ (pageNumber s0 = 1%Z -> pageNumber (changePage (-1) s0) = 1%Z)).
Proof.
  intros n s.
  destruct (run_keeps requests (initial numPages initialPage)) as [Hc Hp].
  simpl in Hc, Hp. fold n in Hc, Hp. fold s in Hc, Hp.
  assert (consistent n (initial numPages initialPage)) as Hinit.
  { split; [constructor|by left]. }
  destruct (Hc Hinit) as [Hall Hlast].
  split; [exact Hp|]. split; [exact Hall|]. split; [exact Hlast|].
  intros s0 Hs0. pose proof (totalOr1_pos numPages). subst n.
  unfold changePage. simpl. rewrite Hs0. split; intros ->; lia.
Qed.

(** *** Examples *)

(** Ten pages, at page 9: two taps on the right zone stop at page 10; a
    swipe to the left does nothing more. *)
Example taps_stop_at_last_page :
  let s := run [ZoneClick right; ZoneClick right; TouchStart 300 200;
                TouchMove 100 210; TouchEnd] (initial (Some 10%N) 9) in
  pageNumber s = 10%Z /\ reported s = [(10, 10); (10, 10)]%Z.
Proof. split; reflexivity. Qed.

(** C10 as stated fails: the page the reader starts from is not clamped.  A
    reader resumed at page 7 shows page 7 while the page count is unknown,
    that is while the count is taken to be 1, and pressing the next button
    or swiping to the next page leaves it there; a reader at page 12 of a
    document that turns out to have 10 pages stays at page 12 when the next
    button is pressed. *)
Lemma page_out_of_range_at_start :
  let s := run [NextButton; TouchStart 300 200; TouchMove 100 210; TouchEnd]
               (initial None 7) in
  let s10 := run [NextButton] (onDocumentLoadSuccess 10 (initial None 12)) in
  pageNumber (initial None 7) = 7%Z
  /\ pageNumber s = 7%Z /\ totalOr1 (numPages s) = 1%Z
  /\ pageNumber s10 = 12%Z /\ totalOr1 (numPages s10) = 10%Z.
Proof. repeat split. Qed.

Lemma page_stays_in_range_witness :
  (1 <= pageNumber (run [PreviousButton; ZoneClick left; ZoneClick left]
                        (initial (Some 10%N) 2)) <= 10)%Z.
Proof.
  apply (page_stays_in_range (Some 10%N) 2
           [PreviousButton; ZoneClick left; ZoneClick left]).
  simpl. lia.
Defined.

End ReaderSpec.

(** ** The storage service: round trips and failures *)

Module DbSpec.
Import Effect EffectFacts Db DbFacts.


(** A request the host accepts is logged and returns; the host then accepts
    the requests that follow. *)
Lemma send_accepted w r rs :
  accepts w (r :: rs) ->
  send r w = (Return tt, World (contents w) (fault w) (log w ++ [r]) (host w) (calls w))
  /\ accepts (World (contents w) (fault w) (log w ++ [r]) (host w) (calls w)) rs.
Proof.
  intros Hacc. split.
  - unfold send. by rewrite (accepts_0 _ _ _ Hacc).
  - intros i r' Hr'. simpl. rewrite length_app. simpl.
    rewrite <-Nat.add_assoc. by apply (Hacc (S i)).
Qed.

Lemma accepts_ext w w' rs :
  fault w' = fault w -> log w' = log w -> accepts w rs -> accepts w' rs.
Proof. intros Hf Hl Hacc i r Hr. rewrite Hf, Hl. by apply Hacc. Qed.

(** [saveFile] of a file that can be read, when the host accepts its two
    requests. *)
Lemma saveFile_accepted w file path data rs :
  let id := Host.uuid (host w) (Host.drawn (host w)) in
  let r := StoredFile.Build id (fileName file) (fileType file) (fileSize file)
             data (Host.clock (host w) (Host.ticks (host w)))
             (Js.orElse (default "" path) (fileName file)) in
  arrayBuffer file = Return data ->
  accepts w (Open :: Put STORE_FILES id :: rs) ->
  let w' :=
    World (Stores (<[id := r]> (files (contents w))) (history (contents w)))
          (fault w) (log w ++ [Open; Put STORE_FILES id])
          (Host.Build (Host.clock (host w)) (S (Host.ticks (host w)))
                      (Host.uuid (host w)) (S (Host.drawn (host w)))
                      (Host.console (host w)))
          (calls w ++ [SaveFile (fileName file)]) in
  saveFile file path w = (Return r, w') /\ accepts w' rs.
Proof.
  intros id r Hdata Hacc w'.
  pose proof (accepts_0 _ _ _ Hacc) as H0.
  pose proof (accepts_1 _ _ _ _ Hacc) as H1.
  split.
  - unfold saveFile, initDB, putFile, called, onHost, zoom, bind, modify, ret, await,
      send, setContents, setHost, Host.dateNow, Host.randomUUID.
    simpl. rewrite H0, Hdata. simpl. fold id. rewrite H1. simpl.
    by rewrite <-!app_assoc.
  - intros i r' Hr'. subst w'. simpl. rewrite length_app. simpl.
    rewrite <-Nat.add_assoc. by apply (Hacc (S (S i))).
Qed.

(** [saveFile] of a file that cannot be read: the database is opened, and
    the rejection of [file.arrayBuffer()] is the rejection of the call. *)
Lemma saveFile_unreadable w file path message :
  arrayBuffer file = Throw message ->
  fault w (length (log w)) Open = false ->
  saveFile file path w =
  (Throw message,
   World (contents w) (fault w) (log w ++ [Open]) (host w)
         (calls w ++ [SaveFile (fileName file)])).
Proof.
  intros Hdata H0.
  unfold saveFile, initDB, called, bind, modify, await, send.
  simpl. by rewrite H0, Hdata.
Qed.

Lemma getFile_accepted w id :
  accepts w [Open; Get STORE_FILES id] ->
  completion (getFile id) w = Return (files (contents w) !! id)
  /\ contents (exec (getFile id) w) = contents w.
Proof.
  intros Hacc.
  pose proof (accepts_0 _ _ _ Hacc) as H0.
  pose proof (accepts_1 _ _ _ _ Hacc) as H1.
  unfold completion, exec, getFile, initDB, called, bind, modify, gets, send.
  simpl. rewrite H0. simpl. rewrite H1. simpl. done.
Qed.

Lemma getHistoryItem_accepted w id :
  accepts w [Open; Get STORE_HISTORY id] ->
  completion (getHistoryItem id) w = Return (history (contents w) !! id)
  /\ contents (exec (getHistoryItem id) w) = contents w.
Proof.
  intros Hacc.
  pose proof (accepts_0 _ _ _ Hacc) as H0.
  pose proof (accepts_1 _ _ _ _ Hacc) as H1.
  unfold completion, exec, getHistoryItem, initDB, called, bind, modify, gets, send.
  simpl. rewrite H0. simpl. rewrite H1. simpl. done.
Qed.

(** A file that was saved is found again under the id it was given: when
    the bytes of the file can be read and the host accepts the requests,
    [getFile] after [saveFile] resolves with the very record [saveFile]
    resolved with.  The record carries the name, type, size and bytes of
    the file; its path is the path given, or the file's name when no path
    or an empty one is given.  No other record of either store is touched.
    When the bytes cannot be read, [saveFile] rejects with the error of the
    read, after the database was opened: nothing is stored, no id is drawn
    and the clock is not read. *)
Theorem saveFile_then_getFile (w : world) (file : File) (path : option string) :
  let id := Host.uuid (host w) (Host.drawn (host w)) in
  let w' := exec (saveFile file path) w in
  (forall data,
     arrayBuffer file = Return data ->
     accepts w [Open; Put STORE_FILES id; Open; Get STORE_FILES id] ->
     exists r,
       completion (saveFile file path) w = Return r
       /\ completion (getFile id) w' = Return (Some r)
       /\ StoredFile.id r = id
       /\ StoredFile.name r = fileName file
       /\ StoredFile.type r = fileType file
       /\ StoredFile.size r = fileSize file
       /\ StoredFile.data r = data
       /\ StoredFile.path r =
          match path with
          | Some (String c p) => String c p
          | _ => fileName file
          end
       /\ (forall k, k <> id -> files (contents w') !! k = files (contents w) !! k)
       /\ history (contents w') = history (contents w))
  /\ (forall message,
        arrayBuffer file = Throw message ->
        accepts w [Open] ->
        completion (saveFile file path) w = Throw message
        /\ contents w' = contents w
        /\ host w' = host w).
Proof.
  intros id w'. subst w'. split.
  - intros data Hdata Hacc.
    destruct (saveFile_accepted w file path data _ Hdata Hacc) as [Hsave Hacc'].
    unfold completion, exec. rewrite Hsave. simpl.
    eexists. split; [reflexivity|].
    destruct (getFile_accepted _ id Hacc') as [Hget _].
    unfold completion in Hget. rewrite Hget. simpl.
    rewrite lookup_insert_eq. repeat split.
    + by destruct path as [[|c p]|].
    + intros k Hk. by rewrite lookup_insert_ne.
  - intros message Hdata Hacc. unfold completion, exec.
    by rewrite (saveFile_unreadable w file path message Hdata (accepts_0 _ _ _ Hacc)).
Qed.


(** The progress written for a file is what is read back for it: with a host
    that accepts the requests, [getHistoryItem] after [updateHistory]
    resolves with a record carrying the page and page count just written,
    whatever was stored for the file before.  No other record of either
    store is touched. *)
Theorem updateHistory_then_getHistoryItem (w : world) (fileId : string)
    (page : Z) (totalPages : option Z) :
  let w' := exec (updateHistory fileId page totalPages) w in
  accepts w [Open; Put STORE_HISTORY fileId; Open; Get STORE_HISTORY fileId] ->
  completion (updateHistory fileId page totalPages) w = Return tt
  /\ (exists r,
        completion (getHistoryItem fileId) w' = Return (Some r)
        /\ ReadingHistory.fileId r = fileId
        /\ ReadingHistory.lastPage r = page
        /\ ReadingHistory.totalPages r = totalPages
        /\ ReadingHistory.lastReadAt r = Host.clock (host w) (Host.ticks (host w)))
  /\ (forall k, k <> fileId -> history (contents w') !! k = history (contents w) !! k)
  /\ files (contents w') = files (contents w).
Proof.
  intros w' Hacc. subst w'.
  assert (accepts w [Open; Put STORE_HISTORY fileId]) as Hacc2.
  { intros i r Hr. apply Hacc. by apply (lookup_app_l_Some _ [Open; Get STORE_HISTORY fileId]) in Hr. }
  unfold completion, exec.
  rewrite (updateHistory_accepted _ _ _ _ Hacc2). simpl.
  split; [done|]. split; [|split; [|done]].
  - match goal with
    | |- context [getHistoryItem fileId ?w1] =>
        destruct (getHistoryItem_accepted w1 fileId) as [Hget _]
    end.
    { intros i r Hr. simpl. rewrite length_app. simpl. rewrite <-Nat.add_assoc.
      by apply (Hacc (S (S i))). }
    unfold completion in Hget. rewrite Hget. simpl. rewrite lookup_insert_eq.
    eexists. by repeat split.
  - intros k Hk. by rewrite lookup_insert_ne.
Qed.

Lemma reliable_accepts w rs : reliable w -> accepts w rs.
Proof. intros Hw i r _. apply Hw. Qed.

(** After [deleteFile], with a host that rejects nothing, neither the file
    nor its progress is found under the id: both [getFile] and
    [getHistoryItem] resolve with [undefined]; the records of other ids are
    found as before. *)
Theorem deleteFile_then_get (w : world) (id : string) :
  let w' := exec (deleteFile id) w in
  reliable w ->
  completion (deleteFile id) w = Return tt
  /\ completion (getFile id) w' = Return None
  /\ completion (getHistoryItem id) w' = Return None
  /\ (forall k, k <> id ->
        completion (getFile k) w' = Return (files (contents w) !! k)
        /\ completion (getHistoryItem k) w' = Return (history (contents w) !! k)).
Proof.
  intros w' Hrel. subst w'.
  pose proof (deleteFile_accepted w id (reliable_accepts _ _ Hrel)) as Hdel.
  unfold completion at 1, exec. rewrite Hdel. cbn [fst snd].
  split; [done|].
  match goal with
  | |- context [completion (getFile id) ?w1] => set (w' := w1)
  end.
  assert (reliable w') as Hrel' by exact Hrel.
  assert (forall k, completion (getFile k) w' = Return (files (contents w') !! k)) as Hfile.
  { intros k. apply getFile_accepted. by apply reliable_accepts. }
  assert (forall k, completion (getHistoryItem k) w' = Return (history (contents w') !! k))
    as Hitem.
  { intros k. apply getHistoryItem_accepted. by apply reliable_accepts. }
  rewrite !Hfile, !Hitem. subst w'. cbn [contents files history].
  rewrite !lookup_delete_eq. do 2 (split; [done|]).
  intros k Hk. rewrite Hfile, Hitem. cbn [contents files history].
  by rewrite !lookup_delete_ne.
Qed.


(** *** Reading a store through its index *)

Section ByIndex.
Context {A : Type} (index : A -> N) (key : A -> string).

Definition indexOrder (a b : A) : comparison :=
  match N.compare (index a) (index b) with
  | Eq => String.compare (key a) (key b)
  | c => c
  end.

Lemma indexOrder_antisym a b : indexOrder b a = CompOpp (indexOrder a b).
Proof.
  unfold indexOrder. rewrite (N.compare_antisym (index a) (index b)).
  destruct (N.compare (index a) (index b)); simpl; try done.
  apply String.compare_antisym.
Qed.

Lemma indexOrder_trans a b c :
  SortFacts.leq indexOrder a b -> SortFacts.leq indexOrder b c ->
  SortFacts.leq indexOrder a c.
Proof.
  unfold SortFacts.leq, indexOrder.
  destruct (N.compare_spec (index a) (index b)) as [Hab|Hab|Hab],
           (N.compare_spec (index b) (index c)) as [Hbc|Hbc|Hbc],
           (N.compare_spec (index a) (index c)) as [Hac|Hac|Hac];
    try congruence; try lia.
  apply CodeUnit.compare_trans.
Qed.

Lemma indexOrder_le a b :
  SortFacts.leq indexOrder a b -> (index a <= index b)%N.
Proof.
  unfold SortFacts.leq, indexOrder.
  destruct (N.compare_spec (index a) (index b)); try lia. congruence.
Qed.

(** The records of a store, each once, in the order of the index. *)
Lemma byIndex_spec (m : gmap string A) :
  byIndex index key m ≡ₚ map snd (map_to_list m)
  /\ StronglySorted (fun a b => (index a <= index b)%N) (byIndex index key m).
Proof.
  split; [apply SortFacts.sortBy_Permutation|].
  eapply SortFacts.StronglySorted_weaken; [apply indexOrder_le|].
  apply (SortFacts.sortBy_StronglySorted indexOrder);
    [apply indexOrder_antisym|apply indexOrder_trans].
Qed.

Lemma elem_of_byIndex (m : gmap string A) r :
  r ∈ byIndex index key m <-> exists k, m !! k = Some r.
Proof.
  rewrite (proj1 (byIndex_spec m)), list_elem_of_fmap. split.
  - intros ([k r'] & -> & Hin). exists k. by apply elem_of_map_to_list.
  - intros (k & Hk). exists (k, r). split; [done|]. by apply elem_of_map_to_list.
Qed.

End ByIndex.

Lemma getFiles_accepted w rs :
  accepts w (Open :: GetAllFromIndex STORE_FILES :: rs) ->
  let w' := World (contents w) (fault w) (log w ++ [Open; GetAllFromIndex STORE_FILES])
                  (host w) (calls w ++ [GetFiles]) in
  getFiles w = (Return (byIndex StoredFile.createdAt StoredFile.id (files (contents w))), w')
  /\ accepts w' rs.
Proof.
  intros Hacc w'.
  pose proof (accepts_0 _ _ _ Hacc) as H0.
  pose proof (accepts_1 _ _ _ _ Hacc) as H1.
  split.
  - unfold getFiles, getAllFilesByDate, initDB, called, bind, modify, gets, send.
    simpl. rewrite H0. simpl. rewrite H1. simpl. by rewrite <-!app_assoc.
  - intros i r' Hr'. subst w'. simpl. rewrite length_app. simpl.
    rewrite <-Nat.add_assoc. by apply (Hacc (S (S i))).
Qed.

Lemma getHistory_accepted w rs :
  accepts w (Open :: GetAllFromIndex STORE_HISTORY :: rs) ->
  let w' := World (contents w) (fault w) (log w ++ [Open; GetAllFromIndex STORE_HISTORY])
                  (host w) (calls w ++ [GetHistory]) in
  getHistory w =
    (Return (byIndex ReadingHistory.lastReadAt ReadingHistory.fileId (history (contents w))),
     w')
  /\ accepts w' rs.
Proof.
  intros Hacc w'.
  pose proof (accepts_0 _ _ _ Hacc) as H0.
  pose proof (accepts_1 _ _ _ _ Hacc) as H1.
  split.
  - unfold getHistory, getAllHistoryByRead, initDB, called, bind, modify, gets, send.
    simpl. rewrite H0. simpl. rewrite H1. simpl. by rewrite <-!app_assoc.
  - intros i r' Hr'. subst w'. simpl. rewrite length_app. simpl.
    rewrite <-Nat.add_assoc. by apply (Hacc (S (S i))).
Qed.

(** [getFiles] resolves with the records of the file store, each once,
    oldest first; [getHistory] with the records of the progress store, each
    once, least recently read first.  Neither changes a store. *)
Theorem getFiles_getHistory_list_the_stores (w : world) (st : store) :
  accepts w [Open; GetAllFromIndex st] ->
  match st with
  | STORE_FILES =>
      exists l,
        completion getFiles w = Return l
        /\ l ≡ₚ map snd (map_to_list (files (contents w)))
        /\ (forall r, r ∈ l <-> exists k, files (contents w) !! k = Some r)
        /\ StronglySorted
             (fun a b => (StoredFile.createdAt a <= StoredFile.createdAt b)%N) l
        /\ contents (exec getFiles w) = contents w
  | STORE_HISTORY =>
      exists l,
        completion getHistory w = Return l
        /\ l ≡ₚ map snd (map_to_list (history (contents w)))
        /\ (forall r, r ∈ l <-> exists k, history (contents w) !! k = Some r)
        /\ StronglySorted
             (fun a b => (ReadingHistory.lastReadAt a <= ReadingHistory.lastReadAt b)%N) l
        /\ contents (exec getHistory w) = contents w
  end.
Proof.
  intros Hacc. destruct st.
  - destruct (getFiles_accepted w [] Hacc) as [Hget _].
    unfold completion, exec. rewrite Hget. simpl. eexists. split; [reflexivity|].
    destruct (byIndex_spec StoredFile.createdAt StoredFile.id (files (contents w)))
      as [Hperm Hsorted].
    split; [exact Hperm|]. split; [apply elem_of_byIndex|]. by split.
  - destruct (getHistory_accepted w [] Hacc) as [Hget _].
    unfold completion, exec. rewrite Hget. simpl. eexists. split; [reflexivity|].
    destruct (byIndex_spec ReadingHistory.lastReadAt ReadingHistory.fileId
                (history (contents w))) as [Hperm Hsorted].
    split; [exact Hperm|]. split; [apply elem_of_byIndex|]. by split.
Qed.

(** *** A database that cannot be opened *)

(** When the host rejects the open request, every function of the service
    rejects and leaves both stores, the clock and the UUID source as they
    were: nothing is written, no id is drawn. *)
Theorem rejected_open_changes_nothing (w : world) :
  fault w (length (log w)) Open = true ->
  (forall file path, rejectsUntouched (saveFile file path) w)
  /\ rejectsUntouched getFiles w
  /\ (forall id, rejectsUntouched (getFile id) w)
  /\ (forall id, rejectsUntouched (deleteFile id) w)
  /\ (forall fileId page totalPages, rejectsUntouched (updateHistory fileId page totalPages) w)
  /\ rejectsUntouched getHistory w
  /\ (forall fileId, rejectsUntouched (getHistoryItem fileId) w).
Proof.
  intros Hfault.
  repeat split;
    unfold completion, exec, saveFile, getFiles, getFile, deleteFile, updateHistory,
      getHistory, getHistoryItem, initDB, called, bind, modify, send;
    simpl; rewrite Hfault; simpl; eauto.
Qed.


(** *** Examples *)

Definition report : File :=
  {| fileName := "report.pdf"; fileType := "application/pdf"; fileSize := 3;
     arrayBuffer := Return [Byte.x25; Byte.x50; Byte.x44]; webkitRelativePath := "" |}.

Definition notes : File :=
  {| fileName := "notes.pdf"; fileType := "application/pdf"; fileSize := 5;
     arrayBuffer := Return [Byte.x25; Byte.x50; Byte.x44; Byte.x46; Byte.x2d];
     webkitRelativePath := "Papers/notes.pdf" |}.

(** A file that was removed from the disk after it was selected. *)
Definition missing : File :=
  {| fileName := "missing.pdf"; fileType := "application/pdf"; fileSize := 7;
     arrayBuffer := Throw "The requested file could not be read";
     webkitRelativePath := "Papers/missing.pdf" |}.

Lemma saveFile_then_getFile_witness :
  exists r,
    completion (getFile "uuid-0")
      (exec (saveFile report None) (AppSpec.world0 AppSpec.noFault)) = Return (Some r)
    /\ StoredFile.path r = "report.pdf".
Proof.
  destruct (proj1 (saveFile_then_getFile (AppSpec.world0 AppSpec.noFault) report None)
              [Byte.x25; Byte.x50; Byte.x44])
    as (r & _ & Hget & _ & _ & _ & _ & _ & Hpath & _).
  { reflexivity. }
  { intros i q _. reflexivity. }
  exists r. split; [exact Hget|exact Hpath].
Defined.

Lemma updateHistory_then_getHistoryItem_witness :
  exists r,
    completion (getHistoryItem "2")
      (exec (updateHistory "2" 7 (Some 10%Z)) (AppSpec.world0 AppSpec.noFault))
    = Return (Some r)
    /\ ReadingHistory.lastPage r = 7%Z.
Proof.
  destruct (updateHistory_then_getHistoryItem (AppSpec.world0 AppSpec.noFault) "2" 7
              (Some 10%Z)) as (_ & (r & Hget & _ & Hpage & _) & _).
  { intros i q _. reflexivity. }
  exists r. split; [exact Hget|exact Hpage].
Defined.

Lemma deleteFile_then_get_witness :
  completion (getFile "uuid-0")
    (exec (deleteFile "uuid-0")
       (exec (saveFile report None) (AppSpec.world0 AppSpec.noFault)))
  = Return None.
Proof.
  apply (deleteFile_then_get
           (exec (saveFile report None) (AppSpec.world0 AppSpec.noFault)) "uuid-0").
  intros n q. reflexivity.
Defined.

Lemma getFiles_getHistory_witness :
  exists l,
    completion getFiles (exec (saveFile report None) (AppSpec.world0 AppSpec.noFault))
    = Return l
    /\ length l = 1.
Proof.
  destruct (getFiles_getHistory_list_the_stores
              (exec (saveFile report None) (AppSpec.world0 AppSpec.noFault)) STORE_FILES)
    as (l & Hget & Hperm & _).
  { intros i q _. reflexivity. }
  exists l. split; [exact Hget|]. by rewrite Hperm.
Defined.

Lemma rejected_open_witness :
  contents (exec (saveFile report None) (AppSpec.world0 AppSpec.rejectsOpen))
  = contents (AppSpec.world0 AppSpec.rejectsOpen).
Proof.
  apply (rejected_open_changes_nothing (AppSpec.world0 AppSpec.rejectsOpen)).
  reflexivity.
Defined.

End DbSpec.

(** ** The shell: deleting, paging, loading and importing *)

Module ShellSpec.
Import Effect EffectFacts AppFacts.

(** [deleteFile] is two deletions, not one transaction: when the host
    accepts the deletion of the file and rejects the deletion of its
    progress, the file is gone from the database while the shell, which
    catches the failure, still lists it (and still holds its progress), and
    the selection stays. *)
Theorem handleFileDelete_partial_failure (s : App.state) (id : string) :
  let s' := exec (App.handle (App.FileDelete id)) s in
  Db.accepts (App.world s) [Db.Open; Db.Delete Db.STORE_FILES id] ->
  Db.fault (App.world s) (length (Db.log (App.world s)) + 2)
           (Db.Delete Db.STORE_HISTORY id) = true ->
  Db.files (Db.contents (App.world s')) =
    delete id (Db.files (Db.contents (App.world s)))
  /\ Db.history (Db.contents (App.world s')) = Db.history (Db.contents (App.world s))
  /\ App.files s' = App.files s
  /\ App.history s' = App.history s
  /\ App.activeFileId s' = App.activeFileId s
  /\ Host.console (Db.host (App.world s')) =
     Host.console (Db.host (App.world s)) ++ ["Error deleting file"].
Proof.
  intros s' Hacc Hfault. subst s'.
  pose proof (DbFacts.accepts_0 _ _ _ Hacc) as H0.
  pose proof (DbFacts.accepts_1 _ _ _ _ Hacc) as H1.
  assert (Db.deleteFile id (App.world s) =
          (Throw "request failed",
           Db.World (Db.Stores (delete id (Db.files (Db.contents (App.world s))))
                               (Db.history (Db.contents (App.world s))))
                    (Db.fault (App.world s))
                    (Db.log (App.world s) ++
                     [Db.Open; Db.Delete Db.STORE_FILES id; Db.Delete Db.STORE_HISTORY id])
                    (Db.host (App.world s))
                    (Db.calls (App.world s) ++ [Db.DeleteFile id]))) as Hdel.
  { unfold Db.deleteFile, Db.initDB, Db.delete, Db.called, bind, modify, Db.send,
      Db.setContents.
    simpl. rewrite H0. simpl. rewrite H1. simpl.
    rewrite !length_app. simpl.
    replace (length (Db.log (App.world s)) + 1 + 1) with
      (length (Db.log (App.world s)) + 2) by lia.
    rewrite Hfault. by rewrite <-!app_assoc. }
  unfold exec, App.handle, App.handleFileDelete, tryCatch, bind, App.db, zoom.
  rewrite Hdel. simpl. done.
Qed.


Lemma find_insert_first {A} (p : A -> bool) l i x :
  Js.findIndex p l = Some i -> p x = true -> find p (<[i := x]> l) = Some x.
Proof.
  revert i. induction l as [|y l IH]; intros i; simpl; [done|].
  destruct (p y) eqn:Hy.
  - intros [= <-] Hx. simpl. by rewrite Hx.
  - destruct (Js.findIndex p l) as [j|]; [|done]. simpl. intros [= <-] Hx.
    simpl. rewrite Hy. by apply IH.
Qed.

Lemma find_snoc_first {A} (p : A -> bool) l x :
  Js.findIndex p l = None -> p x = true -> find p (l ++ [x]) = Some x.
Proof.
  intros Hnone Hx. rewrite SidebarFacts.find_snoc.
  apply findIndex_None in Hnone.
  induction Hnone as [|y l Hy _ IH]; simpl; [by rewrite Hx|].
  by rewrite Hy.
Qed.

(** The record the updater of [handlePageChange] writes is the one a later
    [find] on its file id returns. *)
Lemma find_upsert newItem prev :
  find (fun h => String.eqb (ReadingHistory.fileId h) (ReadingHistory.fileId newItem))
       (App.upsert newItem prev) = Some newItem.
Proof.
  unfold App.upsert.
  destruct (Js.findIndex _ prev) as [i|] eqn:Hfind.
  - eapply find_insert_first; [exact Hfind|]. apply String.eqb_refl.
  - apply find_snoc_first; [exact Hfind|]. apply String.eqb_refl.
Qed.

(** The reader reopens a file at the page last recorded for it: after a page
    change on the open file [x] that the host accepts, and whatever other
    file is selected in between, selecting [x] again makes [initialPage] the
    page that was recorded. *)
Theorem reader_resumes_at_recorded_page (s : App.state) (x y : string) (page total : Z) :
  Js.truthy x = true ->
  Db.accepts (App.world s) [Db.Open; Db.Put Db.STORE_HISTORY x] ->
  let s1 := App.run [App.FileSelect x; App.PageChange page total] s in
  let s2 := App.run [App.FileSelect y; App.FileSelect x] s1 in
  App.initialPage s1 = page /\ App.initialPage s2 = page.
Proof.
  intros Hx Hacc s1 s2.
  set (s0 := exec (App.handle (App.FileSelect x)) s).
  assert (App.activeFileId s0 = Some x /\ App.world s0 = App.world s
          /\ App.history s0 = App.history s) as (Ha0 & Hw0 & Hh0).
  { subst s0. unfold exec, App.handle, App.handleFileSelect, bind, App.setActiveFileId,
      App.setSidebarOpen, modify, gets, ret. simpl.
    by destruct (App.innerWidth s <? 768)%Z. }
  destruct (handlePageChange_accepted x page total s0 Hx) as (now & w' & Hrun & _).
  { by rewrite Hw0. }
  assert (s1 = App.State w' (App.innerWidth s0) (App.files s0)
                 (App.upsert (ReadingHistory.Build x page now (Some total)) (App.history s0))
                 (Some x) (App.isSidebarOpen s0)) as Hs1.
  { subst s1. unfold App.run. simpl. fold s0. unfold exec, App.handle.
    rewrite Ha0, Hrun. simpl. by rewrite Ha0. }
  assert (forall s, App.activeFileId s = Some x ->
            App.history s = App.upsert (ReadingHistory.Build x page now (Some total))
                                       (App.history s0) ->
            App.initialPage s = page) as Hinit.
  { intros t Ht Hh. unfold App.initialPage, App.fileHistory. rewrite Ht, Hh.
    unfold App.isActiveId.
    by rewrite (find_upsert (ReadingHistory.Build x page now (Some total))). }
  split.
  - apply Hinit; by rewrite Hs1.
  - apply Hinit; subst s2; rewrite Hs1; unfold App.run; simpl;
      unfold exec, App.handle, App.handleFileSelect, bind, App.setActiveFileId,
        App.setSidebarOpen, modify, gets, ret; simpl;
      by repeat (destruct (_ <? 768)%Z; simpl).
Qed.

(** Selecting a file, like resizing the window, always leaves the reader
    visible: on a narrow window the selection closes the sidebar, and a
    resize opens the sidebar only on a wide window, so [main] is never
    [hidden] right after either. *)
Theorem reader_visible_after_select_or_resize (s : App.state) :
  (forall id, App.mainHidden (exec (App.handle (App.FileSelect id)) s) = false)
  /\ (forall width, App.mainHidden (exec (App.handle (App.Resize width)) s) = false)
  /\ (forall w width, App.mainHidden (App.initial w width) = false).
Proof.
  unfold App.mainHidden, exec, App.handle, App.handleFileSelect, App.handleResize, bind,
    App.setActiveFileId, App.setSidebarOpen, modify, gets, ret.
  repeat split; intros; simpl.
  - destruct (App.innerWidth s <? 768)%Z eqn:Hw; simpl; [done|].
    by rewrite Hw, andb_false_r.
  - destruct (768 <=? width)%Z eqn:Hw; simpl; [|done]. lia.
  - destruct (768 <=? width)%Z eqn:Hw; simpl; [|done]. lia.
Qed.


(** *** Loading and importing *)

(** [loadData] when the host accepts the four requests. *)
Lemma loadData_accepted s :
  Db.accepts (App.world s)
    [Db.Open; Db.GetAllFromIndex Db.STORE_FILES;
     Db.Open; Db.GetAllFromIndex Db.STORE_HISTORY] ->
  let s' := exec App.loadData s in
  App.files s' =
    Db.byIndex StoredFile.createdAt StoredFile.id (Db.files (Db.contents (App.world s)))
  /\ App.history s' =
     Db.byIndex ReadingHistory.lastReadAt ReadingHistory.fileId
                (Db.history (Db.contents (App.world s)))
  /\ Host.console (Db.host (App.world s')) = Host.console (Db.host (App.world s)).
Proof.
  intros Hacc s'. subst s'.
  destruct (DbSpec.getFiles_accepted _ _ Hacc) as [Hfiles Hacc'].
  destruct (DbSpec.getHistory_accepted _ _ Hacc') as [Hhistory _].
  unfold exec, App.loadData, tryCatch, bind, App.db, zoom.
  rewrite Hfiles. cbn [App.world App.setWorld]. rewrite Hhistory. done.
Qed.

(** The first effect loads both lists or neither: either the file list and
    the progress list become the contents of the two stores (in index
    order), or -- a request having been rejected -- both lists stay as they
    were and the failure is logged.  The stores are only read. *)
Theorem loadData_all_or_nothing (s : App.state) :
  let s' := exec (App.handle App.Mount) s in
  let stored := Db.contents (App.world s) in
  let loaded :=
    App.files s' = Db.byIndex StoredFile.createdAt StoredFile.id (Db.files stored)
    /\ App.history s' =
       Db.byIndex ReadingHistory.lastReadAt ReadingHistory.fileId (Db.history stored)
    /\ Host.console (Db.host (App.world s')) = Host.console (Db.host (App.world s)) in
  Db.contents (App.world s') = stored
  /\ (loaded
      \/ (App.files s' = App.files s
          /\ App.history s' = App.history s
          /\ Host.console (Db.host (App.world s')) =
             Host.console (Db.host (App.world s)) ++ ["Failed to load data from DB"]))
  /\ (Db.accepts (App.world s)
        [Db.Open; Db.GetAllFromIndex Db.STORE_FILES;
         Db.Open; Db.GetAllFromIndex Db.STORE_HISTORY] -> loaded).
Proof.
  intros s' stored loaded. subst s' stored loaded.
  split; [|split; [|apply loadData_accepted]];
    unfold exec, App.handle, App.loadData;
    unfold App.db, App.setFiles, App.setHistory, App.consoleError, Db.getFiles,
      Db.getHistory, Db.getAllFilesByDate, Db.getAllHistoryByRead, Db.initDB, Db.called,
      Db.onHost, Db.send, Host.consoleError, Db.setHost, tryCatch, bind, zoom, modify, gets;
    simpl;
    repeat (match goal with
            | |- context [Db.fault ?w ?n ?r] => destruct (Db.fault w n r); simpl
            end);
    first [done|by right|by left].
Qed.

(** What [saveFile] does, whatever the host answers. *)
Lemma saveFile_outcome w file path :
  let w' := exec (Db.saveFile file path) w in
  Db.calls w' = Db.calls w ++ [Db.SaveFile (Db.fileName file)]
  /\ Db.fault w' = Db.fault w
  /\ Db.history (Db.contents w') = Db.history (Db.contents w)
  /\ Host.console (Db.host w') = Host.console (Db.host w)
  /\ match completion (Db.saveFile file path) w with
     | Return r =>
         App.savedFrom (fun _ => default "" path) file r
         /\ Db.files (Db.contents w') = <[StoredFile.id r := r]> (Db.files (Db.contents w))
     | Throw message =>
         Db.files (Db.contents w') = Db.files (Db.contents w)
         /\ (Db.reliable w -> Db.arrayBuffer file = Throw message)
     end.
Proof.
  unfold completion, exec.
  unfold Db.saveFile, Db.initDB, Db.putFile, Db.called, Db.onHost, Db.send,
    Host.dateNow, Host.randomUUID, Db.setContents, Db.setHost, bind, zoom, modify, ret,
    await.
  simpl.
  destruct (Db.fault w _ Db.Open) eqn:Hopen; simpl.
  { do 5 (split; [done|]). intros Hrel. by rewrite Hrel in Hopen. }
  destruct (Db.arrayBuffer file) as [data|message] eqn:Hdata; simpl; [|done].
  destruct (Db.fault w _ (Db.Put _ _)) eqn:Hput; simpl; [|done].
  do 5 (split; [done|]). intros Hrel. by rewrite Hrel in Hput.
Qed.

(** One turn of the import loop. *)
Lemma saveEach_cons label pathOf file selected newFiles s :
  App.saveEach label pathOf (file :: selected) newFiles s =
  match Db.saveFile file (Some (pathOf file)) (App.world s) with
  | (Return r, w1) =>
      App.saveEach label pathOf selected (newFiles ++ [r]) (App.setWorld w1 s)
  | (Throw _, w1) =>
      App.saveEach label pathOf selected newFiles
        (App.setWorld (exec (Db.onHost (Host.consoleError label)) w1) s)
  end.
Proof.
  simpl. unfold bind at 1. unfold tryCatch, bind at 1, App.db at 1, zoom at 1.
  destruct (Db.saveFile file (Some (pathOf file)) (App.world s)) as [[r|msg] w1]; [done|].
  unfold bind, ret, App.consoleError, App.db, zoom, exec. simpl.
  by destruct s.
Qed.

Lemma length_omap_le {A B} (g : A -> option B) l : length (omap g l) <= length l.
Proof. induction l as [|x l IH]; [done|]. csimpl. destruct (g x); simpl; lia. Qed.

(** The import loop, file by file: each selected file has an outcome, the
    record stored for it or [None] when its save failed. *)
Lemma saveEach_spec label pathOf selected newFiles s :
  let s' := exec (App.saveEach label pathOf selected newFiles) s in
  exists outcomes : list (option StoredFile.t),
    completion (App.saveEach label pathOf selected newFiles) s
    = Return (newFiles ++ omap id outcomes)
    /\ Forall2 (fun file outcome =>
                  match outcome with
                  | Some r => App.savedFrom pathOf file r
                  | None => True
                  end) selected outcomes
    /\ Host.console (Db.host (App.world s')) =
       Host.console (Db.host (App.world s))
       ++ replicate (length selected - length (omap id outcomes)) label
    /\ Db.calls (App.world s') =
       Db.calls (App.world s) ++ map (fun file => Db.SaveFile (Db.fileName file)) selected
    /\ Db.fault (App.world s') = Db.fault (App.world s)
    /\ (Db.reliable (App.world s) ->
        Forall2 (fun file outcome =>
                   outcome = None <-> exists message, Db.arrayBuffer file = Throw message)
                selected outcomes)
    /\ (forall k, k ∉ map StoredFile.id (omap id outcomes) ->
          Db.files (Db.contents (App.world s')) !! k =
          Db.files (Db.contents (App.world s)) !! k)
    /\ (NoDup (map StoredFile.id (omap id outcomes)) ->
        Forall (fun r => Db.files (Db.contents (App.world s')) !! StoredFile.id r = Some r)
               (omap id outcomes))
    /\ Db.history (Db.contents (App.world s')) = Db.history (Db.contents (App.world s))
    /\ App.files s' = App.files s
    /\ App.history s' = App.history s
    /\ App.activeFileId s' = App.activeFileId s.
Proof.
  revert newFiles s. induction selected as [|file selected IH]; intros newFiles s.
  { exists []. simpl. rewrite !app_nil_r. repeat split; by constructor. }
  destruct (saveFile_outcome (App.world s) file (Some (pathOf file)))
    as (Hcalls & Hfault & Hhist & Hcons & Hdone).
  unfold exec, completion in *. rewrite saveEach_cons.
  destruct (Db.saveFile file (Some (pathOf file)) (App.world s)) as [[r|msg] w1] eqn:Hsave;
    simpl in Hcalls, Hfault, Hhist, Hcons, Hdone.
  - destruct Hdone as [Hfrom Hfiles].
    destruct (IH (newFiles ++ [r]) (App.setWorld w1 s))
      as (outcomes & Hret & Hall & Hlog & Hcalls' & Hfault' & Hrel & Hframe
          & Hstored & Hhist' & Hf & Hh & Ha).
    simpl in *.
    exists (Some r :: outcomes). csimpl.
    split; [by rewrite Hret, <-app_assoc|].
    split; [by constructor|].
    split; [by rewrite Hlog, Hcons|].
    split; [by rewrite Hcalls', Hcalls, <-app_assoc|].
    split; [congruence|].
    split.
    { intros Hw. constructor.
      - destruct Hfrom as (_ & _ & _ & Hdata & _). split; [done|].
        intros (message & Hmessage). congruence.
      - apply Hrel. intros n q. rewrite Hfault. apply Hw. }
    split.
    { intros k Hk. apply not_elem_of_cons in Hk as [Hkr Hk].
      rewrite Hframe by done. rewrite Hfiles. by rewrite lookup_insert_ne. }
    split.
    { intros [Hr Hnd]%NoDup_cons. constructor; [|by apply Hstored].
      rewrite Hframe by done. rewrite Hfiles. by rewrite lookup_insert_eq. }
    split; [congruence|]. done.
  - destruct Hdone as [Hfiles Hwhy].
    match goal with
    | |- context [App.saveEach label pathOf selected newFiles ?s1] =>
        destruct (IH newFiles s1)
          as (outcomes & Hret & Hall & Hlog & Hcalls' & Hfault' & Hrel & Hframe
              & Hstored & Hhist' & Hf & Hh & Ha)
    end.
    simpl in *.
    exists (None :: outcomes). csimpl.
    split; [done|]. split; [by constructor|].
    split.
    { rewrite Hlog, Hcons, <-app_assoc. f_equal.
      pose proof (length_omap_le id outcomes) as Hle.
      apply Forall2_length in Hall.
      replace (S (length selected) - length (omap id outcomes))
        with (S (length selected - length (omap id outcomes))) by lia.
      done. }
    split; [by rewrite Hcalls', Hcalls, <-app_assoc|].
    split; [congruence|].
    split.
    { intros Hw. constructor.
      - split; [|done]. intros _. exists msg. by apply Hwhy.
      - apply Hrel. intros n q. change (Db.fault w1 n q = false).
        rewrite Hfault. apply Hw. }
    split.
    { intros k Hk. rewrite Hframe by done. by rewrite Hfiles. }
    split; [done|]. split; [congruence|]. done.
Qed.


Lemma handleImport_run selected s :
  App.handleImport selected s =
  (let! newFiles := App.saveEach "Error saving file" Db.fileName selected [] in
   App.setFiles (fun prev => prev ++ newFiles))%effect s.
Proof.
  destruct selected; [|done].
  unfold bind, App.setFiles, modify, ret. simpl. rewrite app_nil_r. by destruct s.
Qed.

Lemma handleFolderImport_run selected s :
  App.handleFolderImport selected s =
  (let! newFiles :=
     App.saveEach "Error saving file from folder"
       (fun file => Js.orElse (Db.webkitRelativePath file) (Db.fileName file))
       selected [] in
   App.setFiles (fun prev => prev ++ newFiles))%effect s.
Proof.
  destruct selected; [|done].
  unfold bind, App.setFiles, modify, ret. simpl. rewrite app_nil_r. by destruct s.
Qed.

(** The loop of an import followed by the update of the file list. *)
Lemma import_run label pathOf selected s :
  let s1 := exec (App.saveEach label pathOf selected []) s in
  let s' :=
    exec (let! newFiles := App.saveEach label pathOf selected [] in
          App.setFiles (fun prev => prev ++ newFiles))%effect s in
  exists outcomes : list (option StoredFile.t),
    App.files s' = App.files s ++ omap id outcomes
    /\ App.world s' = App.world s1
    /\ App.history s' = App.history s
    /\ App.activeFileId s' = App.activeFileId s
    /\ Forall2 (fun file outcome =>
                  match outcome with
                  | Some r => App.savedFrom pathOf file r
                  | None => True
                  end) selected outcomes
    /\ Host.console (Db.host (App.world s1)) =
       Host.console (Db.host (App.world s))
       ++ replicate (length selected - length (omap id outcomes)) label
    /\ Db.calls (App.world s1) =
       Db.calls (App.world s) ++ map (fun file => Db.SaveFile (Db.fileName file)) selected
    /\ (Db.reliable (App.world s) ->
        Forall2 (fun file outcome =>
                   outcome = None <-> exists message, Db.arrayBuffer file = Throw message)
                selected outcomes)
    /\ (NoDup (map StoredFile.id (omap id outcomes)) ->
        Forall (fun r => Db.files (Db.contents (App.world s1)) !! StoredFile.id r = Some r)
               (omap id outcomes))
    /\ Db.history (Db.contents (App.world s1)) = Db.history (Db.contents (App.world s)).
Proof.
  intros s1 s'. subst s1 s'.
  destruct (saveEach_spec label pathOf selected [] s)
    as (outcomes & Hret & Hall & Hlog & Hcalls & Hfault & Hrel & Hframe & Hstored
        & Hhist & Hf & Hh & Ha).
  unfold exec, completion, bind in *.
  destruct (App.saveEach label pathOf selected [] s) as [res s1]. simpl in *.
  subst res. simpl. exists outcomes. rewrite Hf, Hh, Ha. by repeat split.
Qed.

(** An import attempts every selected file and skips those whose save
    fails: [saveFile] is called once for each selected file, in order,
    whatever the host answers; each file either has its record appended to
    the file list -- the records keep the order of the selection, and each
    carries the name, type, size and bytes of its file --, or its save has
    failed and one line is logged for it.  A file whose bytes cannot be read
    fails; with a host that rejects no request no other file does.  A plain
    import stores the file's name as its path, a folder import the file's
    relative path (its name when that is empty).  The progress and the
    selection are not touched. *)
Theorem import_attempts_every_file (s : App.state) (selected : list Db.File) :
  App.imports "Error saving file" Db.fileName selected s
    (exec (App.handle (App.Import selected)) s)
  /\ App.imports "Error saving file from folder"
       (fun file => Js.orElse (Db.webkitRelativePath file) (Db.fileName file))
       selected s (exec (App.handle (App.FolderImport selected)) s).
Proof.
  split; unfold exec, App.handle;
    [rewrite handleImport_run|rewrite handleFolderImport_run];
    match goal with
    | |- App.imports ?label ?pathOf _ _ (snd ((let! newFiles := App.saveEach _ _ _ _ in _)%effect s)) =>
        destruct (import_run label pathOf selected s)
          as (outcomes & Hf & Hw & Hh & Ha & Hall & Hlog & Hcalls & Hrel & _ & Hhist)
    end;
    exists outcomes; unfold exec in *; rewrite Hw; by repeat split.
Qed.

(** What is imported is there on the next start: when the ids drawn for the
    imported files are pairwise distinct, every record the import appended
    to the file list is listed again by a shell that starts afresh on the
    same database (and is allowed to read it). *)
Theorem imported_files_survive_reload (s : App.state) (e : App.event)
    (selected : list Db.File) (width : Z) :
  let s1 := exec (App.handle e) s in
  let new := drop (length (App.files s)) (App.files s1) in
  let s2 := exec (App.handle App.Mount) (App.initial (App.world s1) width) in
  e = App.Import selected \/ e = App.FolderImport selected ->
  NoDup (map StoredFile.id new) ->
  Db.accepts (App.world s1)
    [Db.Open; Db.GetAllFromIndex Db.STORE_FILES;
     Db.Open; Db.GetAllFromIndex Db.STORE_HISTORY] ->
  App.files s1 = App.files s ++ new
  /\ forall r, r ∈ new -> r ∈ App.files s2.
Proof.
  intros s1 new s2 He Hnd Hacc.
  assert (exists new',
    App.files s1 = App.files s ++ new'
    /\ (NoDup (map StoredFile.id new') ->
        Forall (fun r => Db.files (Db.contents (App.world s1)) !! StoredFile.id r = Some r)
               new')) as (new' & Hf & Hstored).
  { subst s1. unfold exec, App.handle.
    destruct He as [-> | ->];
      [rewrite handleImport_run|rewrite handleFolderImport_run];
      match goal with
      | |- context [(let! newFiles := App.saveEach ?label ?pathOf _ _ in _)%effect s] =>
          destruct (import_run label pathOf selected s)
            as (outcomes & Hf & Hw & _ & _ & _ & _ & _ & _ & Hstored & _)
      end;
      exists (omap id outcomes); unfold exec in *; by rewrite Hw. }
  assert (new = new') as Hnew.
  { subst new. by rewrite Hf, drop_app_length. }
  rewrite <-Hnew in Hf, Hstored. split; [exact Hf|].
  intros r Hr.
  destruct (loadData_accepted (App.initial (App.world s1) width) Hacc) as (Hfiles & _).
  subst s2. change (exec (App.handle App.Mount) (App.initial (App.world s1) width))
    with (exec App.loadData (App.initial (App.world s1) width)).
  rewrite Hfiles. apply DbSpec.elem_of_byIndex.
  exists (StoredFile.id r). specialize (Hstored Hnd).
  rewrite Forall_forall in Hstored. by apply Hstored.
Qed.

(** *** Examples *)

(** A folder import of three files, the second of which cannot be read:
    the other two are appended, in order, and one failure is logged. *)
Lemma import_attempts_every_file_witness :
  let s := App.initial (AppSpec.world0 AppSpec.noFault) 1024 in
  let s' :=
    exec (App.handle (App.FolderImport [DbSpec.report; DbSpec.missing; DbSpec.notes])) s in
  map StoredFile.path (App.files s') = ["report.pdf"; "Papers/notes.pdf"]
  /\ Host.console (Db.host (App.world s')) = ["Error saving file from folder"].
Proof.
  intros s s'.
  destruct (import_attempts_every_file s [DbSpec.report; DbSpec.missing; DbSpec.notes])
    as [_ (outcomes & Hall & Hfiles & Hlog & _ & Hrel & _)].
  fold s' in Hfiles, Hlog.
  specialize (Hrel (fun n q => eq_refl)).
  apply Forall2_cons_inv_l in Hrel as (o1 & os1 & [H1 _] & Hrel & ->).
  apply Forall2_cons_inv_l in Hrel as (o2 & os2 & [_ H2] & Hrel & ->).
  apply Forall2_cons_inv_l in Hrel as (o3 & os3 & [H3 _] & Hrel & ->).
  apply Forall2_nil_inv_l in Hrel as ->.
  destruct o1 as [r1|]; [|by destruct (H1 eq_refl)].
  destruct o3 as [r3|]; [|by destruct (H3 eq_refl)].
  assert (o2 = None) as -> by (apply H2; by eexists).
  apply Forall2_cons_1 in Hall as [(_ & _ & _ & _ & Hp1) Hall].
  apply Forall2_cons_1 in Hall as [_ Hall].
  apply Forall2_cons_1 in Hall as [(_ & _ & _ & _ & Hp3) _].
  split.
  - rewrite Hfiles. change (App.files s) with (@nil StoredFile.t). csimpl.
    rewrite Hp1, Hp3. reflexivity.
  - rewrite Hlog. reflexivity.
Defined.

Definition rejectsHistory2 (r : Db.request) : bool :=
  match r with
  | Db.Delete Db.STORE_HISTORY "2" => true
  | _ => false
  end.

Lemma handleFileDelete_partial_failure_witness :
  map StoredFile.id
    (App.files (exec (App.handle (App.FileDelete "2")) (AppSpec.library rejectsHistory2)))
  = ["1"; "2"; "3"; "4"].
Proof.
  destruct (handleFileDelete_partial_failure (AppSpec.library rejectsHistory2) "2")
    as (_ & _ & Hfiles & _).
  - intros [|[|i]] q [= <-]; reflexivity.
  - reflexivity.
  - by rewrite Hfiles.
Defined.

Lemma reader_resumes_witness :
  App.initialPage
    (App.run [App.FileSelect "2"; App.PageChange 7 10; App.FileSelect "3";
              App.FileSelect "2"] (AppSpec.library AppSpec.noFault)) = 7%Z.
Proof.
  apply (reader_resumes_at_recorded_page (AppSpec.library AppSpec.noFault) "2" "3" 7 10).
  - reflexivity.
  - intros i q _. reflexivity.
Defined.

Lemma imported_files_survive_reload_witness :
  let s := App.initial (AppSpec.world0 AppSpec.noFault) 1024 in
  let s1 := exec (App.handle (App.Import [DbSpec.report; DbSpec.notes])) s in
  let new := drop (length (App.files s)) (App.files s1) in
  let s2 := exec (App.handle App.Mount) (App.initial (App.world s1) 1024) in
  App.files s1 = App.files s ++ new /\ forall r, r ∈ new -> r ∈ App.files s2.
Proof.
  apply (imported_files_survive_reload
           (App.initial (AppSpec.world0 AppSpec.noFault) 1024)
           (App.Import [DbSpec.report; DbSpec.notes]) [DbSpec.report; DbSpec.notes] 1024).
  - by left.
  - apply (bool_decide_unpack _). vm_compute. exact I.
  - intros i q _. reflexivity.
Defined.

End ShellSpec.

(** ** The assistant: what the adapter answers, what a send does *)

Module AssistantSpec.
Import Effect.

(** The adapter, case by case. *)
Lemma generateAIResponse_cases (env : GeminiService.sdk)
    (request : AIAnalysisRequest.t) (h : Host.t) :
  let answer :=
    GeminiService.generateContent env GeminiService.GEMINI_MODEL
      (GeminiService.requestParts request) GeminiService.systemInstruction in
  let failed := Host.logged "Gemini API Error:" h in
  GeminiService.generateAIResponse env request h =
  match GeminiService.API_KEY env with
  | None | Some "" => (Return "Error: API Key not found", failed)
  | Some _ =>
      match answer with
      | Return (Some (String c text)) => (Return (String c text), h)
      | Return _ => (Return "No response generated.", h)
      | Throw (String c message) => (Return ("Error: " +:+ String c message), failed)
      | Throw "" => (Return "Error: Failed to generate response", failed)
      end
  end.
Proof.
  intros answer failed. subst answer failed.
  unfold GeminiService.generateAIResponse, GeminiService.whenTruthy, await,
    Host.consoleError, Host.logged, tryCatch, bind, throw, ret, modify.
  destruct (GeminiService.API_KEY env) as [[|k key]|]; simpl; try done.
  destruct (GeminiService.generateContent env _ _ _) as [[[|c text]|]|[|c message]];
    simpl; done.
Qed.

(** The adapter never answers with an empty text, and it logs exactly when
    the call fails.  When the call fails (no key, or the hosted model
    rejects) the answer is "Error: " followed by a detail that is not empty,
    and one line is logged to the console.  Otherwise nothing is logged and
    the browser is as before; the answer is the model's text when there is
    one, and "No response generated." when that text is missing or empty. *)
Theorem generateAIResponse_answers (env : GeminiService.sdk)
    (request : AIAnalysisRequest.t) (h : Host.t) :
  let answer :=
    GeminiService.generateContent env GeminiService.GEMINI_MODEL
      (GeminiService.requestParts request) GeminiService.systemInstruction in
  exists reply h',
    GeminiService.generateAIResponse env request h = (Return reply, h')
    /\ reply <> ""
    /\ (GeminiService.fails env request ->
        h' = Host.logged "Gemini API Error:" h
        /\ exists detail, detail <> "" /\ reply = "Error: " +:+ detail)
    /\ (~ GeminiService.fails env request ->
        h' = h
        /\ match answer with
           | Return (Some (String c text)) => reply = String c text
           | _ => reply = "No response generated."
           end).
Proof.
  intros answer. rewrite generateAIResponse_cases. fold answer.
  unfold GeminiService.fails, GeminiService.whenTruthy. fold answer.
  destruct (GeminiService.API_KEY env) as [[|k key]|]; simpl.
  - eexists _, _. split; [reflexivity|]. split; [done|]. split.
    + intros _. split; [done|]. by exists "API Key not found".
    + intros Hok. destruct Hok. by left.
  - destruct answer as [[[|c text]|]|[|c message]] eqn:Hanswer;
      (eexists _, _; split; [reflexivity|]; split; [done|]; split).
    + intros [?|(message & ?)]; done.
    + done.
    + intros [?|(message & ?)]; done.
    + done.
    + intros [?|(message & ?)]; done.
    + done.
    + intros _. split; [done|]. by exists "Failed to generate response".
    + intros Hok. destruct Hok. right. by exists "".
    + intros _. split; [done|]. by exists (String c message).
    + intros Hok. destruct Hok. right. by exists (String c message).
  - eexists _, _. split; [reflexivity|]. split; [done|]. split.
    + intros _. split; [done|]. by exists "API Key not found".
    + intros Hok. destruct Hok. by left.
Qed.

(** *** The guard of the chat panel *)

(** Trimming the start twice is trimming it once: what [trimStart] leaves
    does not start with white space. *)
Lemma trimStart_idem s : Js.trimStart (Js.trimStart s) = Js.trimStart s.
Proof.
  remember (String.length s) as n eqn:Hn.
  assert (String.length s <= n) as Hle by lia. clear Hn.
  revert s Hle. induction n as [|n IH]; intros s Hle.
  { destruct s; [done|simpl in Hle; lia]. }
  destruct s as [|c1 s1]; [done|]. cbn [Js.trimStart]. simpl in Hle.
  destruct (Js.isWhiteSpace (String c1 "")) eqn:H1; [apply IH; lia|].
  destruct s1 as [|c2 s2]; [cbn [Js.trimStart]; by rewrite H1|]. simpl in Hle.
  destruct (Js.isWhiteSpace (String c1 (String c2 ""))) eqn:H2; [apply IH; lia|].
  destruct s2 as [|c3 s3]; [cbn [Js.trimStart]; by rewrite H1, H2|]. simpl in Hle.
  destruct (Js.isWhiteSpace (String c1 (String c2 (String c3 "")))) eqn:H3;
    [apply IH; lia|].
  cbn [Js.trimStart]. by rewrite H1, H2, H3.
Qed.

Lemma trimEnd_empty s : Js.trimEnd s = "" -> Js.blank s = true.
Proof. destruct s as [|c s]; [done|]. cbn [Js.trimEnd]. by destruct (Js.blank _). Qed.

(** [input.trim()] is empty exactly when the input is made of white space. *)
Lemma trim_blank s : Js.truthy (Js.trim s) = false <-> Js.blank s = true.
Proof.
  unfold Js.trim, Js.blank. split.
  - intros Hs. destruct (Js.trimEnd (Js.trimStart s)) eqn:Ht; [|done].
    apply trimEnd_empty in Ht. unfold Js.blank in Ht. by rewrite trimStart_idem in Ht.
  - intros Hb. by destruct (Js.trimStart s).
Qed.

(** A send is ignored when the input is empty or made of white space only,
    and while an answer is awaited: the transcript, the input and the
    browser are exactly as before (no message is added, no id is drawn, the
    assistant is not called). *)
Theorem handleSend_ignores_blank_and_busy (env : GeminiService.sdk)
    (p : ChatPanel.props) (s : ChatPanel.state) :
  Js.blank (ChatPanel.input s) = true \/ ChatPanel.isLoading s = true ->
  ChatPanel.handleSend env p s = (Return tt, s).
Proof.
  intros Hguard. unfold ChatPanel.handleSend.
  destruct Hguard as [Hb|Hl].
  - apply trim_blank in Hb. by rewrite Hb.
  - by rewrite Hl, orb_true_r.
Qed.

(** A send that passes the guard adds exactly one exchange to the
    transcript: when the id drawn for the answer is not that of an earlier
    message nor that of the question, the transcript is the old one, then
    the question with the text as typed (not trimmed), then the answer with
    the text the assistant returned; the input is cleared and the panel is
    no longer loading. *)
Theorem handleSend_appends_exchange (env : GeminiService.sdk)
    (p : ChatPanel.props) (s : ChatPanel.state) :
  let h := ChatPanel.host s in
  let userId := Host.uuid h (Host.drawn h) in
  let modelId := Host.uuid h (S (Host.drawn h)) in
  let request :=
    AIAnalysisRequest.Build (ChatPanel.pdfPageText p) (ChatPanel.pdfPageImage p)
                            (ChatPanel.input s) in
  let s' := exec (ChatPanel.handleSend env p) s in
  Js.blank (ChatPanel.input s) = false ->
  ChatPanel.isLoading s = false ->
  modelId ∉ map ChatMessage.id (ChatPanel.messages s) ->
  modelId <> userId ->
  exists reply,
    (forall h0, completion (GeminiService.generateAIResponse env request) h0 = Return reply)
    /\ ChatPanel.messages s' =
       ChatPanel.messages s ++
       [ChatMessage.Build userId ChatMessage.user (ChatPanel.input s) None
          (Host.clock h (Host.ticks h));
        ChatMessage.Build modelId ChatMessage.model reply (Some false)
          (Host.clock h (S (Host.ticks h)))]
    /\ ChatPanel.input s' = ""
    /\ ChatPanel.isLoading s' = false.
Proof.
  intros h userId modelId request s' Hblank Hloading Hfresh Hne.
  assert (Js.truthy (Js.trim (ChatPanel.input s)) = true) as Hinput.
  { destruct (Js.truthy (Js.trim (ChatPanel.input s))) eqn:Ht; [done|].
    apply trim_blank in Ht. congruence. }
  destruct (ChatSpec.generateAIResponse_run env request) as (reply & Hreply & Hrun & _).
  exists reply. split; [exact Hreply|]. subst s'.
  unfold exec, ChatPanel.handleSend. rewrite Hinput, Hloading. simpl.
  unfold bind, ChatPanel.onHost, zoom, Host.randomUUID, Host.dateNow,
    ChatPanel.setMessages, ChatPanel.setInput, ChatPanel.setIsLoading, modify.
  simpl. fold request.
  match goal with
  | |- context [GeminiService.generateAIResponse env request ?h1] =>
      destruct (Hrun h1) as (h' & ->)
  end.
  simpl. split; [|done].
  rewrite <-app_assoc. simpl. rewrite map_app. f_equal.
  - rewrite <-(map_id (ChatPanel.messages s)) at 2. apply map_ext_in.
    intros m Hm. unfold ChatPanel.fillIn.
    match goal with
    | |- context [String.eqb ?a ?b] => destruct (String.eqb_spec a b) as [Heq|]; [|done]
    end.
    destruct Hfresh. subst modelId h. rewrite <-Heq. apply list_elem_of_fmap_2.
    by apply list_elem_of_In.
  - simpl. unfold ChatPanel.fillIn. simpl. rewrite String.eqb_refl.
    match goal with
    | |- context [String.eqb ?a ?b] => destruct (String.eqb_spec a b) as [Heq|]; [|done]
    end.
    by destruct Hne.
Qed.

(** *** Examples *)

(** Trimming removes the white space of every kind at both ends and keeps
    the white space inside: here a no-break space (U+00A0) and a space in
    front, a space and an ideographic space (U+3000) behind. *)
Example trim_scenario :
  Js.trim (Js.utf8 160 +:+ " a  b " +:+ Js.utf8 12288) = "a  b"
  /\ Js.blank (" " +:+ Js.utf8 160 +:+ Js.utf8 8232) = true
  /\ Js.blank "" = true
  /\ Js.blank " a " = false.
Proof. repeat split. Qed.

(** An input made of a space, a no-break space and a line separator. *)
Definition spaces : string := " " +:+ Js.utf8 160 +:+ Js.utf8 8232.

Lemma handleSend_ignores_blank_witness :
  ChatPanel.handleSend ChatSpec.offline (ChatPanel.Props None None)
    (ChatPanel.State [] spaces false AppSpec.host0)
  = (Return tt, ChatPanel.State [] spaces false AppSpec.host0).
Proof.
  apply (handleSend_ignores_blank_and_busy ChatSpec.offline (ChatPanel.Props None None)
           (ChatPanel.State [] spaces false AppSpec.host0)).
  left. reflexivity.
Defined.

Lemma handleSend_appends_exchange_witness :
  map ChatMessage.text
    (ChatPanel.messages
       (exec (ChatPanel.handleSend ChatSpec.offline (ChatPanel.Props None None))
             ChatSpec.asking))
  = ["What is on this page?"; "Error: Failed to fetch"].
Proof.
  destruct (handleSend_appends_exchange ChatSpec.offline (ChatPanel.Props None None)
              ChatSpec.asking) as (reply & Hreply & Hmessages & _).
  - reflexivity.
  - reflexivity.
  - apply not_elem_of_nil.
  - discriminate.
  - rewrite Hmessages. specialize (Hreply AppSpec.host0).
    injection Hreply as <-. reflexivity.
Defined.

End AssistantSpec.

(** ** The reader: gestures, a stale page *)

Module GestureSpec.
Import PDFReader.
Local Open Scope Z_scope.

Lemma current_nonzero x : x <> 0 -> current (Some x) = Some x.
Proof. by destruct x. Qed.

(** A swipe turns the page exactly when it is long and flat enough: after a
    touch that starts at [(x0, y0)] and moves to [(x1, y1)], none of the
    coordinates being 0, lifting the finger turns one page forward when the
    finger went left by more than 50 and more than 1.5 times as far as
    vertically, and a next page exists; one page back in the mirrored case;
    and otherwise changes and reports nothing. *)
Theorem swipe_turns_one_page (s : state) (x0 y0 x1 y1 : Z) :
  let n := totalOr1 (numPages s) in
  let p := pageNumber s in
  let flat := 3 * Z.abs (y0 - y1) <? 2 * Z.abs (x0 - x1) in
  let s' := run [TouchStart x0 y0; TouchMove x1 y1; TouchEnd] s in
  x0 <> 0 -> y0 <> 0 -> x1 <> 0 -> y1 <> 0 ->
  1 <= p <= n ->
  (pageNumber s', reported s') =
    if flat && (50 <? x0 - x1) && (p <? n) then (p + 1, reported s ++ [(p + 1, n)])
    else if flat && (x0 - x1 <? -50) && (1 <? p) then (p - 1, reported s ++ [(p - 1, n)])
    else (p, reported s).
Proof.
  intros n p flat s' Hx0 Hy0 Hx1 Hy1 Hp. subst n p flat s'.
  unfold run. cbn [fold_left handle]. unfold onTouchEnd, onTouchStart, onTouchMove.
  cbn [touchStart touchEnd touchYStart touchYEnd numPages pageNumber reported].
  rewrite !current_nonzero by done. cbv zeta. unfold minSwipeDistance.
  change (- (50)) with (-50).
  generalize (x0 - x1) (y0 - y1). intros dx dy.
  destruct (3 * Z.abs dy <? 2 * Z.abs dx); [|done]. cbn [andb].
  destruct (50 <? dx) eqn:Hleft; cbn [andb].
  - destruct (pageNumber s <? totalOr1 (numPages s)) eqn:Hnext.
    + unfold changePage. cbn [numPages pageNumber reported].
      replace (Z.min (Z.max 1 (pageNumber s + 1)) (totalOr1 (numPages s)))
        with (pageNumber s + 1) by lia. done.
    + assert ((dx <? -50) = false) as -> by lia. by cbn [andb].
  - destruct ((dx <? -50) && (1 <? pageNumber s)) eqn:Hback; [|done].
    apply andb_prop in Hback as [_ Hprev].
    unfold changePage. cbn [numPages pageNumber reported].
    replace (Z.min (Z.max 1 (pageNumber s + -1)) (totalOr1 (numPages s)))
      with (pageNumber s - 1) by lia. done.
Qed.

(** The gestures that are not swipes: a touch that ends without having
    moved, and a touch one of whose coordinates is exactly 0 (the handler
    reads a 0 as a missing value), turn no page and report nothing. *)
Theorem taps_and_zero_coordinates_are_ignored (s : state) (x0 y0 x1 y1 : Z) :
  let tap := run [TouchStart x0 y0; TouchEnd] s in
  let swipe := run [TouchStart x0 y0; TouchMove x1 y1; TouchEnd] s in
  (pageNumber tap = pageNumber s /\ reported tap = reported s)
  /\ (x0 = 0 \/ y0 = 0 \/ x1 = 0 \/ y1 = 0 ->
      pageNumber swipe = pageNumber s /\ reported swipe = reported s).
Proof.
  intros tap swipe. subst tap swipe. unfold run. simpl.
  unfold onTouchEnd, onTouchStart, onTouchMove, current. simpl. split.
  - by destruct x0.
  - intros [-> |[-> |[-> | ->]]]; simpl; try done;
      repeat (match goal with
              | |- context [match ?x with 0 => _ | Z.pos _ => _ | Z.neg _ => _ end] =>
                  destruct x; simpl
              end); done.
Qed.

(** A page recorded beyond the end of the document is not corrected when
    the document loads: [onDocumentLoadSuccess] reports it as it is, with
    the page count.  The next button is then disabled, and the first turn of
    the page -- the previous button or a tap on either zone -- brings the
    page to the last one. *)
Theorem stale_page_is_reported_then_clamped (s : state) (n : N) :
  let s1 := onDocumentLoadSuccess n s in
  (0 < n)%N -> Z.of_N n < pageNumber s ->
  pageNumber s1 = pageNumber s
  /\ reported s1 = reported s ++ [(pageNumber s, Z.of_N n)]
  /\ handle NextButton s1 = s1
  /\ pageNumber (handle PreviousButton s1) = Z.of_N n
  /\ (forall d, pageNumber (handle (ZoneClick d) s1) = Z.of_N n).
Proof.
  intros s1 Hn Hp. subst s1.
  assert (totalOr1 (Some n) = Z.of_N n) as Htotal by (destruct n; [lia|done]).
  unfold handle, nextButton, previousButton, handleZoneClick, changePage,
    onDocumentLoadSuccess.
  cbn [numPages pageNumber reported]. rewrite Htotal.
  split; [done|]. split; [done|]. split; [|split].
  - destruct (Z.of_N n <=? pageNumber s) eqn:H; [done|lia].
  - destruct (pageNumber s <=? 1) eqn:H; cbn [pageNumber]; lia.
  - intros []; lia.
Qed.

(** The width handed to the page never exceeds the container: it is the
    container's width below 768, and otherwise the width less 64, capped at
    1000. *)
Lemma pdfRenderWidth_fits (containerWidth : Z) :
  pdfRenderWidth containerWidth <= containerWidth
  /\ (768 <= containerWidth -> 704 <= pdfRenderWidth containerWidth <= 1000)
  /\ (containerWidth < 768 -> pdfRenderWidth containerWidth = containerWidth).
Proof.
  unfold pdfRenderWidth, isMobile.
  destruct (containerWidth <? 768) eqn:H; lia.
Qed.

(** *** Examples *)

Lemma swipe_turns_one_page_witness :
  let s' := run [TouchStart 300 200; TouchMove 100 210; TouchEnd] (initial (Some 10%N) 3) in
  (pageNumber s', reported s') = (4, [(4, 10)]).
Proof.
  etransitivity;
    [apply (swipe_turns_one_page (initial (Some 10%N) 3) 300 200 100 210);
     first [discriminate|simpl; lia]|].
  reflexivity.
Defined.

Lemma stale_page_witness :
  pageNumber (handle PreviousButton (onDocumentLoadSuccess 10 (initial None 12))) = 10%Z.
Proof.
  apply (stale_page_is_reported_then_clamped (initial None 12) 10); simpl; lia.
Defined.

End GestureSpec.

(** ** The reader: the zoom *)

Module ZoomSpec.
Import PDFReader.

(** Equality of two numbers, as values. *)
Definition sameNumber (a b : Number.t) : bool :=
  match a, b with
  | SpecFloat.S754_zero s, SpecFloat.S754_zero s' => Bool.eqb s s'
  | SpecFloat.S754_infinity s, SpecFloat.S754_infinity s' => Bool.eqb s s'
  | SpecFloat.S754_nan, SpecFloat.S754_nan => true
  | SpecFloat.S754_finite s m e, SpecFloat.S754_finite s' m' e' =>
      Bool.eqb s s' && Pos.eqb m m' && Z.eqb e e'
  | _, _ => false
  end.

Lemma sameNumber_eq a b : sameNumber a b = true -> a = b.
Proof.
  destruct a as [s|s| |s m e], b as [s'|s'| |s' m' e']; simpl; try done.
  - by intros ->%Bool.eqb_prop.
  - by intros ->%Bool.eqb_prop.
  - intros [[->%Bool.eqb_prop ->%Pos.eqb_eq]%andb_prop ->%Z.eqb_eq]%andb_prop. done.
Qed.

(** The scales the two buttons lead to, starting from [seen] and the scales
    still to visit. *)
Fixpoint explore (fuel : nat) (todo seen : list Number.t) : list Number.t :=
  match fuel, todo with
  | S fuel, scale :: todo =>
      if existsb (sameNumber scale) seen then explore fuel todo seen
      else explore fuel (zoomIn scale :: zoomOut scale :: todo) (scale :: seen)
  | _, _ => seen
  end.

(** The scales that can be reached from the initial one. *)
Definition scales : list Number.t := Eval vm_compute in explore 200 [initialScale] [].

Definition among (l : list Number.t) (x : Number.t) : bool := existsb (sameNumber x) l.

Lemma among_In l x : among l x = true -> In x l.
Proof.
  unfold among. intros (y & Hy & Heq)%existsb_exists.
  apply sameNumber_eq in Heq. by subst.
Qed.

Lemma scales_closed :
  forallb (fun x => among scales (zoomIn x) && among scales (zoomOut x)) scales = true.
Proof. vm_compute. reflexivity. Qed.

Lemma scales_ok :
  forallb (fun x =>
    Number.leb half x && Number.leb x (Number.ofZ 2)
    && existsb (fun k => sameNumber (zoomLabel x) (Number.ofZ (10 * k)))
               [5; 6; 7; 8; 9; 10; 11; 12; 13; 14; 15; 16; 17; 18; 19; 20]%Z)
    scales = true.
Proof. vm_compute. reflexivity. Qed.

Lemma scales_initial : among scales initialScale = true.
Proof. vm_compute. reflexivity. Qed.

Lemma zoomClick_scales scale z : In scale scales -> In (zoomClick scale z) scales.
Proof.
  intros Hin. pose proof scales_closed as Hclosed.
  rewrite forallb_forall in Hclosed. specialize (Hclosed scale Hin).
  apply andb_prop in Hclosed as [Hi Ho].
  destruct z; [exact (among_In _ _ Ho)|exact (among_In _ _ Hi)].
Qed.

(** However the zoom buttons are pressed, starting from the initial scale
    of 1, the scale stays between 0.5 and 2 and the label between the
    buttons shows a multiple of 10 from 50 to 200: the rounding errors of
    the repeated steps of 0.1 never show, and never carry the scale out of
    its range. *)
Theorem zoom_stays_in_range (clicks : list zoom) :
  let scale := fold_left zoomClick clicks initialScale in
  Number.leb half scale = true
  /\ Number.leb scale (Number.ofZ 2) = true
  /\ exists k, (5 <= k <= 20)%Z /\ zoomLabel scale = Number.ofZ (10 * k).
Proof.
  intros scale.
  assert (In scale scales) as Hin.
  { subst scale. generalize initialScale, (among_In _ _ scales_initial).
    induction clicks as [|z clicks IH]; intros x Hx; [exact Hx|].
    cbn [fold_left]. apply IH. by apply zoomClick_scales. }
  pose proof scales_ok as Hok. rewrite forallb_forall in Hok.
  specialize (Hok scale Hin).
  apply andb_prop in Hok as [[Hlo Hhi]%andb_prop Hlabel].
  split; [done|]. split; [done|].
  apply existsb_exists in Hlabel as (k & Hk & Heq).
  exists k. split; [|by apply sameNumber_eq].
  simpl in Hk. intuition lia.
Qed.

End ZoomSpec.

(** ** The tree: what every node is like *)

Module TreeFacts.
Import Js TreeNode Sidebar SortFacts ListFacts SidebarFacts.

Lemma joinAll_snoc pre part : joinAll (pre ++ [part]) = joinPath (joinAll pre) part.
Proof. unfold joinAll. by rewrite fold_left_app. Qed.

Lemma key_withChildren n c : key (withChildren n c) = key n.
Proof. by destruct n. Qed.

Lemma find_None_key part ty level :
  find (isNode part ty) level = None -> (part, ty) ∉ map key level.
Proof.
  intros Hfind (n & Hkey & Hin)%list_elem_of_fmap.
  apply list_elem_of_In in Hin.
  pose proof (find_none _ _ Hfind n Hin) as Hn.
  unfold key in Hkey. injection Hkey as -> ->.
  unfold isNode in Hn. rewrite String.eqb_refl in Hn. by destruct (type n).
Qed.

Lemma NoDup_snoc {A} (l : list A) x : NoDup l -> x ∉ l -> NoDup (l ++ [x]).
Proof.
  intros Hl Hx. apply NoDup_app. split; [done|]. split; [|apply NoDup_singleton].
  by intros y Hy ->%list_elem_of_singleton.
Qed.

Lemma addParts_nonempty f cp ps level :
  ps <> [] -> addParts f cp ps level <> [].
Proof.
  destruct ps as [|part [|r rest]]; [done| |]; intros _.
  - rewrite addParts_file. destruct (find _ level) eqn:Hfind.
    + by destruct level.
    + by destruct level.
  - rewrite addParts_folder. destruct (find _ level) as [node|] eqn:Hfind.
    + destruct (find_Some_split _
        (fun node => withChildren node
           (addParts f (joinPath cp part) (r :: rest) (children node))) _ _ Hfind)
        as (l1 & l2 & -> & ->). by destruct l1.
    + by destruct level.
Qed.

Section WellFormed.
Variable F : StoredFile.t -> Prop.

(** A node reached by the names [pre] is as the projector builds it. *)
Definition shape (pre : list string) (n : t) : Prop :=
  path n = joinAll (pre ++ [name n])
  /\ match type n with
     | file =>
         children n = []
         /\ exists f, F f /\ parts f = pre ++ [name n]
                      /\ id n = StoredFile.id f
                      /\ fileId n = Some (StoredFile.id f)
                      /\ size n = Some (StoredFile.size f)
     | folder =>
         children n <> [] /\ id n = path n /\ fileId n = None /\ size n = None
         /\ exists f rest, F f /\ rest <> [] /\ parts f = (pre ++ [name n]) ++ rest
     end
  /\ NoDup (map key (children n)).

Fixpoint wf (pre : list string) (n : t) : Prop :=
  shape pre n /\
  (fix all (l : list t) : Prop :=
     match l with
     | [] => True
     | c :: l' => wf (pre ++ [name n]) c /\ all l'
     end) (children n).

Lemma wf_eq pre n :
  wf pre n <-> shape pre n /\ Forall (wf (pre ++ [name n])) (children n).
Proof.
  destruct n as [i nm p ty cs fi sz]. simpl.
  apply and_iff_compat_l.
  induction cs as [|c cs IH]; simpl.
  - split; [constructor|done].
  - rewrite Forall_cons, IH. done.
Qed.

Definition wfLevel (pre : list string) (level : list t) : Prop :=
  NoDup (map key level) /\ Forall (wf pre) level.

Lemma wfLevel_nil pre : wfLevel pre [].
Proof. split; constructor. Qed.

Lemma wf_children pre n : wf pre n -> wfLevel (pre ++ [name n]) (children n).
Proof. intros [(_ & _ & Hnd) Hall]%wf_eq. by split. Qed.

Lemma addParts_wf f :
  F f ->
  forall ps pre level,
    ps <> [] -> parts f = pre ++ ps -> wfLevel pre level ->
    wfLevel pre (addParts f (joinAll pre) ps level).
Proof.
  intros Hf. induction ps as [|part rest IH]; intros pre level Hne Hparts [Hnd Hall];
    [done|].
  destruct rest as [|r rest].
  - rewrite addParts_file. destruct (find _ level) eqn:Hfind; [done|].
    split.
    + rewrite map_app. apply NoDup_snoc; [done|]. by apply find_None_key.
    + apply Forall_app. split; [done|]. apply Forall_singleton, wf_eq.
      split; [|constructor]. unfold shape. cbn [path name type children id fileId size].
      split; [by rewrite joinAll_snoc|]. split; [|constructor].
      split; [done|]. by exists f.
  - rewrite addParts_folder. destruct (find _ level) as [node|] eqn:Hfind.
    + destruct (find_Some_split _
        (fun node => withChildren node
           (addParts f (joinPath (joinAll pre) part) (r :: rest) (children node)))
        _ _ Hfind) as (l1 & l2 & -> & ->).
      apply find_Some_true, isNode_inv in Hfind as [Hname Htype].
      apply Forall_app in Hall as [Hl1 [Hnode Hl2]%Forall_cons].
      pose proof Hnode as [(Hpath & Hkind & Hkeys) Hkids]%wf_eq.
      rewrite Htype in Hkind. destruct Hkind as (_ & Hid & Hfi & Hsz & Hwit).
      assert (wfLevel (pre ++ [part])
                (addParts f (joinAll (pre ++ [part])) (r :: rest) (children node)))
        as [Hnd' Hall'].
      { apply IH; [done|by rewrite <-app_assoc|]. rewrite <-Hname. by apply wf_children. }
      rewrite joinAll_snoc in Hnd', Hall'.
      split.
      * rewrite map_app in *. simpl in *. by rewrite key_withChildren.
      * apply Forall_app. split; [done|]. constructor; [|done].
        apply wf_eq. rewrite children_withChildren.
        replace (name (withChildren node
                   (addParts f (joinPath (joinAll pre) part) (r :: rest) (children node))))
          with (name node) by (by destruct node).
        rewrite Hname. split; [|done]. unfold shape.
        rewrite children_withChildren.
        replace (path (withChildren node _)) with (path node) by (by destruct node).
        replace (name (withChildren node _)) with (name node) by (by destruct node).
        replace (type (withChildren node _)) with (type node) by (by destruct node).
        replace (id (withChildren node _)) with (id node) by (by destruct node).
        replace (fileId (withChildren node _)) with (fileId node) by (by destruct node).
        replace (size (withChildren node _)) with (size node) by (by destruct node).
        rewrite Htype. split; [done|]. split; [|done].
        split; [by apply addParts_nonempty|]. done.
    + assert (wfLevel (pre ++ [part])
                (addParts f (joinAll (pre ++ [part])) (r :: rest) [])) as [Hnd' Hall'].
      { apply IH; [done|by rewrite <-app_assoc|apply wfLevel_nil]. }
      rewrite joinAll_snoc in Hnd', Hall'.
      split.
      * rewrite map_app. apply NoDup_snoc; [done|]. by apply find_None_key.
      * apply Forall_app. split; [done|]. apply Forall_singleton, wf_eq.
        cbn [name children]. split; [|done]. unfold shape.
        cbn [path name type children id fileId size].
        split; [by rewrite joinAll_snoc|]. split; [|done].
        split; [by apply addParts_nonempty|]. do 3 (split; [done|]).
        exists f, (r :: rest). split; [done|]. split; [done|].
        by rewrite <-app_assoc.
Qed.

Lemma fold_insertFile_wf fs forest :
  (forall f, f ∈ fs -> F f) -> wfLevel [] forest ->
  wfLevel [] (fold_left insertFile fs forest).
Proof.
  revert forest. induction fs as [|f fs IH]; intros forest HF Hwf; [done|].
  simpl. apply IH; [intros g Hg; apply HF; by right|].
  apply (addParts_wf f); [apply HF; left|apply parts_nonempty|done|done].
Qed.

Section Sorted.
Context `{Collator}.

Lemma key_sortNode n : key (sortNode n) = key n.
Proof. by destruct n. Qed.

Lemma sortNodes_keys level : map key (sortNodes level) ≡ₚ map key level.
Proof.
  rewrite (sortNodes_Permutation level), map_map.
  erewrite map_ext; [done|]. intros n. apply key_sortNode.
Qed.

Lemma sortNode_wf pre n : wf pre n -> wf pre (sortNode n).
Proof.
  revert pre. induction n as [n IH] using tree_ind'. intros pre.
  rewrite !wf_eq. intros [(Hpath & Hkind & Hkeys) Hkids].
  rewrite sortNode_name, sortNode_children.
  split.
  - unfold shape. rewrite sortNode_name, sortNode_type, sortNode_children.
    split; [by destruct n|]. split.
    + destruct n as [i nm p ty cs fi sz]. simpl in *. destruct ty.
      * destruct Hkind as [-> Hrest]. done.
      * destruct Hkind as (Hne & Hrest). split; [|done].
        intros Hnil. apply Hne.
        pose proof (sortNodes_Permutation cs) as Hperm. rewrite Hnil in Hperm.
        apply Permutation_nil_l in Hperm. by destruct cs.
    + by rewrite sortNodes_keys.
  - apply Forall_forall. intros c Hc.
    rewrite (sortNodes_Permutation (children n)) in Hc.
    apply list_elem_of_fmap in Hc as (c' & -> & Hc').
    rewrite Forall_forall in IH, Hkids. by apply IH, Hkids.
Qed.

Lemma sortNodes_wf pre level : wfLevel pre level -> wfLevel pre (sortNodes level).
Proof.
  intros [Hnd Hall]. split; [by rewrite sortNodes_keys|].
  apply Forall_forall. intros c Hc.
  rewrite (sortNodes_Permutation level) in Hc.
  apply list_elem_of_fmap in Hc as (c' & -> & Hc').
  rewrite Forall_forall in Hall. by apply sortNode_wf, Hall.
Qed.

End Sorted.

(** Every node of a well-formed level is well formed under some names. *)
Lemma wfLevel_allNodes pre level n :
  wfLevel pre level -> n ∈ allNodes level -> exists pre', wf pre' n.
Proof.
  intros [_ Hall] Hn. unfold allNodes in Hn.
  apply elem_of_flat_map in Hn as (r & Hr & Hn).
  rewrite Forall_forall in Hall. specialize (Hall r Hr). clear Hr level.
  revert pre Hall Hn. induction r as [r IH] using tree_ind'. intros pre Hwf Hn.
  destruct r as [i nm p ty cs fi sz]. simpl in Hn.
  apply elem_of_cons in Hn as [->|Hn]; [by exists pre|].
  apply elem_of_flat_map in Hn as (c & Hc & Hn).
  apply wf_eq in Hwf as [_ Hkids]. simpl in *.
  rewrite Forall_forall in IH, Hkids.
  by apply (IH c Hc (pre ++ [nm])); [apply Hkids|].
Qed.

Lemma wfLevel_levels pre level :
  wfLevel pre level -> Forall (fun l => NoDup (map key l)) (levels level).
Proof.
  assert (forall n pre, wf pre n -> Forall (fun l => NoDup (map key l)) (levelsBelow n))
    as Hnode.
  { induction n as [n IH] using tree_ind'. intros pre' [(_ & _ & Hkeys) Hkids]%wf_eq.
    destruct n as [i nm p ty cs fi sz]. simpl in *.
    constructor; [done|]. apply Forall_forall. intros l Hl.
    apply elem_of_flat_map in Hl as (c & Hc & Hl).
    rewrite Forall_forall in IH, Hkids.
    specialize (IH c Hc _ (Hkids c Hc)). rewrite Forall_forall in IH. by apply IH. }
  intros [Hnd Hall]. unfold levels. constructor; [done|].
  apply Forall_forall. intros l Hl.
  apply elem_of_flat_map in Hl as (c & Hc & Hl).
  rewrite Forall_forall in Hall. specialize (Hnode c pre (Hall c Hc)).
  rewrite Forall_forall in Hnode. by apply Hnode.
Qed.

End WellFormed.

Lemma treeData_wf `{Collator} files :
  wfLevel (fun f => f ∈ files) [] (treeData files).
Proof.
  apply sortNodes_wf, fold_insertFile_wf; [|apply wfLevel_nil].
  intros f Hf. unfold sortedFiles in Hf. by rewrite elem_of_sortBy in Hf.
Qed.

End TreeFacts.

(** ** Paths as strings *)

Module PathFacts.
Import Js TreeNode Sidebar SortFacts ListFacts SidebarFacts TreeFacts.

(** The segments joined by "/". *)
Fixpoint joined (ps : list string) : string :=
  match ps with
  | [] => ""
  | p :: ps' =>
      match ps' with
      | [] => p
      | _ :: _ => p +:+ "/" +:+ joined ps'
      end
  end.

(** The string has no "/". *)
Fixpoint noSlash (s : string) : bool :=
  match s with
  | EmptyString => true
  | String c s' => negb (Ascii.eqb c "/") && noSlash s'
  end.

Lemma append_nil_r (a : string) : a +:+ "" = a.
Proof. induction a as [|x a IH]; [done|]. change (String x (a +:+ "") = String x a). by f_equal. Qed.

Lemma append_cons x (a b : string) : String x a +:+ b = String x (a +:+ b).
Proof. done. Qed.

Lemma joined_cons p q ps : joined (p :: q :: ps) = p +:+ "/" +:+ joined (q :: ps).
Proof. done. Qed.

Lemma joined_app ps qs :
  ps <> [] -> qs <> [] -> joined (ps ++ qs) = joined ps +:+ "/" +:+ joined qs.
Proof.
  induction ps as [|p ps IH]; intros Hps Hqs; [done|].
  destruct ps as [|p' ps].
  - destruct qs as [|q qs]; [done|]. done.
  - change ((p :: p' :: ps) ++ qs) with (p :: (p' :: ps) ++ qs).
    change ((p' :: ps) ++ qs) with (p' :: ps ++ qs) at 1.
    rewrite joined_cons. change (p' :: ps ++ qs) with ((p' :: ps) ++ qs).
    rewrite IH by done. rewrite joined_cons.
    by rewrite !AppFacts.append_assoc.
Qed.

Lemma truthy_append a b : Js.truthy a = true -> Js.truthy (a +:+ b) = true.
Proof. by destruct a. Qed.

Lemma joined_truthy ps : Js.truthy (hd "" ps) = true -> Js.truthy (joined ps) = true.
Proof.
  destruct ps as [|p [|q ps]]; simpl; try done. intros Hp. by apply truthy_append.
Qed.

(** When the first segment is not empty, [currentPath] is the segments
    joined by "/". *)
Lemma joinAll_joined ps : Js.truthy (hd "" ps) = true -> joinAll ps = joined ps.
Proof.
  induction ps as [|q ps IH] using rev_ind; [done|]. intros Hhd.
  rewrite joinAll_snoc. destruct ps as [|p ps].
  - done.
  - rewrite IH by done. unfold joinPath.
    rewrite joined_truthy by done. by rewrite joined_app.
Qed.

Lemma joined_split_cons c seg segs :
  joined (String c seg :: segs) = String c (joined (seg :: segs)).
Proof. by destruct segs. Qed.

(** Splitting on "/" and joining with "/" gives the string back. *)
Lemma joined_split s : joined (split "/" s) = s.
Proof.
  induction s as [|c s IH]; [done|]. simpl.
  destruct (Ascii.eqb_spec c "/") as [->|Hc].
  - destruct (split "/" s) as [|seg segs] eqn:Hs; [by apply split_nonempty in Hs|].
    rewrite joined_cons, IH. done.
  - destruct (split "/" s) as [|seg segs] eqn:Hs; [by apply split_nonempty in Hs|].
    by rewrite joined_split_cons, IH.
Qed.

Lemma split_noSlash s : Forall (fun p => noSlash p = true) (split "/" s).
Proof.
  induction s as [|c s IH]; simpl; [by repeat constructor|].
  destruct (Ascii.eqb_spec c "/") as [->|Hc].
  - by constructor.
  - assert (negb (Ascii.eqb c "/") = true) as Hneg
      by (by destruct (Ascii.eqb_spec c "/")).
    destruct (split "/" s) as [|seg segs].
    + apply Forall_singleton. simpl. by rewrite Hneg.
    + apply Forall_cons in IH as [Hseg Hsegs]. constructor; [|done].
      simpl. by rewrite Hseg, Hneg.
Qed.

(** Two strings without "/" that are followed by "/" in the same string are
    the same. *)
Lemma noSlash_cut p q (x y : string) :
  noSlash p = true -> noSlash q = true ->
  p +:+ "/" +:+ x = q +:+ "/" +:+ y -> p = q /\ x = y.
Proof.
  revert q. induction p as [|a p IH]; intros [|b q] Hp Hq Heq.
  - by injection Heq.
  - simpl in Hq. injection Heq as <- _. by rewrite Ascii.eqb_refl in Hq.
  - simpl in Hp. injection Heq as -> _. by rewrite Ascii.eqb_refl in Hp.
  - simpl in Hp, Hq. apply andb_prop in Hp as [_ Hp]. apply andb_prop in Hq as [_ Hq].
    injection Heq as -> Heq. destruct (IH q Hp Hq Heq) as [-> ->]. done.
Qed.

Lemma noSlash_no_cut p q (x : string) :
  noSlash p = true -> p <> q +:+ "/" +:+ x.
Proof.
  revert q. induction p as [|a p IH]; intros [|b q] Hp Heq; try done.
  - simpl in Hp. injection Heq as -> _. by rewrite Ascii.eqb_refl in Hp.
  - simpl in Hp. apply andb_prop in Hp as [_ Hp]. injection Heq as -> Heq.
    by apply (IH q Hp).
Qed.

(** A joined path begins with another one followed by "/" exactly when its
    segments begin with the other's and go on. *)
Lemma joined_prefix c ps x :
  c <> [] ->
  Forall (fun p => noSlash p = true) c -> Forall (fun p => noSlash p = true) ps ->
  joined ps = (joined c +:+ "/") +:+ x ->
  exists rest, rest <> [] /\ ps = c ++ rest.
Proof.
  revert ps x. induction c as [|q c IH]; intros ps x Hne Hc Hps Heq; [done|].
  apply Forall_cons in Hc as [Hq Hc].
  destruct ps as [|p ps].
  { exfalso. change (joined []) with "" in Heq.
    destruct (joined (q :: c)); discriminate Heq. }
  apply Forall_cons in Hps as [Hp Hps].
  rewrite AppFacts.append_assoc in Heq.
  destruct c as [|q' c].
  - change (joined [q]) with q in Heq. destruct ps as [|p' ps].
    + change (joined [p]) with p in Heq. by apply noSlash_no_cut in Heq.
    + rewrite joined_cons in Heq. apply noSlash_cut in Heq as [-> _]; [|done..].
      by exists (p' :: ps).
  - rewrite joined_cons, !AppFacts.append_assoc in Heq. destruct ps as [|p' ps].
    + change (joined [p]) with p in Heq. by apply noSlash_no_cut in Heq.
    + rewrite joined_cons in Heq. apply noSlash_cut in Heq as [-> Heq]; [|done..].
      destruct (IH (p' :: ps) x) as (rest & Hrest & ->); [done|done|done| |].
      * by rewrite AppFacts.append_assoc.
      * by exists rest.
Qed.

End PathFacts.

(** ** Reaching a node by names *)

Module LocateFacts.
Import Js TreeNode Sidebar SortFacts ListFacts SidebarFacts TreeFacts PathFacts.

(** The node [n] is reached from [level] by the names [c]: through folders,
    and by its own name last. *)
Fixpoint located (c : list string) (level : list t) (n : t) : Prop :=
  match c with
  | [] => False
  | x :: c' =>
      match c' with
      | [] => n ∈ level /\ name n = x
      | _ :: _ =>
          exists m, m ∈ level /\ name m = x /\ type m = folder
                    /\ located c' (children m) n
      end
  end.

Lemma located_one x level n : located [x] level n <-> n ∈ level /\ name n = x.
Proof. done. Qed.

Lemma located_cons x y c level n :
  located (x :: y :: c) level n <->
  exists m, m ∈ level /\ name m = x /\ type m = folder /\ located (y :: c) (children m) n.
Proof. done. Qed.

Lemma located_nil c n : ~ located c [] n.
Proof.
  destruct c as [|x [|y c]]; [simpl; tauto| |].
  - intros [Hn _]. by apply elem_of_nil in Hn.
  - intros (m & Hm & _). by apply elem_of_nil in Hm.
Qed.

Lemma elem_of_allNodes_root level n : n ∈ level -> n ∈ allNodes level.
Proof.
  intros Hn. unfold allNodes. apply elem_of_flat_map. exists n. split; [done|].
  destruct n; left.
Qed.

Lemma elem_of_allNodes_below level m n :
  m ∈ level -> n ∈ allNodes (children m) -> n ∈ allNodes level.
Proof.
  intros Hm Hn. unfold allNodes. apply elem_of_flat_map. exists m. split; [done|].
  destruct m; right. exact Hn.
Qed.

Lemma elem_of_allNodes level n :
  n ∈ allNodes level <->
  n ∈ level \/ exists m, m ∈ level /\ n ∈ allNodes (children m).
Proof.
  split.
  - intros (m & Hm & Hn)%elem_of_flat_map. destruct m as [i nm p ty cs fi sz].
    simpl in Hn. apply elem_of_cons in Hn as [->|Hn]; [by left|].
    right. eexists. split; [exact Hm|]. exact Hn.
  - intros [Hn|(m & Hm & Hn)].
    + by apply elem_of_allNodes_root.
    + by apply (elem_of_allNodes_below _ m).
Qed.

Lemma located_allNodes c level n : located c level n -> n ∈ allNodes level.
Proof.
  revert level. induction c as [|x c IH]; intros level; [done|].
  destruct c as [|y c].
  - intros [Hn _]. by apply elem_of_allNodes_root.
  - intros (m & Hm & _ & _ & Hn). apply (elem_of_allNodes_below _ m); [done|].
    by apply IH.
Qed.

(** A chain that goes on passes through a folder. *)
Lemma located_split c1 c2 level n :
  c1 <> [] -> c2 <> [] -> located (c1 ++ c2) level n ->
  exists m, located c1 level m /\ type m = folder /\ located c2 (children m) n.
Proof.
  revert level. induction c1 as [|x c1 IH]; intros level Hc1 Hc2; [done|].
  destruct c1 as [|y c1].
  - destruct c2 as [|z c2]; [done|]. simpl.
    intros (m & Hm & Hname & Htype & Hn). by exists m.
  - change ((x :: y :: c1) ++ c2) with (x :: y :: (c1 ++ c2)).
    rewrite located_cons. intros (m & Hm & Hname & Htype & Hn).
    destruct (IH (children m)) as (m' & Hm' & Htype' & Hn'); [done|done|exact Hn|].
    exists m'. split; [|done]. rewrite located_cons. by exists m.
Qed.

Lemma located_app c1 c2 level m n :
  c2 <> [] -> located c1 level m -> type m = folder -> located c2 (children m) n ->
  located (c1 ++ c2) level n.
Proof.
  revert level. induction c1 as [|x c1 IH]; intros level Hc2 Hm Htype Hn; [done|].
  destruct c1 as [|y c1].
  - destruct Hm as [Hm Hname]. destruct c2 as [|z c2]; [done|].
    simpl. by exists m.
  - apply located_cons in Hm as (m' & Hm' & Hname & Htype' & Hm).
    change ((x :: y :: c1) ++ c2) with (x :: y :: (c1 ++ c2)).
    rewrite located_cons. exists m'. repeat split; try done. by apply IH.
Qed.

Section WellFormed.
Variable F : StoredFile.t -> Prop.

Lemma wf_file_leaf pre n : wf F pre n -> children n <> [] -> type n = folder.
Proof.
  intros [(_ & Hkind & _) _]%wf_eq Hne. destruct (type n); [|done].
  by destruct Hkind.
Qed.

(** Every node of a well-formed level is reached by a chain of names, and
    is well formed under it. *)
Lemma allNodes_located pre level n :
  wfLevel F pre level -> n ∈ allNodes level ->
  exists c, located (c ++ [name n]) level n /\ wf F (pre ++ c) n.
Proof.
  intros [_ Hall] Hn. unfold allNodes in Hn.
  apply elem_of_flat_map in Hn as (r & Hr & Hn).
  assert (wf F pre r) as Hwf by (rewrite Forall_forall in Hall; by apply Hall).
  assert (forall r pre, wf F pre r -> n ∈ flatten r ->
            n = r \/ exists c, located (c ++ [name n]) (children r) n
                               /\ wf F ((pre ++ [name r]) ++ c) n) as Hnode.
  { clear. induction r as [r IH] using tree_ind'. intros pre Hwf Hn.
    destruct r as [i nm p ty cs fi sz]. simpl in Hn.
    apply elem_of_cons in Hn as [->|Hn]; [by left|]. right.
    apply elem_of_flat_map in Hn as (c & Hc & Hn).
    pose proof Hwf as [_ Hkids]%wf_eq. simpl in *.
    rewrite Forall_forall in IH, Hkids.
    destruct (IH c Hc (pre ++ [nm]) (Hkids c Hc) Hn) as [->|(c' & Hloc & Hwf')].
    - exists []. rewrite app_nil_r. split; [|by apply Hkids]. by split.
    - exists (name c :: c'). split; [|by rewrite <-app_assoc in Hwf'].
      change ((name c :: c') ++ [name n]) with (name c :: (c' ++ [name n])).
      destruct (c' ++ [name n]) as [|y l] eqn:Hl; [by destruct c'|].
      rewrite located_cons. exists c. repeat split; try done.
      apply (wf_file_leaf (pre ++ [nm])); [by apply Hkids|].
      intros Hnil. rewrite Hnil in Hloc. by apply located_nil in Hloc. }
  destruct (Hnode r pre Hwf Hn) as [->|(c & Hloc & Hwf')].
  - exists []. rewrite app_nil_r. by split.
  - exists (name r :: c). split; [|by rewrite <-app_assoc in Hwf'].
    change ((name r :: c) ++ [name n]) with (name r :: (c ++ [name n])).
    destruct (c ++ [name n]) as [|y l] eqn:Hl; [by destruct c|].
    rewrite located_cons. exists r. repeat split; try done.
    apply (wf_file_leaf pre); [done|].
    intros Hnil. rewrite Hnil in Hloc. by apply located_nil in Hloc.
Qed.

Lemma NoDup_key_inj level n n' :
  NoDup (map key level) -> n ∈ level -> n' ∈ level ->
  name n = name n' -> type n = type n' -> n = n'.
Proof.
  intros Hnd Hn Hn' Hname Htype.
  apply list_elem_of_lookup in Hn as (i & Hi).
  apply list_elem_of_lookup in Hn' as (j & Hj).
  assert (i = j) as ->.
  { eapply NoDup_lookup; [exact Hnd| |].
    - rewrite list_lookup_fmap, Hi. done.
    - rewrite list_lookup_fmap, Hj. simpl. unfold key. by rewrite Hname, Htype. }
  congruence.
Qed.

(** A chain of names and a kind reach at most one node. *)
Lemma located_unique c pre level n n' :
  wfLevel F pre level -> located c level n -> located c level n' ->
  type n = type n' -> n = n'.
Proof.
  revert pre level. induction c as [|x c IH]; intros pre level [Hnd Hall]; [done|].
  destruct c as [|y c].
  - intros [Hn Hname] [Hn' Hname'] Htype.
    apply (NoDup_key_inj level); try done. congruence.
  - intros (m & Hm & Hname & Htype & Hn) (m' & Hm' & Hname' & Htype' & Hn') Hty.
    assert (m = m') as <-.
    { apply (NoDup_key_inj level); try done; congruence. }
    rewrite Forall_forall in Hall.
    apply (IH (pre ++ [name m]) (children m)); try done.
    by apply wf_children, Hall.
Qed.

(** The chain a node is reached by ends with its name, and the node is well
    formed under the rest. *)
Lemma located_wf c pre level n :
  wfLevel F pre level -> located c level n ->
  exists c', c = c' ++ [name n] /\ wf F (pre ++ c') n.
Proof.
  revert pre level. induction c as [|x c IH]; intros pre level [Hnd Hall]; [done|].
  rewrite Forall_forall in Hall. destruct c as [|y c].
  - intros [Hn <-]. exists []. split; [done|]. rewrite app_nil_r. by apply Hall.
  - intros (m & Hm & <- & Htype & Hn).
    destruct (IH (pre ++ [name m]) (children m)) as (c' & Hc' & Hwf);
      [by apply wf_children, Hall|done|].
    exists (name m :: c'). split; [by rewrite Hc'|]. by rewrite <-app_assoc in Hwf.
Qed.

End WellFormed.

(** What [hasFile] finds is a file node reached by the segments. *)
Lemma hasFile_located ps level :
  hasFile ps level = true -> exists m, located ps level m /\ type m = file.
Proof.
  revert level. induction ps as [|part rest IH]; intros level; [done|].
  destruct rest as [|r rest].
  - rewrite hasFile_file. destruct (find _ level) as [m|] eqn:Hfind; [|done].
    intros _. exists m. apply find_some in Hfind as [Hin [Hname Htype]%isNode_inv].
    split; [|done]. split; [by apply list_elem_of_In|done].
  - rewrite hasFile_folder. destruct (find _ level) as [m|] eqn:Hfind; [|done].
    intros Hrest. destruct (IH _ Hrest) as (n & Hn & Htype).
    apply find_some in Hfind as [Hin [Hname Hfolder]%isNode_inv].
    exists n. split; [|done]. rewrite located_cons. exists m.
    repeat split; try done. by apply list_elem_of_In.
Qed.

Lemma hasFile_fold_insertFile fs forest f :
  f ∈ fs -> hasFile (parts f) (fold_left insertFile fs forest) = true.
Proof.
  assert (forall fs forest qs, hasFile qs forest = true ->
            hasFile qs (fold_left insertFile fs forest) = true) as Hkeep.
  { clear. induction fs as [|g fs IH]; intros forest qs Hqs; [done|].
    simpl. apply IH. unfold insertFile.
    destruct (decide (qs = parts g)) as [->|Hne].
    - apply hasFile_addParts_same, parts_nonempty.
    - by rewrite hasFile_addParts_other. }
  revert forest. induction fs as [|g fs IH]; intros forest Hf.
  { by apply elem_of_nil in Hf. }
  simpl. apply elem_of_cons in Hf as [->|Hf]; [|by apply IH].
  apply Hkeep. apply hasFile_addParts_same, parts_nonempty.
Qed.

Section Sorted.
Context `{Collator}.

Lemma elem_of_sortNodes level n : n ∈ level -> sortNode n ∈ sortNodes level.
Proof.
  intros Hn. rewrite (sortNodes_Permutation level). by apply list_elem_of_fmap_2.
Qed.

(** The final sort moves a node within its level; the names that reach it
    stay. *)
Lemma located_sortNodes c level n :
  located c level n -> located c (sortNodes level) (sortNode n).
Proof.
  revert level. induction c as [|x c IH]; intros level; [done|].
  destruct c as [|y c].
  - intros [Hn Hname]. split; [by apply elem_of_sortNodes|by rewrite sortNode_name].
  - intros (m & Hm & Hname & Htype & Hn). rewrite located_cons.
    exists (sortNode m). rewrite sortNode_name, sortNode_type, sortNode_children.
    repeat split; try done; [by apply elem_of_sortNodes|by apply IH].
Qed.

(** Every record has a file node reached by its segments. *)
Lemma treeData_located files f :
  f ∈ files -> exists m, located (parts f) (treeData files) m /\ type m = file.
Proof.
  intros Hf.
  destruct (hasFile_located (parts f) (unsortedTree files)) as (m & Hm & Htype).
  { apply hasFile_fold_insertFile. unfold sortedFiles. by rewrite elem_of_sortBy. }
  exists (sortNode m). split; [by apply located_sortNodes|by rewrite sortNode_type].
Qed.

End Sorted.

End LocateFacts.

(** ** The tree: siblings, shapes, paths, and the folder's trash button *)

Module TreeSpec.
Import Js TreeNode Sidebar SortFacts ListFacts SidebarFacts TreeFacts PathFacts LocateFacts.

Lemma elem_of_fileNodes forest m :
  m ∈ fileNodes forest <-> m ∈ allNodes forest /\ type m = file.
Proof.
  unfold fileNodes. rewrite AppFacts.elem_of_List_filter.
  by rewrite kind_eqb_eq.
Qed.

(** No folder is empty: a file node lies below every folder. *)
Lemma wf_folder_has_file F pre n :
  wf F pre n -> type n = folder -> exists m, m ∈ fileNodes (children n).
Proof.
  revert pre. induction n as [n IH] using tree_ind'. intros pre Hwf Htype.
  pose proof Hwf as [(_ & Hkind & _) Hkids]%wf_eq.
  rewrite Htype in Hkind. destruct Hkind as (Hne & _).
  destruct (children n) as [|c cs] eqn:Hcs; [done|].
  apply Forall_cons in IH as [IHc _]. apply Forall_cons in Hkids as [Hc _].
  destruct (type c) eqn:Hty.
  - exists c. apply elem_of_fileNodes. split; [|done].
    apply elem_of_allNodes_root. left.
  - destruct (IHc _ Hc eq_refl) as (m & [Hm Hfile]%elem_of_fileNodes).
    exists m. apply elem_of_fileNodes. split; [|done].
    apply (elem_of_allNodes_below _ c); [left|done].
Qed.

Lemma hd_app_nonempty (c rest : list string) : c <> [] -> hd "" (c ++ rest) = hd "" c.
Proof. by destruct c. Qed.

Section WithCollator.
Context `{Collator}.

(** No two siblings of the tree have the same name and the same kind: the
    look-up by name and kind that precedes every insertion never lets a
    duplicate in.  (A file and a folder of one name can stand side by
    side.) *)
Theorem treeData_siblings_distinct (files : list StoredFile.t) :
  Forall (fun level => NoDup (map key level)) (levels (treeData files)).
Proof. eapply wfLevel_levels, treeData_wf. Qed.

(** Every node of the tree is either a leaf that stands for a record, or a
    folder that holds a file: a file node has no children and carries the
    id and the size of a record whose last segment is the node's name; a
    folder node carries no file id and no size, has its path for id, and has
    at least one file node below it. *)
Theorem treeData_node_shapes (files : list StoredFile.t) (n : t) :
  n ∈ allNodes (treeData files) ->
  match type n with
  | file =>
      children n = []
      /\ exists f, f ∈ files /\ last (parts f) = Some (name n)
                   /\ id n = StoredFile.id f
                   /\ fileId n = Some (StoredFile.id f)
                   /\ size n = Some (StoredFile.size f)
  | folder =>
      id n = path n /\ fileId n = None /\ size n = None
      /\ exists m, m ∈ fileNodes (children n)
  end.
Proof.
  intros Hn.
  destruct (wfLevel_allNodes _ _ _ _ (treeData_wf files) Hn) as (pre & Hwf).
  pose proof Hwf as [(_ & Hkind & _) _]%wf_eq.
  destruct (type n) eqn:Htype.
  - destruct Hkind as (Hleaf & f & Hf & Hparts & Hid & Hfid & Hsize).
    split; [done|]. exists f. split; [done|]. split; [|done].
    by rewrite Hparts, last_snoc.
  - destruct Hkind as (_ & Hid & Hfid & Hsize & _). do 3 (split; [done|]).
    by apply (wf_folder_has_file (fun f => f ∈ files) pre).
Qed.

(** The path of a node is built from the names on the way to it: a root has
    its name for path, and a child the path of its parent joined with its
    own name.  When no record's path begins with an empty segment, that is
    the parent's path, "/" and the name; and the path of a file node is the
    path of its record, less the leading slash. *)
Theorem treeData_paths (files : list StoredFile.t) :
  (forall n, n ∈ treeData files -> path n = name n)
  /\ (forall n c, n ∈ allNodes (treeData files) -> c ∈ children n ->
        path c = joinPath (path n) (name c))
  /\ ((forall f, f ∈ files -> hd "" (parts f) <> "") ->
      (forall n c, n ∈ allNodes (treeData files) -> c ∈ children n ->
         path c = path n +:+ "/" +:+ name c)
      /\ (forall m, m ∈ fileNodes (treeData files) ->
            exists f, f ∈ files /\ fileId m = Some (StoredFile.id f)
                      /\ path m = cleanPath (StoredFile.path f))).
Proof.
  pose proof (treeData_wf files) as Hwf.
  assert (forall n c, n ∈ allNodes (treeData files) -> c ∈ children n ->
            path c = joinPath (path n) (name c)
            /\ exists pre f rest, path n = joinAll (pre ++ [name n])
                 /\ f ∈ files /\ parts f = (pre ++ [name n]) ++ rest) as Hchild.
  { intros n c Hn Hc.
    destruct (wfLevel_allNodes _ _ _ _ Hwf Hn) as (pre & Hn').
    pose proof Hn' as [(Hpath & Hkind & _) Hkids]%wf_eq.
    rewrite Forall_forall in Hkids.
    pose proof (Hkids c Hc) as [(Hpathc & _) _]%wf_eq.
    split; [by rewrite Hpathc, joinAll_snoc, Hpath|].
    assert (type n = folder) as Htype.
    { eapply wf_file_leaf; [exact Hn'|]. intros Hnil. rewrite Hnil in Hc.
      by apply elem_of_nil in Hc. }
    rewrite Htype in Hkind. destruct Hkind as (_ & _ & _ & _ & f & rest & Hf & _ & Hparts).
    by exists pre, f, rest. }
  split; [|split].
  - intros n Hn. destruct Hwf as [_ Hall]. rewrite Forall_forall in Hall.
    by pose proof (Hall n Hn) as [(Hpath & _) _]%wf_eq.
  - intros n c Hn Hc. by apply Hchild.
  - intros Hhd.
    assert (forall f ps, f ∈ files -> ps <> [] -> (exists rest, parts f = ps ++ rest) ->
              joinAll ps = joined ps /\ Js.truthy (joined ps) = true) as Hjoin.
    { intros f ps Hf Hps (rest & Hparts).
      assert (Js.truthy (hd "" ps) = true) as Htruthy.
      { specialize (Hhd f Hf). rewrite Hparts, hd_app_nonempty in Hhd by done.
        by destruct (hd "" ps). }
      split; [by apply joinAll_joined|by apply joined_truthy]. }
    split.
    + intros n c Hn Hc.
      destruct (Hchild n c Hn Hc) as (-> & pre & f & rest & Hpath & Hf & Hparts).
      destruct (Hjoin f (pre ++ [name n]) Hf) as [Heq Htruthy];
        [by destruct pre|by exists rest|].
      unfold joinPath. by rewrite Hpath, Heq, Htruthy.
    + intros m [Hm Hfile]%elem_of_fileNodes.
      destruct (wfLevel_allNodes _ _ _ _ Hwf Hm) as (pre & Hm').
      pose proof Hm' as [(Hpath & Hkind & _) _]%wf_eq.
      rewrite Hfile in Hkind. destruct Hkind as (_ & f & Hf & Hparts & _ & Hfid & _).
      exists f. split; [done|]. split; [done|].
      destruct (Hjoin f (pre ++ [name m]) Hf) as [Heq _];
        [by destruct pre|exists []; by rewrite app_nil_r|].
      rewrite Hpath, Heq, <-Hparts. apply joined_split.
Qed.

(** The trash button of a folder deletes what the folder shows.  When no
    record's path begins with an empty segment, the records that
    [handleFolderDelete] selects for the path of a folder node are exactly
    the records whose path (less the leading slash) is the path of a file
    node below that folder; and every file node below the folder stands for
    one of the selected records. *)
Theorem folder_delete_takes_what_the_folder_shows (files : list StoredFile.t) (n : t) :
  (forall f, f ∈ files -> hd "" (parts f) <> "") ->
  n ∈ allNodes (treeData files) -> type n = folder ->
  (forall f, f ∈ App.filesToDelete files (path n) <->
     f ∈ files /\ exists m, m ∈ fileNodes (children n)
                            /\ path m = cleanPath (StoredFile.path f))
  /\ (forall m, m ∈ fileNodes (children n) ->
        exists f, f ∈ App.filesToDelete files (path n)
                  /\ fileId m = Some (StoredFile.id f)).
Proof.
  intros Hhd Hn Htype.
  pose proof (treeData_wf files) as Hwf.
  destruct (allNodes_located _ _ _ _ Hwf Hn) as (c & Hloc & Hn').
  simpl in Hn'.
  pose proof Hn' as [(Hpath & Hkind & _) _]%wf_eq.
  rewrite Htype in Hkind.
  destruct Hkind as (_ & _ & _ & _ & f0 & rest0 & Hf0 & Hrest0 & Hparts0).
  set (cn := c ++ [name n]) in *.
  assert (cn <> []) as Hcn by (subst cn; by destruct c).
  assert (forall f, f ∈ files -> Js.truthy (hd "" (parts f)) = true) as Htruthy.
  { intros f Hf. specialize (Hhd f Hf). by destruct (hd "" (parts f)). }
  assert (forall rest, Js.truthy (hd "" (cn ++ rest)) = true) as Hcnhd.
  { intros rest. rewrite hd_app_nonempty by done.
    rewrite <-(hd_app_nonempty cn rest0), <-Hparts0 by done. by apply Htruthy. }
  assert (path n = joined cn) as Hpathn.
  { rewrite Hpath. apply joinAll_joined. specialize (Hcnhd []).
    by rewrite app_nil_r in Hcnhd. }
  assert (Forall (fun p => noSlash p = true) cn) as Hslash.
  { pose proof (split_noSlash (cleanPath (StoredFile.path f0))) as Hall.
    fold (parts f0) in Hall. rewrite Hparts0 in Hall.
    by apply Forall_app in Hall as [Hall _]. }
  assert (forall f, cleanPath (StoredFile.path f) = joined (parts f)) as Hclean.
  { intros f. symmetry. apply joined_split. }
  (* what lies below the folder *)
  assert (forall m, m ∈ fileNodes (children n) ->
            exists f rest, f ∈ files /\ rest <> [] /\ parts f = cn ++ rest
                           /\ fileId m = Some (StoredFile.id f)
                           /\ path m = joined (cn ++ rest)) as Hbelow.
  { intros m [Hm Hfile]%elem_of_fileNodes.
    destruct (allNodes_located _ _ _ _ (wf_children _ _ _ Hn') Hm) as (d & _ & Hm').
    pose proof Hm' as [(Hpathm & Hkindm & _) _]%wf_eq.
    rewrite Hfile in Hkindm. destruct Hkindm as (_ & f & Hf & Hparts & _ & Hfid & _).
    exists f, (d ++ [name m]). split; [done|]. split; [by destruct d|].
    fold cn in Hparts, Hpathm. rewrite <-!app_assoc in Hparts, Hpathm.
    split; [done|]. split; [done|]. rewrite Hpathm. by apply joinAll_joined. }
  assert (forall f, f ∈ App.filesToDelete files (path n) <->
            f ∈ files /\ exists x, cleanPath (StoredFile.path f) = (path n +:+ "/") +:+ x)
    as Hquery.
  { intros f. unfold App.filesToDelete.
    by rewrite AppFacts.elem_of_List_filter, AppFacts.startsWith_spec. }
  assert (forall f rest, f ∈ files -> rest <> [] -> parts f = cn ++ rest ->
            f ∈ App.filesToDelete files (path n)) as Hselected.
  { intros f rest Hf Hrest Hparts. apply Hquery. split; [done|].
    exists (joined rest).
    by rewrite Hclean, Hparts, joined_app, Hpathn, AppFacts.append_assoc. }
  split.
  - intros f. split.
    + intros [Hf (x & Hx)]%Hquery. split; [done|].
      rewrite Hclean, Hpathn in Hx.
      apply joined_prefix in Hx as (rest & Hrest & Hparts);
        [|done|done|apply split_noSlash].
      destruct (treeData_located files f Hf) as (m & Hm & Hfile).
      rewrite Hparts in Hm.
      apply located_split in Hm as (n' & Hn'' & Htype' & Hm); [|done..].
      assert (n' = n) as ->.
      { eapply (located_unique _ cn [] (treeData files));
          [exact Hwf|exact Hn''|exact Hloc|congruence]. }
      exists m. split.
      * apply elem_of_fileNodes. split; [|done]. by apply (located_allNodes rest).
      * destruct (located_wf _ _ _ _ _ (wf_children _ _ _ Hn') Hm) as (d & -> & Hm').
        pose proof Hm' as [(Hpathm & _) _]%wf_eq.
        fold cn in Hpathm. rewrite <-app_assoc in Hpathm.
        rewrite Hpathm, Hclean, Hparts. by apply joinAll_joined.
    + intros [Hf (m & Hm & Hpathm)].
      destruct (Hbelow m Hm) as (g & rest & _ & Hrest & _ & _ & Hpathm').
      apply Hquery. split; [done|]. exists (joined rest).
      by rewrite <-Hpathm, Hpathm', joined_app, Hpathn, AppFacts.append_assoc.
  - intros m Hm. destruct (Hbelow m Hm) as (f & rest & Hf & Hrest & Hparts & Hfid & _).
    exists f. split; [|done]. by apply (Hselected f rest).
Qed.

End WithCollator.

(** *** Examples *)

(** The library of the examples, and the folder [Docs] of its tree. *)
Definition shelf : list StoredFile.t :=
  [SidebarSpec.a_pdf; SidebarSpec.docs_b; SidebarSpec.docs_sub_c; SidebarSpec.docs2_d].

Definition docs : t :=
  Eval vm_compute in
    hd (Build "" "" "" file [] None None) (treeData (H:=CodeUnit.collator) shelf).

Lemma docs_shown : docs ∈ allNodes (treeData (H:=CodeUnit.collator) shelf).
Proof. apply list_elem_of_In. vm_compute. tauto. Qed.

Lemma treeData_node_shapes_witness :
  id docs = path docs /\ exists m, m ∈ fileNodes (children docs).
Proof.
  pose proof (treeData_node_shapes (H:=CodeUnit.collator) shelf docs docs_shown) as Hshape.
  change (type docs) with folder in Hshape. cbv iota in Hshape.
  destruct Hshape as (Hid & _ & _ & Hm). by split.
Defined.

Lemma folder_delete_witness :
  exists m, m ∈ fileNodes (children docs) /\ path m = "Docs/b.pdf".
Proof.
  destruct (folder_delete_takes_what_the_folder_shows (H:=CodeUnit.collator) shelf docs)
    as [Hselected _].
  - intros f Hf. apply list_elem_of_In in Hf. simpl in Hf.
    destruct Hf as [<-|[<-|[<-|[<-|[]]]]]; vm_compute; discriminate.
  - exact docs_shown.
  - reflexivity.
  - destruct (proj1 (Hselected SidebarSpec.docs_b)) as [_ Hm]; [|exact Hm].
    apply list_elem_of_In. vm_compute. tauto.
Defined.

End TreeSpec.

(** ** The sidebar: expanding folders, rows, the read percentage *)

Module ViewSpec.
Import Js TreeNode Sidebar SortFacts ListFacts SidebarFacts LocateFacts.

(** Clicking a folder twice leaves the set of expanded folders as it was;
    one click changes whether that folder is expanded, and nothing about
    any other path. *)
Theorem toggleFolder_flips_one_path (path : string) (prev : gset string) :
  toggleFolder path (toggleFolder path prev) = prev
  /\ (path ∈ toggleFolder path prev <-> path ∉ prev)
  /\ (forall q, q <> path -> q ∈ toggleFolder path prev <-> q ∈ prev).
Proof.
  unfold toggleFolder. split; [|split].
  - destruct (decide (path ∈ prev)) as [Hin|Hin].
    + rewrite decide_False by set_solver.
      apply set_eq. intros q. destruct (decide (q = path)); set_solver.
    + rewrite decide_True by set_solver.
      apply set_eq. intros q. destruct (decide (q = path)); set_solver.
  - destruct (decide (path ∈ prev)); set_solver.
  - intros q Hq. destruct (decide (path ∈ prev)); set_solver.
Qed.

Section Rows.
Variables (activeFileId : option string) (history : list ReadingHistory.t).


Lemma FileTreeItem_eq expanded depth n :
  map node (FileTreeItem activeFileId expanded history depth n) =
  n :: match type n with
       | folder =>
           if bool_decide (path n ∈ expanded)
           then flat_map (fun c => map node (FileTreeItem activeFileId expanded history (depth + 1) c)) (children n)
           else []
       | file => []
       end.
Proof.
  destruct n as [i nm p ty cs fi sz]. simpl. f_equal.
  destruct ty; [done|]. destruct (bool_decide (p ∈ expanded)); [|done].
  induction cs as [|c cs IH]; simpl; [done|]. by rewrite map_app, IH.
Qed.

Lemma flat_map_map {A B C} (f : A -> list B) (g : B -> C) l :
  map g (flat_map f l) = flat_map (fun x => map g (f x)) l.
Proof. induction l as [|x l IH]; simpl; [done|]. by rewrite map_app, IH. Qed.

Lemma sublist_flat_map {A B} (f g : A -> list B) l :
  Forall (fun x => sublist (f x) (g x)) l -> sublist (flat_map f l) (flat_map g l).
Proof.
  induction 1 as [|x l Hx _ IH]; simpl; [done|]. by apply sublist_app.
Qed.

Lemma flat_map_ext_in {A B} (f g : A -> list B) l :
  (forall x, x ∈ l -> f x = g x) -> flat_map f l = flat_map g l.
Proof.
  induction l as [|x l IH]; intros Hfg; simpl; [done|].
  rewrite Hfg by left. rewrite IH; [done|]. intros y Hy. apply Hfg. by right.
Qed.

Lemma rows_sublist_flatten expanded depth n :
  sublist (map node (FileTreeItem activeFileId expanded history depth n)) (flatten n).
Proof.
  revert depth. induction n as [n IH] using tree_ind'. intros depth.
  rewrite FileTreeItem_eq. destruct n as [i nm p ty cs fi sz]. simpl in *.
  constructor. destruct ty; [apply sublist_nil_l|].
  destruct (bool_decide (p ∈ expanded)); [|apply sublist_nil_l].
  apply sublist_flat_map. eapply Forall_impl; [exact IH|]. intros c Hc. apply Hc.
Qed.

Lemma rows_mono expanded expanded' depth n :
  expanded ⊆ expanded' ->
  sublist (map node (FileTreeItem activeFileId expanded history depth n)) (map node (FileTreeItem activeFileId expanded' history depth n)).
Proof.
  intros Hsub. revert depth. induction n as [n IH] using tree_ind'. intros depth.
  rewrite !FileTreeItem_eq. constructor. destruct (type n); [done|].
  destruct (bool_decide_reflect (path n ∈ expanded)) as [Hin|_]; [|apply sublist_nil_l].
  rewrite bool_decide_eq_true_2 by set_solver.
  apply sublist_flat_map. eapply Forall_impl; [exact IH|]. intros c Hc. apply Hc.
Qed.

Lemma rows_all expanded depth n :
  (forall m, m ∈ flatten n -> type m = file -> children m = []) ->
  (forall m, m ∈ flatten n -> type m = folder -> path m ∈ expanded) ->
  map node (FileTreeItem activeFileId expanded history depth n) = flatten n.
Proof.
  revert depth. induction n as [n IH] using tree_ind'. intros depth Hleaf Hall.
  rewrite FileTreeItem_eq.
  assert (n ∈ flatten n) as Hn by (destruct n; left).
  assert (forall c m, c ∈ children n -> m ∈ flatten c -> m ∈ flatten n) as Hbelow.
  { intros c m Hc Hm. destruct n as [i nm p ty cs fi sz]. simpl in *. right.
    apply elem_of_flat_map. by exists c. }
  replace (flatten n) with (n :: flat_map flatten (children n)) by (by destruct n).
  f_equal. destruct (type n) eqn:Htype.
  - by rewrite (Hleaf n Hn Htype).
  - rewrite bool_decide_eq_true_2 by by apply Hall.
    rewrite Forall_forall in IH. apply flat_map_ext_in. intros c Hc.
    apply IH; [done| |].
    + intros m Hm. by apply Hleaf, (Hbelow c).
    + intros m Hm. by apply Hall, (Hbelow c).
Qed.

(** What the sidebar shows of the tree: with every folder collapsed, the
    roots and nothing else; always some of the nodes, in the order of the
    tree; no fewer rows when more folders are expanded; and every node when
    the path of every folder is expanded. *)
Theorem rendered_rows `{Collator} (files : list StoredFile.t)
    (expanded expanded' : gset string) :
  let tree := treeData files in
  map node (rendered activeFileId ∅ history tree) = tree
  /\ sublist (map node (rendered activeFileId expanded history tree)) (allNodes tree)
  /\ (expanded ⊆ expanded' ->
      sublist (map node (rendered activeFileId expanded history tree)) (map node (rendered activeFileId expanded' history tree)))
  /\ ((forall n, n ∈ allNodes tree -> type n = folder -> path n ∈ expanded) ->
      map node (rendered activeFileId expanded history tree) = allNodes tree).
Proof.
  intros tree. unfold rendered. rewrite !flat_map_map. split; [|split; [|split]].
  - induction tree as [|n tree' IH]; simpl; [done|].
    rewrite IH, FileTreeItem_eq. destruct (type n); [done|].
    by rewrite bool_decide_eq_false_2 by set_solver.
  - apply sublist_flat_map, Forall_forall. intros n _. apply rows_sublist_flatten.
  - intros Hsub. apply sublist_flat_map, Forall_forall. intros n _. by apply rows_mono.
  - intros Hall. unfold allNodes.
    assert (forall n, n ∈ tree ->
              map node (FileTreeItem activeFileId expanded history 0 n) = flatten n) as Hrow.
    { intros n Hn. apply rows_all.
      - intros m Hm Hfile.
        assert (m ∈ allNodes tree) as Hm'.
        { unfold allNodes. apply elem_of_flat_map. by exists n. }
        destruct (TreeFacts.wfLevel_allNodes _ _ _ _ (TreeFacts.treeData_wf files) Hm')
          as (pre & Hwf).
        apply TreeFacts.wf_eq in Hwf as [(_ & Hkind & _) _].
        rewrite Hfile in Hkind. by destruct Hkind.
      - intros m Hm. apply Hall. unfold allNodes. apply elem_of_flat_map. by exists n. }
    by apply flat_map_ext_in.
Qed.

End Rows.

(** *** The read percentage *)

Lemma find_filter_none {A} (p q : A -> bool) l :
  (forall x, p x = true -> q x = false) -> find p (List.filter q l) = None.
Proof.
  intros Hpq. induction l as [|x l IH]; simpl; [done|].
  destruct (q x) eqn:Hq; simpl; [|done].
  destruct (p x) eqn:Hp; [|done]. by rewrite (Hpq x Hp) in Hq.
Qed.

(** The percentage shown beside a file follows the shell: after a page
    change on the open file that the host accepts, it is the page over the
    page count, times 100, rounded; after the file is deleted, it is 0 (and
    the badge is not rendered). *)
Theorem percentage_follows_the_shell (s : App.state) (x : string) (page total : Z) :
  let s1 := Effect.exec (App.handle (App.PageChange page total)) s in
  let s2 := Effect.exec (App.handle (App.FileDelete x)) s1 in
  App.activeFileId s = Some x -> Js.truthy x = true -> total <> 0%Z ->
  Db.accepts (App.world s) [Db.Open; Db.Put Db.STORE_HISTORY x] ->
  Db.accepts (App.world s1)
    [Db.Open; Db.Delete Db.STORE_FILES x; Db.Delete Db.STORE_HISTORY x] ->
  getReadPercentage (App.history s1) x =
    Number.round (Number.mul (Number.div (Number.ofZ page) (Number.ofZ total))
                             (Number.ofZ 100))
  /\ getReadPercentage (App.history s2) x = Number.ofZ 0.
Proof.
  intros s1 s2 Hactive Hx Htotal Hacc1 Hacc2. split.
  - destruct (AppFacts.handlePageChange_accepted x page total s Hx Hacc1)
      as (now & w' & Hrun & _).
    subst s1. unfold Effect.exec, App.handle. rewrite Hactive, Hrun. simpl.
    unfold getReadPercentage.
    rewrite (ShellSpec.find_upsert (ReadingHistory.Build x page now (Some total))).
    simpl. by destruct total.
  - subst s2. unfold Effect.exec, App.handle.
    rewrite (AppFacts.handleFileDelete_accepted _ _ _ Hacc2). simpl.
    unfold getReadPercentage. rewrite find_filter_none; [done|].
    intros h Hh. by rewrite Hh.
Qed.

(** *** Examples *)

Lemma percentage_follows_the_shell_witness :
  Sidebar.getReadPercentage
    (App.history (Effect.exec (App.handle (App.PageChange 3 10)) (AppSpec.library AppSpec.noFault)))
    "2" = Number.ofZ 30.
Proof.
  destruct (percentage_follows_the_shell (AppSpec.library AppSpec.noFault) "2" 3 10)
    as [Hpercentage _].
  - reflexivity.
  - reflexivity.
  - discriminate.
  - intros i q _. reflexivity.
  - intros i q _. reflexivity.
  - rewrite Hpercentage. vm_compute. reflexivity.
Defined.

End ViewSpec.
